(** * photo_organizer: the similarity and deduplication engine

    A shallow embedding of [MediaComparator.ts] (Hamming distance over
    perceptual hashes, the image / image-video / video similarity kernel with
    its dynamic-time-warping row, the DBSCAN worker, the overlap merge and the
    representative selection), of [jobs/BaseFileInfoJob.ts] (the
    config-checked cache), of [FileStatsJob] (the file hash) and of the
    single-file script (its band index, its string distance and its choice
    of the best copy), together with the properties the specification
    states about them and further properties of the code.

    Conventions of the embedding.
    - A JavaScript [number] is [number] below: a finite value carried as an
      exact rational, the two infinities and NaN.  Rounding of doubles is not
      modelled; every special value the code can produce (division by zero,
      the [Infinity] cells of the DTW row, NaN from [0/0]) is.
    - A [bigint] is [Z]; a [SharedArrayBuffer] is its list of bytes.
    - Code that can throw or loop returns an [outcome]: a value, a thrown
      exception, or [OutOfFuel] when the step budget of a loop is used up.
    - An [async] function is modelled by the function it computes; awaiting
      is sequencing. *)

From Stdlib Require Import ZArith QArith Qabs Qround Lia Lqa Bool.
From Stdlib Require Import Strings.Byte Sorting.Sorted.
From stdpp Require Import base option list strings gmap.

Local Open Scope Z_scope.

(** ** Outcomes of fallible code *)

Inductive exn := RangeError | TypeError.

Inductive outcome (A : Type) : Type :=
  | Value (a : A)
  | Throws (e : exn)
  | OutOfFuel.
Arguments Value {A} a.
Arguments Throws {A} e.
Arguments OutOfFuel {A}.

#[global] Instance outcome_ret : MRet outcome := fun A a => Value a.
#[global] Instance outcome_bind : MBind outcome := fun A B f m =>
  match m with
  | Value a => f a
  | Throws e => Throws e
  | OutOfFuel => OutOfFuel
  end.

(** A [for] loop over the elements of [l], threading the loop state. *)
Fixpoint for_each {A S : Type} (l : list A) (body : S -> A -> outcome S) (s : S)
  : outcome S :=
  match l with
  | [] => Value s
  | x :: l' => s' ← body s x; for_each l' body s'
  end.

(** ** JavaScript numbers *)

Module Num.

Inductive number := Fin (q : Q) | PInf | NInf | NaN.

Definition of_Z (z : Z) : number := Fin (inject_Z z).
Definition of_nat (n : nat) : number := of_Z (Z.of_nat n).

Definition neg (a : number) : number :=
  match a with
  | Fin q => Fin (- q)
  | PInf => NInf
  | NInf => PInf
  | NaN => NaN
  end.

Definition add (a b : number) : number :=
  match a, b with
  | NaN, _ | _, NaN => NaN
  | Fin x, Fin y => Fin (x + y)
  | PInf, NInf | NInf, PInf => NaN
  | PInf, _ | _, PInf => PInf
  | NInf, _ | _, NInf => NInf
  end.

Definition sub (a b : number) : number := add a (neg b).

Definition mul (a b : number) : number :=
  match a, b with
  | NaN, _ | _, NaN => NaN
  | Fin x, Fin y => Fin (x * y)
  | Fin x, PInf | PInf, Fin x =>
      if Qeq_bool x 0 then NaN else if Qle_bool 0 x then PInf else NInf
  | Fin x, NInf | NInf, Fin x =>
      if Qeq_bool x 0 then NaN else if Qle_bool 0 x then NInf else PInf
  | PInf, PInf | NInf, NInf => PInf
  | PInf, NInf | NInf, PInf => NInf
  end.

(** Sign of a number as seen by a division; a zero counts as [+0], which is
    the only zero the divisors of this program (a byte length times eight, a
    maximum of two lengths) can be. *)
Definition div (a b : number) : number :=
  match a, b with
  | NaN, _ | _, NaN => NaN
  | Fin x, Fin y =>
      if Qeq_bool y 0 then
        if Qeq_bool x 0 then NaN
        else if Qle_bool 0 x then PInf else NInf
      else Fin (x / y)
  | Fin _, (PInf | NInf) => Fin 0
  | (PInf | NInf), (PInf | NInf) => NaN
  | PInf, Fin y => if Qle_bool 0 y then PInf else NInf
  | NInf, Fin y => if Qle_bool 0 y then NInf else PInf
  end.

(** [a <= b], [a >= b], [a > b] and [a === b]: false as soon as NaN is
    involved. *)
Definition le (a b : number) : bool :=
  match a, b with
  | NaN, _ | _, NaN => false
  | NInf, _ | _, PInf => true
  | Fin x, Fin y => Qle_bool x y
  | _, _ => false
  end.
Definition ge (a b : number) : bool := le b a.
Definition lt (a b : number) : bool :=
  match a, b with
  | NaN, _ | _, NaN => false
  | PInf, _ | _, NInf => false
  | Fin x, Fin y => negb (Qle_bool y x)
  | _, _ => true
  end.
Definition gt (a b : number) : bool := lt b a.
Definition eqb (a b : number) : bool :=
  match a, b with
  | Fin x, Fin y => Qeq_bool x y
  | PInf, PInf | NInf, NInf => true
  | _, _ => false
  end.

(** [Math.min] and [Math.max]: NaN if any argument is. *)
Definition min (a b : number) : number :=
  match a, b with
  | NaN, _ | _, NaN => NaN
  | _, _ => if le a b then a else b
  end.
Definition max (a b : number) : number :=
  match a, b with
  | NaN, _ | _, NaN => NaN
  | _, _ => if le a b then b else a
  end.
Definition min3 (a b c : number) : number := min (min a b) c.

(** Equality of values, with rationals compared by [Qeq]. *)
Definition equiv (a b : number) : Prop :=
  match a, b with
  | Fin x, Fin y => (x == y)%Q
  | PInf, PInf | NInf, NInf | NaN, NaN => True
  | _, _ => False
  end.

End Num.
Export Num(number, Fin, PInf, NInf, NaN).

(** ** Perceptual hashes and the Hamming distance *)

(** A [SharedArrayBuffer]: its bytes, in address order. *)
Definition buffer := list byte.

Definition byteLength (h : buffer) : Z := Z.of_nat (length h).

Definition byte_val (b : byte) : Z := Z.of_N (Byte.to_N b).

(** The value of a run of bytes read as one little-endian unsigned word. *)
Fixpoint le_word (bs : list byte) : Z :=
  match bs with
  | [] => 0
  | b :: bs' => byte_val b + 256 * le_word bs'
  end.

Fixpoint words (h : buffer) : list Z :=
  match h with
  | b0 :: b1 :: b2 :: b3 :: b4 :: b5 :: b6 :: b7 :: rest =>
      le_word [b0; b1; b2; b3; b4; b5; b6; b7] :: words rest
  | _ => []
  end.

(** [new BigUint64Array(h)]: a view of the whole buffer; the constructor
    throws a RangeError when the byte length is not a multiple of the element
    size. *)
Definition BigUint64Array (h : buffer) : outcome (list Z) :=
  if decide (byteLength h mod 8 = 0) then Value (words h) else Throws RangeError.

(** [new Uint8Array(h)]. *)
Definition Uint8Array (h : buffer) : list Z := byte_val <$> h.

(** [popcount64] works on bigints: no operation wraps. *)
Definition popcount64 (n : Z) : Z :=
  let n := n - Z.land (Z.shiftr n 1) 0x5555555555555555 in
  let n := Z.land n 0x3333333333333333 + Z.land (Z.shiftr n 2) 0x3333333333333333 in
  let n := Z.land (n + Z.shiftr n 4) 0x0f0f0f0f0f0f0f0f in
  Z.shiftr (n * 0x0101010101010101) 56.

Definition popcount8 (n : Z) : Z :=
  let n := n - Z.land (Z.shiftr n 1) 0x55 in
  let n := Z.land n 0x33 + Z.land (Z.shiftr n 2) 0x33 in
  Z.land (n + Z.shiftr n 4) 0x0f.

(** [view1[i] ^ view2[i]] on bigint views: an index past the end reads
    [undefined], and mixing a bigint with it throws a TypeError. *)
Definition xor_at (view1 view2 : list Z) (i : nat) : outcome Z :=
  match view1 !! i, view2 !! i with
  | Some x, Some y => Value (Z.lxor x y)
  | _, _ => Throws TypeError
  end.

(** The same on [Uint8Array] views, where [undefined] coerces to 0. *)
Definition xor8_at (view1 view2 : list Z) (i : nat) : Z :=
  Z.lxor (default 0 (view1 !! i)) (default 0 (view2 !! i)).

(** The bigint [distance] at the end of [hammingDistance]. *)
Definition hammingBits (hash1 hash2 : buffer) : outcome Z :=
  view1 ← BigUint64Array hash1;
  view2 ← BigUint64Array hash2;
  distance ← for_each (seq 0 (length view1))
    (fun distance i => x ← xor_at view1 view2 i; Value (distance + popcount64 x)) 0;
  let remainingBytes := byteLength hash1 mod 8 in
  if decide (remainingBytes > 0) then
    let uint8View1 := Uint8Array hash1 in
    let uint8View2 := Uint8Array hash2 in
    let startIndex := byteLength hash1 - remainingBytes in
    for_each (seq (Z.to_nat startIndex) (Z.to_nat remainingBytes))
      (fun distance i => Value (distance + popcount8 (xor8_at uint8View1 uint8View2 i)))
      distance
  else Value distance.

(** [hammingDistance]: [Number(distance)], carried as the exact integer; the
    double that the code returns is this integer rounded once it exceeds
    [2^53]. *)
Definition hammingDistance (hash1 hash2 : buffer) : outcome number :=
  distance ← hammingBits hash1 hash2; Value (Num.of_Z distance).

(** ** The data model *)

Record FrameInfo := { hash : buffer; timestamp : Q }.

Record MediaInfo := { duration : Q; frames : list FrameInfo }.

Record SimilarityConfig := {
  imageSimilarityThreshold : number;
  imageVideoSimilarityThreshold : number;
  videoSimilarityThreshold : number;
  stepSize : number
}.

(** [media.duration === 0]. *)
Definition isImage (m : MediaInfo) : bool := Qeq_bool (duration m) 0.

(** ** The similarity kernel *)

Section Kernel.
Context (similarityConfig : SimilarityConfig).

(** A frame read out of an array by index may be [undefined] ([None]);
    reading its [hash] then throws a TypeError. *)
Definition calculateImageSimilarity (frame1 frame2 : option FrameInfo)
  : outcome number :=
  match frame1, frame2 with
  | Some f1, Some f2 =>
      distance ← hammingDistance (hash f1) (hash f2);
      let maxDistance := Num.of_Z (byteLength (hash f1) * 8) in
      Value (Num.sub (Num.of_Z 1) (Num.div distance maxDistance))
  | _, _ => Throws TypeError
  end.

(** The loop of [calculateImageVideoSimilarity] over the video frames, with
    its early return. *)
Fixpoint imageVideoLoop (imageFrame : option FrameInfo)
  (videoFrames : list FrameInfo) (bestSimilarity : number) : outcome number :=
  match videoFrames with
  | [] => Value bestSimilarity
  | videoFrame :: rest =>
      similarity ← calculateImageSimilarity imageFrame (Some videoFrame);
      if Num.gt similarity bestSimilarity then
        if Num.ge similarity (imageVideoSimilarityThreshold similarityConfig)
        then Value similarity
        else imageVideoLoop imageFrame rest similarity
      else imageVideoLoop imageFrame rest bestSimilarity
  end.

Definition calculateImageVideoSimilarity (image video : MediaInfo)
  : outcome number :=
  if bool_decide (length (frames image) = 0%nat) ||
     bool_decide (length (frames video) = 0%nat)
  then Value (Num.of_Z 0)
  else imageVideoLoop (frames image !! 0%nat) (frames video) (Num.of_Z 0).

Definition getFramesInTimeRange (media : MediaInfo) (startTime endTime : number)
  : list FrameInfo :=
  List.filter
    (fun frame => Num.ge (Fin (timestamp frame)) startTime &&
                  Num.le (Fin (timestamp frame)) endTime)
    (frames media).

(** An array cell read for arithmetic: [undefined] behaves as NaN. *)
Definition cell (dtw : list number) (j : nat) : number := default NaN (dtw !! j).

(** The inner [for j] loop of the DTW: the state is the row and [prev]. *)
Definition dtwInner (seq1 seq2 : list FrameInfo) (i : nat)
  (st : list number * number) (j : nat) : outcome (list number * number) :=
  let '(dtw, prev) := st in
  let temp := cell dtw j in
  similarity ← calculateImageSimilarity (seq1 !! (i - 1)%nat) (seq2 !! (j - 1)%nat);
  let cost := Num.sub (Num.of_Z 1) similarity in
  let dtw := <[j := Num.add cost (Num.min3 prev (cell dtw j) (cell dtw (j - 1)))]> dtw in
  Value (dtw, temp).

(** The outer [for i] loop body. *)
Definition dtwOuter (seq1 seq2 : list FrameInfo) (dtw : list number) (i : nat)
  : outcome (list number) :=
  let n := length seq2 in
  let prev := cell dtw 0 in
  let dtw := <[0%nat := PInf]> dtw in
  st ← for_each (seq 1 n) (dtwInner seq1 seq2 i) (dtw, prev);
  Value (fst st).

(** The row after the two loops. *)
Definition dtwRow (seq1 seq2 : list FrameInfo) : outcome (list number) :=
  let m := length seq1 in
  let n := length seq2 in
  let dtw := <[0%nat := Num.of_Z 0]> (replicate (n + 1) PInf) in
  for_each (seq 1 m) (dtwOuter seq1 seq2) dtw.

Definition calculateSequenceSimilarityDTW (seq1 seq2 : list FrameInfo)
  : outcome number :=
  let m := length seq1 in
  let n := length seq2 in
  dtw ← dtwRow seq1 seq2;
  Value (Num.sub (Num.of_Z 1)
           (Num.div (cell dtw n) (Num.max (Num.of_nat m) (Num.of_nat n)))).

(** The [for (startTime ...)] loop of [calculateVideoSimilarity]; one unit of
    fuel per iteration. *)
Fixpoint videoLoop (fuel : nat) (shorterMedia longerMedia : MediaInfo)
  (startTime bestSimilarity : number) : outcome number :=
  match fuel with
  | O => OutOfFuel
  | S fuel' =>
      let windowDuration := duration shorterMedia in
      if Num.le startTime (Fin (duration longerMedia - windowDuration)) then
        let endTime := Num.add startTime (Fin windowDuration) in
        let longerSubseq := getFramesInTimeRange longerMedia startTime endTime in
        let shorterSubseq := frames shorterMedia in
        windowSimilarity ← calculateSequenceSimilarityDTW longerSubseq shorterSubseq;
        let bestSimilarity := Num.max bestSimilarity windowSimilarity in
        if Num.ge bestSimilarity (videoSimilarityThreshold similarityConfig)
        then Value bestSimilarity
        else videoLoop fuel' shorterMedia longerMedia
               (Num.add startTime (stepSize similarityConfig)) bestSimilarity
      else Value bestSimilarity
  end.

Definition calculateVideoSimilarity (fuel : nat) (media1 media2 : MediaInfo)
  : outcome number :=
  let '(shorterMedia, longerMedia) :=
    if Qle_bool (duration media1) (duration media2)
    then (media1, media2) else (media2, media1) in
  videoLoop fuel shorterMedia longerMedia (Num.of_Z 0) (Num.of_Z 0).

Definition calculateSimilarity (fuel : nat) (media1 media2 : MediaInfo)
  : outcome number :=
  let isImage1 := isImage media1 in
  let isImage2 := isImage media2 in
  if isImage1 && isImage2 then
    calculateImageSimilarity (frames media1 !! 0%nat) (frames media2 !! 0%nat)
  else if isImage1 || isImage2 then
    calculateImageVideoSimilarity
      (if isImage1 then media1 else media2)
      (if isImage1 then media2 else media1)
  else calculateVideoSimilarity fuel media1 media2.

Definition getAdaptiveThreshold (media1 media2 : MediaInfo) : number :=
  let isImage1 := isImage media1 in
  let isImage2 := isImage media2 in
  if isImage1 && isImage2 then imageSimilarityThreshold similarityConfig
  else if isImage1 || isImage2 then imageVideoSimilarityThreshold similarityConfig
  else videoSimilarityThreshold similarityConfig.

(** [this.minThreshold], computed by the constructor. *)
Definition minThreshold : number :=
  Num.min3 (imageSimilarityThreshold similarityConfig)
           (imageVideoSimilarityThreshold similarityConfig)
           (videoSimilarityThreshold similarityConfig).

End Kernel.

(** ** Files *)

Record Metadata := {
  width : option number;
  height : option number;
  imageDate : option Z;
  gpsLatitude : option number;
  gpsLongitude : option number;
  cameraModel : option string
}.

Record FileStats := { fileSize : number }.

Record FileInfo := {
  media : MediaInfo;
  metadata : Metadata;
  fileStats : FileStats
}.

(** An optional numeric field used in arithmetic: [undefined] gives NaN. *)
Definition numeric (o : option number) : number := default NaN o.

(** Truthiness of an optional number (absent, zero and NaN are falsy), of an
    optional string (absent and empty are falsy) and of an optional object. *)
Definition truthy_number (o : option number) : bool :=
  match o with
  | Some (Fin q) => negb (Qeq_bool q 0)
  | Some NaN | None => false
  | Some _ => true
  end.
Definition truthy_string (o : option string) : bool :=
  match o with
  | Some s => negb (bool_decide (s = EmptyString))
  | None => false
  end.
Definition truthy_object {A} (o : option A) : bool :=
  match o with Some _ => true | None => false end.

(** ** JavaScript sets of paths, arrays and sorting *)

(** A [Set<string>]: its elements in insertion order, without repetition. *)
Abbreviation StrSet := (list string).

Definition set_has (s : StrSet) (x : string) : bool := bool_decide (x ∈ s).
Definition set_add (x : string) (s : StrSet) : StrSet :=
  if set_has s x then s else s ++ [x].
(** [new Set(iterable)]. *)
Definition set_from (l : list string) : StrSet :=
  foldl (fun s x => set_add x s) [] l.

(** [array.pop()]: the last element and the array without it. *)
Definition pop {A} (l : list A) : option (A * list A) :=
  match reverse l with
  | [] => None
  | x :: r => Some (x, reverse r)
  end.

(** [array.slice(i, j)] for indices within [0, ∞). *)
Definition slice {A} (l : list A) (i j : nat) : list A := take (j - i) (drop i l).

(** [array.indexOf(x)] on an array of object references. *)
Fixpoint indexOf (l : list nat) (x : nat) : Z :=
  match l with
  | [] => -1
  | y :: l' =>
      if decide (y = x) then 0
      else let r := indexOf l' x in if decide (r = -1) then -1 else r + 1
  end.

(** [array.splice(start, 1)]: a negative [start] counts from the end. *)
Definition splice1 {A} (l : list A) (start : Z) : list A :=
  let len := Z.of_nat (length l) in
  let start := if decide (start < 0) then Z.max (len + start) 0 else Z.min start len in
  delete (Z.to_nat start) l.

(** [array.sort(cmp)]: a stable sort; a comparator result that is not
    positive (NaN included) leaves the earlier element first.  For a
    comparator that is a consistent ordering, this is the order every
    conforming engine produces. *)
Fixpoint sort_insert {A} (cmp : A -> A -> number) (x : A) (l : list A) : list A :=
  match l with
  | [] => [x]
  | y :: l' =>
      if Num.gt (cmp x y) (Num.of_Z 0) then y :: sort_insert cmp x l' else x :: l
  end.
Definition array_sort {A} (cmp : A -> A -> number) (l : list A) : list A :=
  foldr (sort_insert cmp) [] l.

(** [Promise.all] over a list of computations, in order. *)
Fixpoint all_of {A B} (f : A -> outcome B) (l : list A) : outcome (list B) :=
  match l with
  | [] => Value []
  | x :: l' => y ← f x; ys ← all_of f l'; Value (y :: ys)
  end.

(** ** The vantage-point tree, seen from its clients *)

Record Neighbor := { point : string; distance : number }.

(** [VPTree.ts] is outside this development.  A tree is represented by its
    range query: [vpTree p eps] is the array returned by
    [vpTree.search(p, { maxDistance: eps, sort: false })]. *)
Definition VPTree := string -> number -> list Neighbor.

(** ** DBSCAN over one chunk *)

Section Worker.
Context (similarityConfig : SimilarityConfig).
(** [this.mediaProcessor.processFile], a lookup in the fingerprint cache. *)
Context (processFile : string -> FileInfo).

Definition minPts : nat := 2.

Definition eps : number := Num.sub (Num.of_Z 1) (minThreshold similarityConfig).

(** The predicate handed to [filterAsync] in [getValidNeighbors]. *)
Definition neighborIsValid (point0 : string) (neighbor : Neighbor) : bool :=
  if decide (point neighbor = point0) then true
  else
    let similarity := Num.sub (Num.of_Z 1) (distance neighbor) in
    let media1 := media (processFile point0) in
    let media2 := media (processFile (point neighbor)) in
    let threshold := getAdaptiveThreshold similarityConfig media1 media2 in
    Num.ge similarity threshold.

Definition getValidNeighbors (point0 : string) (vpTree : VPTree) (eps0 : number)
  : list string :=
  let neighbors := vpTree point0 eps0 in
  point <$> List.filter (neighborIsValid point0) neighbors.

(** The [while (stack.length > 0)] loop; the state is the stack, [visited]
    and the cluster being grown.  One unit of fuel per iteration. *)
Fixpoint expandCluster (fuel : nat) (vpTree : VPTree)
  (stack : list string) (visited cluster : StrSet) : outcome (StrSet * StrSet) :=
  match fuel with
  | O => OutOfFuel
  | S fuel' =>
      match pop stack with
      | None => Value (visited, cluster)
      | Some (current, stack) =>
          if set_has visited current then
            expandCluster fuel' vpTree stack visited cluster
          else
            let visited := set_add current visited in
            let cluster := set_add current cluster in
            let currentNeighbors := getValidNeighbors current vpTree eps in
            let stack :=
              if bool_decide (minPts <= length currentNeighbors)%nat then
                stack ++ List.filter (fun neighbor => negb (set_has visited neighbor))
                           currentNeighbors
              else stack in
            expandCluster fuel' vpTree stack visited cluster
      end
  end.

(** The body of [for (const point of chunk)]; the state is [clusters] and
    [visited]. *)
Definition scanPoint (fuel : nat) (vpTree : VPTree)
  (st : list StrSet * StrSet) (point0 : string) : outcome (list StrSet * StrSet) :=
  let '(clusters, visited) := st in
  if set_has visited point0 then Value (clusters, visited)
  else
    let visited := set_add point0 visited in
    let neighbors := getValidNeighbors point0 vpTree eps in
    if bool_decide (length neighbors < minPts)%nat then
      Value (clusters ++ [set_from [point0]], visited)
    else
      let cluster := set_from [point0] in
      let stack := neighbors in
      '(visited, cluster) ← expandCluster fuel vpTree stack visited cluster;
      Value (clusters ++ [cluster], visited).

Definition workerDBSCAN (fuel : nat) (chunk : list string) (vpTree : VPTree)
  : outcome (list StrSet) :=
  st ← for_each chunk (scanPoint fuel vpTree) ([], []);
  Value (fst st).

End Worker.

(** ** Merging the clusters of all batches *)

(** Clusters are [Set] objects compared by identity, so the merge is run over
    a heap of set objects: an object is its index in [heap], [merged] and
    the values of [elementToClusterMap] hold references.  An object is never
    changed once it is referenced. *)
Record MergeState := {
  heap : list StrSet;
  merged : list nat;
  elementToClusterMap : gmap string nat
}.

Definition deref (h : list StrSet) (ref : nat) : StrSet := default [] (h !! ref).

(** [relatedClusters], a [Set] of references in insertion order. *)
Definition ref_add (r : nat) (s : list nat) : list nat :=
  if bool_decide (r ∈ s) then s else s ++ [r].

Definition relatedClustersOf (m : gmap string nat) (cluster : StrSet) : list nat :=
  foldl (fun related element =>
           match m !! element with
           | Some existingCluster => ref_add existingCluster related
           | None => related
           end) [] cluster.

Definition setAll (m : gmap string nat) (cluster : StrSet) (ref : nat)
  : gmap string nat :=
  foldl (fun m element => <[element := ref]> m) m cluster.

(** The body of [for (const cluster of clusters)], for the cluster object
    [ref]. *)
Definition mergeStep (st : MergeState) (ref : nat) : MergeState :=
  let cluster := deref (heap st) ref in
  let relatedClusters := relatedClustersOf (elementToClusterMap st) cluster in
  if bool_decide (length relatedClusters = 0%nat) then
    {| heap := heap st;
       merged := merged st ++ [ref];
       elementToClusterMap := setAll (elementToClusterMap st) cluster ref |}
  else
    let '(mergedCluster, merged0) :=
      foldl (fun '(mergedCluster, merged0) relatedCluster =>
               (foldl (fun s element => set_add element s) mergedCluster
                  (deref (heap st) relatedCluster),
                splice1 merged0 (indexOf merged0 relatedCluster)))
            (set_from cluster, merged st) relatedClusters in
    let new_ref := length (heap st) in
    {| heap := heap st ++ [mergedCluster];
       merged := merged0 ++ [new_ref];
       elementToClusterMap := setAll (elementToClusterMap st) mergedCluster new_ref |}.

Definition mergeAndDeduplicate (clusters : list StrSet) : list StrSet :=
  let st := foldl mergeStep
              {| heap := clusters; merged := []; elementToClusterMap := ∅ |}
              (seq 0 (length clusters)) in
  deref (heap st) <$> merged st.

(** ** Representative selection and the deduplication pipeline *)

Record DuplicateSet := {
  bestFile : option string;
  representatives : StrSet;
  duplicates : StrSet
}.

Record DeduplicationResult := {
  uniqueFiles : StrSet;
  duplicateSets : list DuplicateSet
}.

Section Dedup.
Context (similarityConfig : SimilarityConfig).
Context (processFile : string -> FileInfo).
(** The [selector] argument of [deduplicateFiles]. *)
Context (selector : string -> FileInfo).
(** [VPTree.build(files, metric)] followed by the hand-over of its root to
    the workers: the tree a worker searches when the index was built over
    [files]. *)
Context (VPTree_build : list string -> VPTree).
(** [Math.log] and [Math.sqrt]. *)
Context (Math_log Math_sqrt : number -> number).

Definition batchSize : nat := 2048.

Definition getQuality (fileInfo : FileInfo) : number :=
  Num.mul (numeric (width (metadata fileInfo))) (numeric (height (metadata fileInfo))).

Definition calculateEntryScore (fileInfo : FileInfo) : number :=
  let score := Num.of_Z 0 in
  let score :=
    if Qlt_le_dec 0 (duration (media fileInfo))
    then Num.add score (Num.of_Z 10000) else score in
  let score :=
    Num.add score
      (Num.mul (Math_log (Fin (duration (media fileInfo) + 1))) (Num.of_Z 100)) in
  let score :=
    if truthy_object (imageDate (metadata fileInfo))
    then Num.add score (Num.of_Z 2000) else score in
  let score :=
    if truthy_number (gpsLatitude (metadata fileInfo)) &&
       truthy_number (gpsLongitude (metadata fileInfo))
    then Num.add score (Num.of_Z 300) else score in
  let score :=
    if truthy_string (cameraModel (metadata fileInfo))
    then Num.add score (Num.of_Z 200) else score in
  let score :=
    if truthy_number (width (metadata fileInfo)) &&
       truthy_number (height (metadata fileInfo))
    then Num.add score (Math_sqrt (getQuality fileInfo)) else score in
  Num.add score (Num.mul (Math_log (fileSize (fileStats fileInfo))) (Num.of_Z 5)).

Definition scoreEntries (entries : list string) : list string :=
  fst <$>
    array_sort (fun a b => Num.sub (snd b) (snd a))
      ((fun entry => (entry, calculateEntryScore (selector entry))) <$> entries).

(** The predicate of [potentialCaptures]. *)
Definition isPotentialCapture (bestFileInfo : FileInfo) (entry : string) : bool :=
  let fileInfo := selector entry in
  isImage (media fileInfo) &&
  Num.ge (getQuality fileInfo) (getQuality bestFileInfo) &&
  (negb (truthy_object (imageDate (metadata bestFileInfo))) ||
   truthy_object (imageDate (metadata fileInfo))).

(** The functions below reach [deduplicateFiles] again; [self] is that
    recursive call. *)
Section Open.
Context (self : list string -> outcome DeduplicationResult).

Definition handleMultiFrameBest (sortedEntries : list string)
  : outcome (list string) :=
  match sortedEntries with
  | [] => Throws TypeError
  | bestEntry :: _ =>
      let bestFileInfo := selector bestEntry in
      let representatives := [bestEntry] in
      let potentialCaptures :=
        List.filter (isPotentialCapture bestFileInfo) sortedEntries in
      if bool_decide (0 < length potentialCaptures)%nat then
        r ← self potentialCaptures;
        Value (representatives ++ uniqueFiles r)
      else Value representatives
  end.

Definition selectRepresentatives (cluster : list string) : outcome (list string) :=
  if bool_decide (length cluster <= 1)%nat then Value cluster
  else
    let sortedEntries := scoreEntries cluster in
    match sortedEntries with
    | [] => Throws TypeError
    | bestEntry :: _ =>
        let bestFileInfo := selector bestEntry in
        if isImage (media bestFileInfo) then Value [bestEntry]
        else handleMultiFrameBest sortedEntries
    end.

(** The body of [for (const cluster of clusters)] in [processResults]. *)
Definition processCluster (res : DeduplicationResult) (cluster : StrSet)
  : outcome DeduplicationResult :=
  if bool_decide (length cluster = 1%nat) then
    match cluster with
    | first :: _ =>
        Value {| uniqueFiles := set_add first (uniqueFiles res);
                 duplicateSets := duplicateSets res |}
    | [] => Value res
    end
  else
    let clusterArray := cluster in
    representatives0 ← selectRepresentatives clusterArray;
    let representativeSet := set_from representatives0 in
    let duplicateSet :=
      set_from (List.filter (fun f => negb (set_has representativeSet f)) clusterArray) in
    Value {| uniqueFiles := uniqueFiles res;
             duplicateSets := duplicateSets res ++
               [{| bestFile := representatives0 !! 0%nat;
                   representatives := representativeSet;
                   duplicates := duplicateSet |}] |}.

Definition processResults (clusters : list StrSet) : outcome DeduplicationResult :=
  for_each clusters processCluster {| uniqueFiles := []; duplicateSets := [] |}.

End Open.

(** The batches [files.slice(i, i + batchSize)] for [i = 0, batchSize, ...]
    below [files.length]. *)
Definition batches (files : list string) : list (list string) :=
  (fun k => slice files (k * batchSize) (k * batchSize + batchSize)) <$>
    seq 0 (Nat.div (length files + batchSize - 1) batchSize).

(** Each batch is handed to a worker of the pool, which runs [workerDBSCAN]
    on it over the shared tree. *)
Definition parallelDBSCAN (fuel : nat) (files : list string) (vpTree : VPTree)
  : outcome (list StrSet) :=
  results ← all_of (fun batch => workerDBSCAN similarityConfig processFile fuel batch vpTree)
                   (batches files);
  Value (mergeAndDeduplicate (concat results)).

(** One unit of fuel per nested call of [deduplicateFiles]; the same budget
    bounds every [while] loop underneath. *)
Fixpoint deduplicateFiles (fuel : nat) (files : list string)
  : outcome DeduplicationResult :=
  match fuel with
  | O => OutOfFuel
  | S fuel' =>
      let vpTree := VPTree_build files in
      clusters ← parallelDBSCAN fuel' files vpTree;
      processResults (deduplicateFiles fuel') clusters
  end.

End Dedup.

(** ** The config-checked cache of [BaseFileInfoJob] *)

Section Cache.
Context {TConfig TResult : Type}.
(** [JSON.stringify] on configs, truthiness of results and the abstract
    [processFile] of the subclass. *)
Context (JSON_stringify : TConfig -> string).
Context (truthy : TResult -> bool).
Context (processFile : string -> TResult).

(** The two stores of the job, and the paths [processFile] was run on, most
    recent last. *)
Record JobState := {
  db : gmap string TResult;
  configDb : gmap string TConfig;
  computed : list string
}.

(** [JSON.stringify(undefined)] is [undefined]. *)
Definition isConfigValid (config : TConfig) (cachedConfig : option TConfig) : bool :=
  bool_decide (JSON_stringify <$> cachedConfig = Some (JSON_stringify config)).

Definition getHashKey (filePath : string) : string := filePath.

Definition recompute (config : TConfig) (filePath : string) (st : JobState)
  : TResult * JobState :=
  let cacheKey := getHashKey filePath in
  let result := processFile filePath in
  (result,
   {| db := <[cacheKey := result]> (db st);
      configDb := <[cacheKey := config]> (configDb st);
      computed := computed st ++ [filePath] |}).

(** [process], run under the lock of its key. *)
Definition process (config : TConfig) (filePath : string) (st : JobState)
  : TResult * JobState :=
  let cacheKey := getHashKey filePath in
  let cachedConfig := configDb st !! cacheKey in
  if isConfigValid config cachedConfig then
    match db st !! cacheKey with
    | Some cachedResult =>
        if truthy cachedResult then (cachedResult, st)
        else recompute config filePath st
    | None => recompute config filePath st
    end
  else recompute config filePath st.

End Cache.

(** ** The file hash of [FileStatsJob] *)

Module FileStatsJob.

(** What [stat] reports of a file. *)
Record Stats := { stat_size : number; birthtime : Z; mtime : Z }.

(** The [FileStats] the job returns. *)
Record FileStats := {
  hash : buffer;
  size : number;
  createdAt : Z;
  modifiedAt : Z
}.

Section Job.
(** [this.config.maxChunkSize]. *)
Context (maxChunkSize : number).
(** [stat(filePath)]. *)
Context (stat : string -> outcome Stats).
(** The bytes that [createReadStream(filePath, { start, end })] delivers
    before it ends; [end] may be [undefined]. *)
Context (createReadStream : string -> number -> option number -> outcome (list byte)).
(** The MD5 digest of the bytes fed to [hash.update], in order. *)
Context (md5 : list byte -> buffer).

(** [hashFilePart]; the state of the [Hash] object is the bytes fed to it so
    far.  An absent [start] is 0; a [size] that is absent or 0 leaves [end]
    undefined. *)
Definition hashFilePart (filePath : string) (fed : list byte) (start : number)
  (size0 : option number) : outcome (list byte) :=
  let end_ :=
    if truthy_number size0
    then Some (Num.sub (Num.add start (numeric size0)) (Num.of_Z 1))
    else None in
  chunks ← createReadStream filePath start end_;
  Value (fed ++ chunks).

Definition hashFile (filePath : string) (fileSize : number) : outcome buffer :=
  fed ← (if Num.gt fileSize maxChunkSize then
           let chunkSize := Num.div maxChunkSize (Num.of_Z 2) in
           fed ← hashFilePart filePath [] (Num.of_Z 0) (Some chunkSize);
           hashFilePart filePath fed (Num.sub fileSize chunkSize) (Some chunkSize)
         else hashFilePart filePath [] (Num.of_Z 0) None);
  Value (md5 fed).

Definition processFile (filePath : string) : outcome FileStats :=
  stats ← stat filePath;
  hash0 ← hashFile filePath (stat_size stats);
  Value {| hash := hash0;
           size := stat_size stats;
           createdAt := birthtime stats;
           modifiedAt := mtime stats |}.

End Job.
End FileStatsJob.

(** ** The single-file script: band index, string distance, best file *)

(** The script that holds the whole organizer in one file.  Its hashes are
    strings of one-byte characters; a string is the sequence of its
    characters. *)
Module Legacy.

(** What a call gives: a value, or the [Error] it throws. *)
Inductive thrown (A : Type) : Type :=
  | Returned (a : A)
  | Error (message : string).
Arguments Returned {A} a.
Arguments Error {A} message.

(** [ToIntegerOrInfinity] of a finite number: truncation towards zero. *)
Definition truncate (q : Q) : Z := Z.quot (Qnum q) (Z.pos (Qden q)).

(** The position that [String.prototype.slice] makes of an argument, in a
    string of [len] characters. *)
Definition sliceIndex (len : nat) (n : number) : nat :=
  match n with
  | NaN | NInf => 0%nat
  | PInf => len
  | Fin q =>
      let k := truncate q in
      if k <? 0 then Z.to_nat (Z.max (Z.of_nat len + k) 0)
      else Z.to_nat (Z.min k (Z.of_nat len))
  end.

(** [s.slice(start, end)]. *)
Definition string_slice (s : string) (start end_ : number) : string :=
  let from := sliceIndex (String.length s) start in
  let to := sliceIndex (String.length s) end_ in
  String.substring from (to - from) s.

(** *** The locality-sensitive index [LSH] *)

(** [bands] is an array of [Map<string, Set<string>>]. *)
Record LSH := {
  bands : list (gmap string StrSet);
  bandSize : number;
  numBands : number
}.

(** [ToLength]. *)
Definition toLength (n : number) : Z :=
  match n with
  | Fin q => Z.min (Z.max 0 (truncate q)) (2 ^ 53 - 1)
  | PInf => 2 ^ 53 - 1
  | NInf | NaN => 0
  end.

(** [new LSH(hashSize, numBands)]; [Array.from({ length })] makes an array
    of [ToLength(length)] entries and throws a [RangeError] beyond the
    largest array length. *)
Definition constructor (hashSize numBands0 : number) : outcome LSH :=
  let len := toLength numBands0 in
  if 2 ^ 32 - 1 <? len then Throws RangeError
  else Value {| bands := replicate (Z.to_nat len) ∅;
                bandSize := Num.div hashSize numBands0;
                numBands := numBands0 |}.

(** [for (let i = 0; i < this.numBands; i++)], from index [i] on. *)
Fixpoint forBands {St : Type} (fuel : nat) (numBands0 : number) (i : nat)
  (body : St -> nat -> outcome St) (s : St) : outcome St :=
  match fuel with
  | O => OutOfFuel
  | S fuel' =>
      if Num.lt (Num.of_nat i) numBands0
      then s' ← body s i; forBands fuel' numBands0 (S i) body s'
      else Value s
  end.

(** [hash.slice(i * this.bandSize, (i + 1) * this.bandSize)]. *)
Definition bandHash (bandSize0 : number) (hash : string) (i : nat) : string :=
  string_slice hash
    (Num.mul (Num.of_nat i) bandSize0)
    (Num.mul (Num.add (Num.of_nat i) (Num.of_Z 1)) bandSize0).

(** [set.delete(x)]. *)
Definition set_delete (x : string) (s : StrSet) : StrSet :=
  filter (fun y => y <> x) s.

(** One round of the loop of [add]; [this.bands[i]] is [undefined] beyond
    the array, and calling [has] on it throws. *)
Definition addBand (bandSize0 : number) (hash identifier : string)
  (bands0 : list (gmap string StrSet)) (i : nat)
  : outcome (list (gmap string StrSet)) :=
  let bandHash0 := bandHash bandSize0 hash i in
  match bands0 !! i with
  | None => Throws TypeError
  | Some band =>
      let band1 :=
        if bool_decide (is_Some (band !! bandHash0)) then band
        else <[bandHash0 := []]> band in
      match band1 !! bandHash0 with
      | None => Throws TypeError
      | Some candidates =>
          Value (<[i := <[bandHash0 := set_add identifier candidates]> band1]> bands0)
      end
  end.

Definition add (fuel : nat) (lsh : LSH) (hash identifier : string) : outcome LSH :=
  bands1 ← forBands fuel (numBands lsh) 0
              (addBand (bandSize lsh) hash identifier) (bands lsh);
  Value {| bands := bands1; bandSize := bandSize lsh; numBands := numBands lsh |}.

(** One round of the loop of [remove]. *)
Definition removeBand (bandSize0 : number) (hash identifier : string)
  (bands0 : list (gmap string StrSet)) (i : nat)
  : outcome (list (gmap string StrSet)) :=
  let bandHash0 := bandHash bandSize0 hash i in
  match bands0 !! i with
  | None => Throws TypeError
  | Some band =>
      match band !! bandHash0 with
      | Some bandCandidates =>
          let bandCandidates1 := set_delete identifier bandCandidates in
          let band1 := <[bandHash0 := bandCandidates1]> band in
          Value (<[i := if (length bandCandidates1 =? 0)%nat
                        then delete bandHash0 band1 else band1]> bands0)
      | None => Value bands0
      end
  end.

Definition remove (fuel : nat) (lsh : LSH) (hash identifier : string) : outcome LSH :=
  bands1 ← forBands fuel (numBands lsh) 0
              (removeBand (bandSize lsh) hash identifier) (bands lsh);
  Value {| bands := bands1; bandSize := bandSize lsh; numBands := numBands lsh |}.

(** One round of the loop of [getCandidates]. *)
Definition candidatesOfBand (lsh : LSH) (hash : string)
  (candidates : StrSet) (i : nat) : outcome StrSet :=
  let bandHash0 := bandHash (bandSize lsh) hash i in
  match bands lsh !! i with
  | None => Throws TypeError
  | Some band =>
      match band !! bandHash0 with
      | Some bandCandidates =>
          Value (foldl (fun candidates0 candidate => set_add candidate candidates0)
                   candidates bandCandidates)
      | None => Value candidates
      end
  end.

Definition getCandidates (fuel : nat) (lsh : LSH) (hash : string) : outcome StrSet :=
  forBands fuel (numBands lsh) 0 (candidatesOfBand lsh hash) [].

(** *** The distance of two hash strings *)

(** [str1.split('').reduce((count, char, i) => ...)] from index [i] on;
    [str2[i]] is [undefined] beyond the end of [str2]. *)
Fixpoint countDifferent (chars : list Ascii.ascii) (str2 : string) (i : nat) (count : Z) : Z :=
  match chars with
  | [] => count
  | char :: rest =>
      countDifferent rest str2 (S i)
        (count + (if bool_decide (Some char <> String.get i str2) then 1 else 0))
  end.

Definition hammingDistance (str1 str2 : string) (threshold : number) : thrown bool :=
  if bool_decide (String.length str1 <> String.length str2)
  then Error "Strings must be of equal length"
  else
    let distance := countDifferent (String.list_ascii_of_string str1) str2 0 0 in
    Returned (Num.le (Num.of_Z distance) threshold).

(** *** The best of several copies *)

Record FileInfo := {
  path : string;
  size : number;
  hash : string;
  perceptualHash : option string;
  imageDate : Z;
  hasGeolocation : bool;
  metadataCount : number;
  quality : option number
}.

(** The callback of the [reduce] of [selectBestFile]. *)
Definition better (best current : FileInfo) : FileInfo :=
  if hasGeolocation current && negb (hasGeolocation best) then current
  else if hasGeolocation best && negb (hasGeolocation current) then best
  else if Num.gt (metadataCount current) (metadataCount best) then current
  else if Num.gt (metadataCount best) (metadataCount current) then best
  else if truthy_number (quality current) && truthy_number (quality best)
          && Num.gt (numeric (quality current)) (numeric (quality best)) then current
  else if truthy_number (quality current) && truthy_number (quality best)
          && Num.gt (numeric (quality best)) (numeric (quality current)) then best
  else if Num.gt (size current) (size best) then current else best.

(** [files.reduce(...)] without an initial value: a [TypeError] on an empty
    array, otherwise the first file is the first [best]. *)
Definition selectBestFile (files : list FileInfo) : outcome FileInfo :=
  match files with
  | [] => Throws TypeError
  | first :: rest => Value (foldl better first rest)
  end.

End Legacy.

(** ** Notions used in the statements and proofs *)

(** A value that is not NaN, not minus infinity and not negative. *)
Definition nonneg (v : number) : Prop :=
  match v with Fin q => (0 <= q)%Q | PInf => True | _ => False end.

(** The cost of aligning frame [i] of [seq1] with frame [j] of [seq2], as
    the DTW computes it. *)
Definition frameCost (seq1 seq2 : list FrameInfo) (i j : nat) : number :=
  match calculateImageSimilarity (seq1 !! i) (seq2 !! j) with
  | Value similarity => Num.sub (Num.of_Z 1) similarity
  | _ => NaN
  end.

(** The full DTW table for a cost [c]: [dtwTable c i j] is the least cost of
    a warping path between the first [i] frames of one sequence and the first
    [j] of the other. *)
Fixpoint dtwTable (c : nat -> nat -> number) (i j : nat) : number :=
  match i with
  | O => match j with O => Num.of_Z 0 | S _ => PInf end
  | S i' =>
      (fix row (j : nat) : number :=
         match j with
         | O => PInf
         | S j' =>
             Num.add (c i' j')
               (Num.min3 (dtwTable c i' j') (dtwTable c i' (S j')) (row j'))
         end) j
  end.
Arguments dtwTable : simpl never.

(** Row [i] of the table, and the rolling row after [k] cells of row [S i]
    have been written over row [i]. *)
Definition tableRow (c : nat -> nat -> number) (n i : nat) : list number :=
  dtwTable c i <$> seq 0 (S n).
Definition mixedRow (c : nat -> nat -> number) (n i k : nat) : list number :=
  (fun j => if decide (j <= k)%nat then dtwTable c (S i) j else dtwTable c i j)
    <$> seq 0 (S n).

(** Every frame of the media carries a hash of [8 * k] bytes. *)
Definition hashesOf (k : nat) (m : MediaInfo) : Prop :=
  Forall (fun f => length (hash f) = (8 * k)%nat) (frames m).

(** Every frame of the media is stamped within its duration. *)
Definition inWindow (m : MediaInfo) : Prop :=
  Forall (fun f => (0 <= timestamp f /\ timestamp f <= duration m)%Q) (frames m).

(** A finite value of the unit interval; a value that is at most one or
    minus infinity. *)
Definition unitRange (v : number) : Prop :=
  match v with Fin q => (0 <= q /\ q <= 1)%Q | _ => False end.
Definition atMostOne (v : number) : Prop :=
  match v with Fin q => (q <= 1)%Q | NInf => True | _ => False end.

(** The similarity read off a DTW cost [d] for sequences whose longer one
    has [len] frames. *)
Definition dtwScore (d : number) (len : nat) : number :=
  Num.sub (Num.of_Z 1) (Num.div d (Num.of_nat len)).

(** Enough fuel for [calculateSimilarity] on two media when the step is [s]:
    one iteration per window, and one more to leave the loop. *)
Definition videoFuel (s : Q) (m1 m2 : MediaInfo) : nat :=
  S (S (Z.to_nat (Qfloor (Qabs (duration m1 - duration m2) / s)))).

(** The points a tree can return all belong to [universe]. *)
Definition treeWithin (vpTree : VPTree) (universe : list string) : Prop :=
  forall p eps0 nb, nb ∈ vpTree p eps0 -> point nb ∈ universe.

(** No path occurs in two clusters of the list. *)
Definition pairwiseDisjoint (clusters : list StrSet) : Prop :=
  forall i j ci cj x,
    clusters !! i = Some ci -> clusters !! j = Some cj -> i <> j ->
    x ∈ ci -> x ∉ cj.

(** The work left for the expansion loop: for every point of the universe
    that is not yet visited, its visit and the pushes the visit can make. *)
Definition unvisitedWeight (neighborsOf : string -> list string)
  (universe : list string) (visited : StrSet) : nat :=
  sum_list ((fun u => if set_has visited u then 0%nat
                      else S (length (neighborsOf u))) <$> universe).

(** Enough fuel for [workerDBSCAN] over a tree whose points are [universe]. *)
Definition dbscanFuel (similarityConfig : SimilarityConfig)
  (processFile : string -> FileInfo) (vpTree : VPTree) (universe : list string)
  : nat :=
  let neighborsOf p := getValidNeighbors similarityConfig processFile p vpTree
                         (eps similarityConfig) in
  S (unvisitedWeight neighborsOf universe []).

(** The state of the scan between two points of the chunk: the clusters
    found so far hold exactly the visited paths, share no path, are sets
    with at least one element, and lie within the universe. *)
Definition scanInvariant (universe : list string) (st : list StrSet * StrSet)
  : Prop :=
  let '(clusters, visited) := st in
  (forall c x, c ∈ clusters -> x ∈ c -> x ∈ visited) /\
  (forall x, x ∈ visited -> exists c, c ∈ clusters /\ x ∈ c) /\
  pairwiseDisjoint clusters /\
  Forall (fun c => NoDup c /\ c <> []) clusters /\
  (forall c x, c ∈ clusters -> x ∈ c -> x ∈ universe).

(** The state of the merge after the first [k] clusters of [clusters]: the
    input clusters are the first objects of the heap; [merged] holds distinct
    references, none to an input cluster not yet seen; the map sends every
    element of a merged cluster to that cluster and nothing else anywhere;
    the merged clusters hold the elements of the clusters seen so far; and
    each is a set with at least one element. *)
Definition mergeInvariant (clusters : list StrSet) (k : nat) (st : MergeState)
  : Prop :=
  (exists extra, heap st = clusters ++ extra) /\
  NoDup (merged st) /\
  (forall r, r ∈ merged st ->
     (r < length (heap st))%nat /\ (r < k \/ length clusters <= r)%nat) /\
  (forall e r, elementToClusterMap st !! e = Some r ->
     r ∈ merged st /\ e ∈ deref (heap st) r) /\
  (forall r e, r ∈ merged st -> e ∈ deref (heap st) r ->
     elementToClusterMap st !! e = Some r) /\
  (forall e, (exists r, r ∈ merged st /\ e ∈ deref (heap st) r) <->
             (exists i c, (i < k)%nat /\ clusters !! i = Some c /\ e ∈ c)) /\
  (forall r, r ∈ merged st ->
     NoDup (deref (heap st) r) /\ deref (heap st) r <> []).

(** A duplicate set made from [cluster], with [score] the score of a path:
    the best file is a representative and no member of the cluster scores
    higher (when no score is NaN); representatives and duplicates are sets
    that share no path and together hold the cluster. *)
Definition duplicateSetOf (score : string -> number) (cluster : StrSet)
  (ds : DuplicateSet) : Prop :=
  (exists best, bestFile ds = Some best /\ best ∈ representatives ds /\
     ((forall e, e ∈ cluster -> score e <> NaN) ->
      forall x, x ∈ representatives ds \/ x ∈ duplicates ds ->
                Num.ge (score best) (score x) = true)) /\
  (forall x, x ∈ representatives ds -> x ∉ duplicates ds) /\
  (forall x, x ∈ cluster <-> x ∈ representatives ds \/ x ∈ duplicates ds) /\
  NoDup (representatives ds) /\ NoDup (duplicates ds).

(** The sets of a result hold every file of [files], and only those, in
    exactly one of them. *)
Definition partitionsFiles (r : DeduplicationResult) (files : list string)
  : Prop :=
  (forall f, f ∈ files <->
     f ∈ uniqueFiles r \/
     exists ds, ds ∈ duplicateSets r /\ (f ∈ representatives ds \/ f ∈ duplicates ds)) /\
  (forall f ds, f ∈ uniqueFiles r -> ds ∈ duplicateSets r ->
     (f ∉ representatives ds) /\ (f ∉ duplicates ds)) /\
  (forall i j dsi dsj f,
     duplicateSets r !! i = Some dsi -> duplicateSets r !! j = Some dsj -> i <> j ->
     f ∈ representatives dsi \/ f ∈ duplicates dsi ->
     (f ∉ representatives dsj) /\ (f ∉ duplicates dsj)) /\
  (forall ds f, ds ∈ duplicateSets r -> f ∈ representatives ds -> f ∉ duplicates ds) /\
  NoDup (uniqueFiles r) /\
  Forall (fun ds => NoDup (representatives ds) /\ NoDup (duplicates ds))
    (duplicateSets r).

(** What [self], the nested [deduplicateFiles], has to deliver on the
    potential captures of a cluster whose best entry is a video. *)
Definition delivers (selector : string -> FileInfo)
  (self : list string -> outcome DeduplicationResult) (cluster : list string)
  : Prop :=
  forall caps, NoDup caps -> caps <> [] ->
    (forall x, x ∈ caps -> x ∈ cluster /\ isImage (media (selector x)) = true) ->
    (exists v, v ∈ cluster /\ isImage (media (selector v)) = false) ->
    exists r, self caps = Value r /\ forall x, x ∈ uniqueFiles r -> x ∈ caps.

(** Every list of at most [n] elements of [alphabet]. *)
Fixpoint listsUpTo {A} (n : nat) (alphabet : list A) : list (list A) :=
  match n with
  | O => [[]]
  | S n' =>
      [] :: (rest ← listsUpTo n' alphabet; (fun x => x :: rest) <$> alphabet)
  end.

(** Enough fuel for [deduplicateFiles] on [files]: the DBSCAN of the files
    and of any selection of them, and the two nested calls. *)
Definition dedupFuel (similarityConfig : SimilarityConfig)
  (processFile : string -> FileInfo) (VPTree_build : list string -> VPTree)
  (files : list string) : nat :=
  2 + max_list ((fun caps => dbscanFuel similarityConfig processFile
                               (VPTree_build caps) caps)
                <$> listsUpTo (length files) files).

(** A file record as the suppliers produce it: a duration and a size that
    are not negative, and, where present, finite non-negative dimensions. *)
Definition plainDimension (o : option number) : Prop :=
  match o with
  | Some (Fin q) => (0 <= q)%Q
  | Some _ => False
  | None => True
  end.
Definition plainFile (fileInfo : FileInfo) : Prop :=
  (0 <= duration (media fileInfo))%Q /\
  (exists s, fileSize (fileStats fileInfo) = Fin s /\ (0 <= s)%Q) /\
  plainDimension (width (metadata fileInfo)) /\
  plainDimension (height (metadata fileInfo)).

(** The number of ones among the lowest [width] binary digits of [n]. *)
Fixpoint bitCount (width : nat) (n : Z) : Z :=
  match width with
  | O => 0
  | S w => n mod 2 + bitCount w (n / 2)
  end.

(** The number with the given base-256 digits, lowest first. *)
Fixpoint le_digits (bs : list Z) : Z :=
  match bs with
  | [] => 0
  | b :: r => b + 256 * le_digits r
  end.

Definition sumZ (l : list Z) : Z := foldr Z.add 0 l.

(** The number of bit positions in which two hashes differ, word by word. *)
Definition bitDistance (hash1 hash2 : buffer) : Z :=
  sumZ (zip_with (fun x y => bitCount 64 (Z.lxor x y)) (words hash1) (words hash2)).

(** Every cluster seen so far lies within one merged cluster. *)
Definition keptTogether (clusters : list StrSet) (k : nat) (st : MergeState) : Prop :=
  forall i c, (i < k)%nat -> clusters !! i = Some c ->
    exists r, r ∈ merged st /\ forall e, e ∈ c -> e ∈ deref (heap st) r.

(** A cluster grown from [seed]: it holds the seed; unless it is the seed
    alone, the seed has at least [minPts] validated neighbours; and every
    other member is a validated neighbour of a member that has at least
    [minPts] of them. *)
Definition densityConnected (neighborsOf : string -> list string)
  (cluster : StrSet) (seed : string) : Prop :=
  seed ∈ cluster /\
  (cluster = [seed] \/ (minPts <= length (neighborsOf seed))%nat) /\
  forall x, x ∈ cluster ->
    x = seed \/
    exists q, q ∈ cluster /\ (minPts <= length (neighborsOf q))%nat /\ x ∈ neighborsOf q.

(** The file at [path] holds [content]: [stat] reports its length, and a
    read stream delivers its bytes from offset [start] up to and including
    offset [end], or up to the end of the file when [end] is undefined. *)
Definition holdsFile (stat : string -> outcome FileStatsJob.Stats)
  (createReadStream : string -> number -> option number -> outcome (list byte))
  (path : string) (content : list byte) : Prop :=
  (exists stats, stat path = Value stats /\
     FileStatsJob.stat_size stats = Num.of_nat (length content)) /\
  (forall (s : Q) (start : nat),
     (s == inject_Z (Z.of_nat start))%Q ->
     createReadStream path (Fin s) None = Value (drop start content)) /\
  (forall (s e : Q) (start end_ : nat),
     (s == inject_Z (Z.of_nat start))%Q -> (e == inject_Z (Z.of_nat end_))%Q ->
     (start <= end_)%nat ->
     createReadStream path (Fin s) (Some (Fin e))
     = Value (take (S end_ - start) (drop start content))).

(** The number of positions at which two sequences of characters differ. *)
Fixpoint differences (l1 l2 : list Ascii.ascii) : Z :=
  match l1, l2 with
  | x :: r1, y :: r2 => (if bool_decide (x = y) then 0 else 1) + differences r1 r2
  | _, _ => 0
  end.

(** An index of [n] bands of [b] characters each, as [new LSH(n * b, n)]
    makes it: one map per band, and no key with an empty set. *)
Definition wellFormed (n b : nat) (lsh : Legacy.LSH) : Prop :=
  Legacy.numBands lsh = Num.of_nat n /\
  Num.equiv (Legacy.bandSize lsh) (Num.of_nat b) /\
  length (Legacy.bands lsh) = n /\
  forall i band key ids,
    Legacy.bands lsh !! i = Some band -> band !! key = Some ids -> ids <> [].

(** [x] is stored in band [i] under the slice of [hash] for that band. *)
Definition stored (lsh : Legacy.LSH) (hash : string) (i : nat) (x : string) : Prop :=
  exists band ids,
    Legacy.bands lsh !! i = Some band /\
    band !! Legacy.bandHash (Legacy.bandSize lsh) hash i = Some ids /\
    x ∈ ids.

(** What [add] and [remove] do to the map of one band. *)
Definition addedTo (key identifier : string) (band : gmap string StrSet)
  : gmap string StrSet :=
  <[key := set_add identifier (default [] (band !! key))]> band.
Definition removedFrom (key identifier : string) (band : gmap string StrSet)
  : gmap string StrSet :=
  match band !! key with
  | Some ids =>
      if (length (Legacy.set_delete identifier ids) =? 0)%nat then delete key band
      else <[key := Legacy.set_delete identifier ids]> band
  | None => band
  end.

(** [best] is not beaten by [f] on geolocation, then on metadata count. *)
Definition notBeatenBy (best f : Legacy.FileInfo) : Prop :=
  (Legacy.hasGeolocation f = true -> Legacy.hasGeolocation best = true) /\
  (Legacy.hasGeolocation f = Legacy.hasGeolocation best ->
   Num.le (Legacy.metadataCount f) (Legacy.metadataCount best) = true).

(** ** Sample inputs *)

Definition zero8 : buffer := [x00; x00; x00; x00; x00; x00; x00; x00].
Definition bit8 : buffer := [x00; x01; x00; x00; x00; x00; x00; x00].

Definition sampleConfig : SimilarityConfig :=
  {| imageSimilarityThreshold := Fin 0.99;
     imageVideoSimilarityThreshold := Fin 0.93;
     videoSimilarityThreshold := Fin 0.93;
     stepSize := Fin 1 |}.

Definition frameAt (h : buffer) (t : Q) : FrameInfo := {| hash := h; timestamp := t |}.

Definition clipA : MediaInfo := {| duration := 1; frames := [frameAt zero8 0] |}.
Definition clipB : MediaInfo := {| duration := 1; frames := [frameAt zero8 5] |}.
Definition clipC : MediaInfo :=
  {| duration := 1; frames := [frameAt zero8 0; frameAt bit8 5] |}.
Definition clipD : MediaInfo :=
  {| duration := 1; frames := [frameAt bit8 0; frameAt zero8 1] |}.
Definition stillZero : MediaInfo := {| duration := 0; frames := [frameAt zero8 0] |}.
Definition stillBit : MediaInfo := {| duration := 0; frames := [frameAt bit8 0] |}.
Definition stillEmpty : MediaInfo := {| duration := 0; frames := [] |}.
Definition clipEmpty1 : MediaInfo := {| duration := 1; frames := [] |}.
Definition clipEmpty2 : MediaInfo := {| duration := 2; frames := [] |}.

Definition sampleFile (p : string) : FileInfo :=
  {| media := stillZero;
     metadata := {| width := Some (Fin 10); height := Some (Fin 10);
                    imageDate := None; gpsLatitude := None; gpsLongitude := None;
                    cameraModel := None |};
     fileStats := {| fileSize := Fin 100 |} |}.

Definition near (p : string) : Neighbor := {| point := p; distance := Fin 0 |}.

(** A tree over four files: a, b and c are chained, d is alone. *)
Definition sampleTree : VPTree := fun p _ =>
  if decide (p = "a"%string) then [near "a"; near "b"]
  else if decide (p = "b"%string) then [near "b"; near "a"; near "c"]
  else if decide (p = "c"%string) then [near "c"; near "b"]
  else if decide (p = "d"%string) then [near "d"]
  else [].

Definition sampleUniverse : list string := ["a"; "b"; "c"; "d"]%string.

(** The sample tree, cut down to the files it is built over. *)
Definition sampleBuild (files : list string) : VPTree := fun p e =>
  List.filter (fun nb => bool_decide (point nb ∈ files)) (sampleTree p e).

(** A disk with two files, which differ in the middle only, with its
    [stat] and its read streams. *)
Definition sampleDisk (path : string) : list byte :=
  if decide (path = "b.bin"%string)
  then [x01; x02; x09; x09; x09; x05; x06]
  else [x01; x02; x03; x04; x05; x06].
Definition sampleStat (path : string) : outcome FileStatsJob.Stats :=
  Value {| FileStatsJob.stat_size := Num.of_nat (length (sampleDisk path));
           FileStatsJob.birthtime := 0; FileStatsJob.mtime := 0 |}.
Definition sampleStream (path : string) (start : number) (end_ : option number)
  : outcome (list byte) :=
  match start, end_ with
  | Fin s, None => Value (drop (Z.to_nat (Qfloor s)) (sampleDisk path))
  | Fin s, Some (Fin e) =>
      Value (take (S (Z.to_nat (Qfloor e)) - Z.to_nat (Qfloor s))
               (drop (Z.to_nat (Qfloor s)) (sampleDisk path)))
  | _, _ => Throws RangeError
  end.

(** An index of two bands of two characters that holds one hash, and two
    copies of a file. *)
Definition sampleIndex : outcome Legacy.LSH :=
  lsh ← Legacy.constructor (Num.of_nat 4) (Num.of_nat 2);
  Legacy.add 3 lsh "0110" "a.jpg".
Definition sampleCopy (p : string) (geo : bool) (count : Z) : Legacy.FileInfo :=
  {| Legacy.path := p; Legacy.size := Num.of_Z 10; Legacy.hash := "h";
     Legacy.perceptualHash := None; Legacy.imageDate := 0;
     Legacy.hasGeolocation := geo; Legacy.metadataCount := Num.of_Z count;
     Legacy.quality := None |}.
Definition sampleCopies : list Legacy.FileInfo :=
  [sampleCopy "a.jpg" false 9; sampleCopy "b.jpg" true 3; sampleCopy "c.jpg" true 5].

(** A config that is one threshold, and its JSON text: [JSON.stringify]
    prints NaN and Infinity as [null]. *)
Inductive sampleThreshold := ThresholdHalf | ThresholdNaN | ThresholdInfinity.
Definition sampleStringify (config : sampleThreshold) : string :=
  match config with
  | ThresholdHalf => "0.5"
  | ThresholdNaN | ThresholdInfinity => "null"
  end.

(** Truthiness of a result that is an integer: 0 is falsy. *)
Definition truthy_integer (result : Z) : bool := negb (result =? 0).

(** * Properties *)

Arguments calculateImageSimilarity : simpl never.
Arguments calculateSequenceSimilarityDTW : simpl never.
Arguments getFramesInTimeRange : simpl never.

(** ** Loops *)

Lemma for_each_app {A S} (l1 l2 : list A) (body : S -> A -> outcome S) s :
  for_each (l1 ++ l2) body s = s' ← for_each l1 body s; for_each l2 body s'.
Proof.
  revert s. induction l1 as [|x l1 IH]; intros s; simpl.
  - reflexivity.
  - destruct (body s x) as [s'| |]; simpl; [apply IH|reflexivity|reflexivity].
Qed.

Lemma for_each_ext {A S} (l : list A) (f g : S -> A -> outcome S) s :
  (forall s x, x ∈ l -> f s x = g s x) -> for_each l f s = for_each l g s.
Proof.
  revert s. induction l as [|x l IH]; intros s Hfg; simpl.
  - reflexivity.
  - rewrite Hfg by left.
    destruct (g s x) as [s'| |]; simpl; try reflexivity.
    apply IH. intros; apply Hfg. by right.
Qed.

(** A loop whose body preserves an invariant and never fails runs to the
    end, and the invariant holds of its final state. *)
Lemma for_each_invariant {A S} (P : S -> Prop) (l : list A)
  (body : S -> A -> outcome S) s :
  P s ->
  (forall s x, x ∈ l -> P s -> exists s', body s x = Value s' /\ P s') ->
  exists s', for_each l body s = Value s' /\ P s'.
Proof.
  revert s. induction l as [|x l IH]; intros s Hs Hbody; simpl.
  - eauto.
  - destruct (Hbody s x) as (s' & -> & Hs'); [by left|done|]. simpl.
    apply IH; [done|]. intros; apply Hbody; [by right|done].
Qed.

(** ** The Hamming distance *)

Lemma byte_val_nonneg b : 0 <= byte_val b.
Proof. unfold byte_val. lia. Qed.

Lemma le_word_nonneg bs : 0 <= le_word bs.
Proof. induction bs as [|b bs IH]; simpl; [lia|]. pose proof (byte_val_nonneg b). lia. Qed.

(** Induction over a buffer, eight bytes at a time. *)
Lemma buffer_ind8 (P : buffer -> Prop) :
  (forall h, (length h < 8)%nat -> P h) ->
  (forall b0 b1 b2 b3 b4 b5 b6 b7 rest,
     P rest -> P (b0 :: b1 :: b2 :: b3 :: b4 :: b5 :: b6 :: b7 :: rest)) ->
  forall h, P h.
Proof.
  intros Hshort Hstep h.
  remember (length h) as n eqn:Hn. revert h Hn.
  induction n as [n IH] using lt_wf_ind. intros h ->.
  destruct h as [|b0 [|b1 [|b2 [|b3 [|b4 [|b5 [|b6 [|b7 rest]]]]]]]];
    try (apply Hshort; simpl; lia).
  apply Hstep. eapply IH; [|reflexivity]. simpl. lia.
Qed.

Lemma words_short h : (length h < 8)%nat -> words h = [].
Proof.
  intros H.
  destruct h as [|b0 [|b1 [|b2 [|b3 [|b4 [|b5 [|b6 [|b7 rest]]]]]]]];
    try reflexivity.
  simpl in H. lia.
Qed.

Lemma words_nonneg h : Forall (fun w => 0 <= w) (words h).
Proof.
  induction h as [h Hh|b0 b1 b2 b3 b4 b5 b6 b7 rest IH] using buffer_ind8.
  - rewrite words_short by done. constructor.
  - change (words (b0 :: b1 :: b2 :: b3 :: b4 :: b5 :: b6 :: b7 :: rest))
      with (le_word [b0; b1; b2; b3; b4; b5; b6; b7] :: words rest).
    constructor; [apply le_word_nonneg|apply IH].
Qed.

Lemma words_length h : length (words h) = Nat.div (length h) 8.
Proof.
  induction h as [h Hh|b0 b1 b2 b3 b4 b5 b6 b7 rest IH] using buffer_ind8.
  - rewrite words_short by done. by rewrite Nat.div_small.
  - change (length (words (b0 :: b1 :: b2 :: b3 :: b4 :: b5 :: b6 :: b7 :: rest)))
      with (S (length (words rest))).
    rewrite IH.
    change (length (b0 :: b1 :: b2 :: b3 :: b4 :: b5 :: b6 :: b7 :: rest))
      with (8 + length rest)%nat.
    replace (8 + length rest)%nat with (length rest + 1 * 8)%nat by lia.
    rewrite Nat.div_add by lia. lia.
Qed.

Lemma Z_land_le a b : 0 <= a -> Z.land a b <= a.
Proof.
  intros Ha.
  assert (Hd : Z.land (Z.ldiff a b) (Z.land a b) = 0).
  { apply Z.bits_inj'. intros n Hn.
    rewrite Z.land_spec, Z.ldiff_spec, Z.land_spec, Z.bits_0.
    destruct (Z.testbit a n), (Z.testbit b n); reflexivity. }
  assert (H : Z.ldiff a b + Z.land a b = a).
  { rewrite Z.add_nocarry_lxor by exact Hd.
    rewrite Z.lxor_lor by exact Hd.
    apply Z.lor_ldiff_and. }
  assert (0 <= Z.ldiff a b) by (apply Z.ldiff_nonneg; lia).
  lia.
Qed.

Lemma popcount64_nonneg n : 0 <= n -> 0 <= popcount64 n.
Proof.
  intros Hn. unfold popcount64.
  assert (H1 : 0 <= n - Z.land (Z.shiftr n 1) 0x5555555555555555).
  { assert (Z.land (Z.shiftr n 1) 0x5555555555555555 <= Z.shiftr n 1).
    { apply Z_land_le. apply Z.shiftr_nonneg; lia. }
    assert (Z.shiftr n 1 <= n).
    { rewrite Z.shiftr_div_pow2 by lia. apply Z.div_le_upper_bound; lia. }
    lia. }
  set (a := n - Z.land (Z.shiftr n 1) 0x5555555555555555) in *.
  assert (H2 : 0 <= Z.land a 0x3333333333333333 +
                    Z.land (Z.shiftr a 2) 0x3333333333333333).
  { assert (0 <= Z.land a 0x3333333333333333) by (apply Z.land_nonneg; lia).
    assert (0 <= Z.land (Z.shiftr a 2) 0x3333333333333333)
      by (apply Z.land_nonneg; lia).
    lia. }
  set (b := Z.land a 0x3333333333333333 + Z.land (Z.shiftr a 2) 0x3333333333333333) in *.
  assert (H3 : 0 <= Z.land (b + Z.shiftr b 4) 0x0f0f0f0f0f0f0f0f)
    by (apply Z.land_nonneg; lia).
  apply Z.shiftr_nonneg. lia.
Qed.

Lemma popcount64_zero : popcount64 0 = 0.
Proof. reflexivity. Qed.

Lemma xor_at_comm v1 v2 i :
  length v1 = length v2 -> xor_at v1 v2 i = xor_at v2 v1 i.
Proof.
  intros Hlen. unfold xor_at.
  destruct (v1 !! i) as [x|] eqn:H1, (v2 !! i) as [y|] eqn:H2; try reflexivity.
  by rewrite Z.lxor_comm.
Qed.

Lemma BigUint64Array_ok h :
  byteLength h mod 8 = 0 -> BigUint64Array h = Value (words h).
Proof. intros H. unfold BigUint64Array. by rewrite decide_True. Qed.

(** On buffers of a whole number of words the byte-wise tail is skipped. *)
Lemma hammingBits_words h1 h2 :
  byteLength h1 mod 8 = 0 -> byteLength h2 mod 8 = 0 ->
  hammingBits h1 h2 =
    for_each (seq 0 (length (words h1)))
      (fun distance i => x ← xor_at (words h1) (words h2) i;
                         Value (distance + popcount64 x)) 0.
Proof.
  intros H1 H2. unfold hammingBits.
  rewrite !BigUint64Array_ok by done. simpl.
  destruct (for_each _ _ _) as [d| |]; simpl; try reflexivity.
  rewrite decide_False by lia. reflexivity.
Qed.

Lemma hammingBits_comm h1 h2 :
  length h1 = length h2 -> hammingBits h1 h2 = hammingBits h2 h1.
Proof.
  intros Hlen.
  destruct (decide (byteLength h1 mod 8 = 0)) as [H1|H1].
  - assert (H2 : byteLength h2 mod 8 = 0) by (unfold byteLength in *; by rewrite <- Hlen).
    rewrite !hammingBits_words by done.
    rewrite !words_length, Hlen.
    apply for_each_ext. intros d i _.
    rewrite xor_at_comm; [done|]. by rewrite !words_length, Hlen.
  - unfold hammingBits, BigUint64Array.
    assert (H2 : byteLength h2 mod 8 <> 0) by (unfold byteLength in *; by rewrite <- Hlen).
    by rewrite !decide_False.
Qed.

Lemma hammingBits_self h :
  byteLength h mod 8 = 0 -> hammingBits h h = Value 0.
Proof.
  intros H. rewrite hammingBits_words by done.
  destruct (for_each_invariant (fun d => d = 0) (seq 0 (length (words h)))
    (fun distance i => x ← xor_at (words h) (words h) i;
                       Value (distance + popcount64 x)) 0) as (d & -> & ->);
    [done| |done].
  intros d i Hi ->. apply elem_of_seq in Hi.
  unfold xor_at. destruct (lookup_lt_is_Some_2 (words h) i) as [x ->]; [lia|].
  rewrite Z.lxor_nilpotent. eauto.
Qed.

Lemma hammingBits_defined h1 h2 :
  length h1 = length h2 -> byteLength h1 mod 8 = 0 ->
  exists d, hammingBits h1 h2 = Value d /\ 0 <= d.
Proof.
  intros Hlen H1.
  assert (H2 : byteLength h2 mod 8 = 0) by (unfold byteLength in *; by rewrite <- Hlen).
  rewrite hammingBits_words by done.
  apply for_each_invariant; [lia|].
  intros d i Hi Hd. apply elem_of_seq in Hi.
  unfold xor_at.
  destruct (lookup_lt_is_Some_2 (words h1) i) as [x Hx]; [lia|].
  destruct (lookup_lt_is_Some_2 (words h2) i) as [y Hy].
  { rewrite words_length, <- Hlen, <- words_length. lia. }
  rewrite Hx, Hy. simpl. eexists; split; [reflexivity|].
  assert (0 <= x).
  { pose proof (words_nonneg h1) as Hw. rewrite Forall_lookup in Hw. eauto. }
  assert (0 <= y).
  { pose proof (words_nonneg h2) as Hw. rewrite Forall_lookup in Hw. eauto. }
  assert (0 <= popcount64 (Z.lxor x y)).
  { apply popcount64_nonneg. by apply Z.lxor_nonneg. }
  lia.
Qed.

(** Between hashes of one length the distance does not depend on the
    order, and a hash of whole words is at distance 0 from itself. *)
Lemma hammingDistance_comm h1 h2 :
  length h1 = length h2 -> hammingDistance h1 h2 = hammingDistance h2 h1.
Proof. intros Hlen. unfold hammingDistance. by rewrite hammingBits_comm. Qed.

Lemma hammingDistance_self h :
  byteLength h mod 8 = 0 -> hammingDistance h h = Value (Num.of_Z 0).
Proof. intros H. unfold hammingDistance. by rewrite hammingBits_self. Qed.

(** C7 (symmetry, range and zero self-distance of the Hamming distance).
    The range fails: on the two 64-bit hashes [bit8] and [zero8], which
    differ in one bit, [hammingDistance] returns 257, above the bit length
    64.  [popcount64] multiplies bigints, which do not wrap at 64 bits, so
    the shift by 56 keeps the partial sums above the top byte. *)
Theorem hammingDistance_above_bitlen :
  hammingDistance bit8 zero8 = Value (Num.of_Z 257) /\
  byteLength bit8 = byteLength zero8 /\
  byteLength bit8 * 8 = 64 /\ byteLength bit8 mod 8 = 0 /\
  popcount64 256 = 257.
Proof. repeat split; reflexivity. Qed.

(** C8 (a length mismatch must fail).  With a first hash of one word and a
    second of two, [hammingDistance] returns a distance: no check compares
    the lengths, and the loop runs over the words of the first hash only.
    In the other order the read past the end of the second view throws a
    TypeError, an accident of mixing a bigint with [undefined]. *)
Theorem hammingDistance_accepts_longer_second :
  byteLength zero8 <> byteLength (zero8 ++ bit8) /\
  hammingDistance zero8 (zero8 ++ bit8) = Value (Num.of_Z 0) /\
  hammingDistance (zero8 ++ bit8) zero8 = Throws TypeError.
Proof. repeat split; try reflexivity. discriminate. Qed.

Lemma bind_Value {A B} (a : A) (f : A -> outcome B) : (Value a ≫= f) = f a.
Proof. reflexivity. Qed.

Lemma for_each_snoc {A S} (l : list A) (x : A) (body : S -> A -> outcome S) s :
  for_each (l ++ [x]) body s = s' ← for_each l body s; body s' x.
Proof.
  rewrite for_each_app. destruct (for_each l body s) as [s'| |]; try reflexivity.
  simpl. by destruct (body s' x).
Qed.


(** ** Numbers *)

Lemma Qle_bool_false x y : Qle_bool x y = false <-> (y < x)%Q.
Proof.
  split.
  - intros H. apply Qnot_le_lt. intros Hle. apply Qle_bool_iff in Hle. congruence.
  - intros H. destruct (Qle_bool x y) eqn:E; [|done].
    apply Qle_bool_iff in E. apply Qlt_not_le in H. contradiction.
Qed.

Lemma Qeq_bool_false x y : Qeq_bool x y = false <-> ~ (x == y)%Q.
Proof.
  split.
  - intros H Heq. apply Qeq_bool_iff in Heq. congruence.
  - intros H. destruct (Qeq_bool x y) eqn:E; [|done].
    apply Qeq_bool_iff in E. contradiction.
Qed.

(** Turn the boolean tests on rationals into propositions, splitting on
    those that are still undecided. *)
Ltac q_bools :=
  repeat match goal with
  | H : Qle_bool _ _ = true |- _ => apply Qle_bool_iff in H
  | H : Qle_bool _ _ = false |- _ => apply Qle_bool_false in H
  | H : Qeq_bool _ _ = true |- _ => apply Qeq_bool_iff in H
  | H : Qeq_bool _ _ = false |- _ => apply Qeq_bool_false in H
  | |- context [Qle_bool ?x ?y] => destruct (Qle_bool x y) eqn:?
  | |- context [Qeq_bool ?x ?y] => destruct (Qeq_bool x y) eqn:?
  | H : context [Qle_bool ?x ?y] |- _ => destruct (Qle_bool x y) eqn:?
  | H : context [Qeq_bool ?x ?y] |- _ => destruct (Qeq_bool x y) eqn:?
  end.

(** Case analysis on every number in sight. *)
Ltac num_crush :=
  repeat match goal with
  | v : number |- _ => destruct v
  end;
  simpl in *; try done; q_bools; simpl in *; try done; try lra.

#[global] Instance num_equiv_refl : Reflexive Num.equiv.
Proof. intros x. num_crush. Qed.
#[global] Instance num_equiv_sym : Symmetric Num.equiv.
Proof. intros x y. num_crush. Qed.
#[global] Instance num_equiv_trans : Transitive Num.equiv.
Proof. intros x y z. num_crush. Qed.

Lemma min3_swap x y z x' y' z' :
  Num.equiv x x' -> Num.equiv y y' -> Num.equiv z z' ->
  Num.equiv (Num.min3 x y z) (Num.min3 x' z' y').
Proof. unfold Num.min3, Num.min, Num.le. intros. num_crush. Qed.

Lemma add_equiv x y x' y' :
  Num.equiv x x' -> Num.equiv y y' -> Num.equiv (Num.add x y) (Num.add x' y').
Proof. intros. num_crush. Qed.

Lemma min3_nonneg x y z :
  nonneg x -> nonneg y -> nonneg z -> nonneg (Num.min3 x y z).
Proof. unfold Num.min3, Num.min, Num.le. intros. num_crush. Qed.

Lemma add_nonneg x y : nonneg x -> nonneg y -> nonneg (Num.add x y).
Proof. intros. num_crush. Qed.

Lemma min3_zero x y z :
  Num.equiv x (Fin 0) -> nonneg y -> nonneg z ->
  Num.equiv (Num.min3 x y z) (Fin 0).
Proof. unfold Num.min3, Num.min, Num.le. intros. num_crush. Qed.

Lemma max_of_nat m n :
  Num.max (Num.of_nat m) (Num.of_nat n) = Num.of_nat (Nat.max m n).
Proof.
  unfold Num.max, Num.of_nat, Num.of_Z, Num.le.
  destruct (Qle_bool _ _) eqn:E.
  - apply Qle_bool_iff in E. rewrite <- Zle_Qle in E. do 3 f_equal. lia.
  - apply Qle_bool_false in E. rewrite <- Zlt_Qlt in E. do 3 f_equal. lia.
Qed.

(** ** The DTW table *)

Lemma dtwTable_SS c i j :
  dtwTable c (S i) (S j) =
    Num.add (c i j)
      (Num.min3 (dtwTable c i j) (dtwTable c i (S j)) (dtwTable c (S i) j)).
Proof. reflexivity. Qed.

Lemma dtwTable_S0 c i : dtwTable c (S i) 0 = PInf.
Proof. reflexivity. Qed.

Lemma dtwTable_0S c j : dtwTable c 0 (S j) = PInf.
Proof. reflexivity. Qed.

(** Exchanging the two sequences transposes the table. *)
Lemma dtwTable_transpose c c' m n :
  (forall a b, (a < m)%nat -> (b < n)%nat -> Num.equiv (c a b) (c' b a)) ->
  forall i j, (i <= m)%nat -> (j <= n)%nat ->
  Num.equiv (dtwTable c i j) (dtwTable c' j i).
Proof.
  intros Hc. induction i as [|i IHi]; intros j Hi Hj.
  - destruct j; reflexivity.
  - induction j as [|j IHj]; [reflexivity|].
    rewrite !dtwTable_SS.
    apply add_equiv; [apply Hc; lia|].
    apply min3_swap; [apply IHi; lia|apply IHi; lia|apply IHj; lia].
Qed.

Lemma dtwTable_nonneg c m n :
  (forall a b, (a < m)%nat -> (b < n)%nat -> nonneg (c a b)) ->
  forall i j, (i <= m)%nat -> (j <= n)%nat -> nonneg (dtwTable c i j).
Proof.
  intros Hc. induction i as [|i IHi]; intros j Hi Hj.
  - destruct j; [by compute|done].
  - induction j as [|j IHj]; [done|].
    rewrite dtwTable_SS. apply add_nonneg; [apply Hc; lia|].
    apply min3_nonneg; [apply IHi; lia|apply IHi; lia|apply IHj; lia].
Qed.

(** With a cost that vanishes on the diagonal, so does the table. *)
Lemma dtwTable_diagonal c m :
  (forall a b, (a < m)%nat -> (b < m)%nat -> nonneg (c a b)) ->
  (forall a, (a < m)%nat -> Num.equiv (c a a) (Fin 0)) ->
  forall i, (i <= m)%nat -> Num.equiv (dtwTable c i i) (Fin 0).
Proof.
  intros Hc Hd. induction i as [|i IH]; intros Hi; [by compute|].
  rewrite dtwTable_SS.
  pose proof (Hd i ltac:(lia)) as H0.
  pose proof (min3_zero _ _ _ (IH ltac:(lia))
                (dtwTable_nonneg c m m Hc i (S i) ltac:(lia) ltac:(lia))
                (dtwTable_nonneg c m m Hc (S i) i ltac:(lia) ltac:(lia))) as H1.
  destruct (c i i), (Num.min3 _ _ _); simpl in *; try done. lra.
Qed.

(** ** The rolling row computes the table *)

Lemma cell_tableRow c n i j : (j <= n)%nat -> cell (tableRow c n i) j = dtwTable c i j.
Proof.
  intros Hj. unfold cell, tableRow.
  rewrite list_lookup_fmap, lookup_seq_lt by lia. reflexivity.
Qed.

Lemma cell_mixedRow c n i k j :
  (j <= n)%nat ->
  cell (mixedRow c n i k) j =
    if decide (j <= k)%nat then dtwTable c (S i) j else dtwTable c i j.
Proof.
  intros Hj. unfold cell, mixedRow.
  rewrite list_lookup_fmap, lookup_seq_lt by lia. reflexivity.
Qed.

Lemma mixedRow_start c n i : <[0%nat := PInf]> (tableRow c n i) = mixedRow c n i 0.
Proof.
  apply list_eq. intros j. unfold tableRow, mixedRow.
  destruct (decide (j = 0%nat)) as [->|Hj].
  - rewrite list_lookup_insert_eq by (rewrite length_fmap, length_seq; lia).
    reflexivity.
  - rewrite list_lookup_insert_ne by done.
    rewrite !list_lookup_fmap.
    destruct (seq 0 (S n) !! j) as [x|] eqn:E; [|done].
    apply lookup_seq in E as [-> _]. simpl. by rewrite decide_False by lia.
Qed.

Lemma mixedRow_step c n i k :
  (S k <= n)%nat ->
  <[S k := dtwTable c (S i) (S k)]> (mixedRow c n i k) = mixedRow c n i (S k).
Proof.
  intros Hk. apply list_eq. intros j. unfold mixedRow.
  destruct (decide (j = S k)) as [->|Hj].
  - rewrite list_lookup_insert_eq by (rewrite length_fmap, length_seq; lia).
    rewrite list_lookup_fmap, lookup_seq_lt by lia. simpl.
    by rewrite decide_True by lia.
  - rewrite list_lookup_insert_ne by done.
    rewrite !list_lookup_fmap.
    destruct (seq 0 (S n) !! j) as [x|] eqn:E; [|done].
    apply lookup_seq in E as [-> _]. simpl.
    repeat case_decide; try done; exfalso; lia.
Qed.

Lemma mixedRow_end c n i : mixedRow c n i n = tableRow c n (S i).
Proof.
  unfold mixedRow, tableRow. apply list_fmap_ext. intros k j Hj.
  apply lookup_seq in Hj as [-> ?]. by rewrite decide_True by lia.
Qed.

Lemma tableRow_start c n :
  <[0%nat := Num.of_Z 0]> (replicate (n + 1) PInf) = tableRow c n 0.
Proof.
  apply list_eq. intros j. unfold tableRow.
  destruct (decide (j = 0%nat)) as [->|Hj].
  - rewrite list_lookup_insert_eq by (rewrite length_replicate; lia). reflexivity.
  - rewrite list_lookup_insert_ne by done.
    rewrite list_lookup_fmap.
    destruct (decide (j < S n)%nat).
    + rewrite lookup_replicate_2 by lia. rewrite lookup_seq_lt by lia.
      simpl. destruct j; [done|reflexivity].
    + rewrite (proj1 (lookup_replicate_None _ _ _)) by lia.
      rewrite lookup_seq_ge by lia. done.
Qed.

Section DtwRow.
Context (seq1 seq2 : list FrameInfo).
(** No pair of frames makes the Hamming distance throw. *)
Context (Hsim : forall i j, (i < length seq1)%nat -> (j < length seq2)%nat ->
  exists s, calculateImageSimilarity (seq1 !! i) (seq2 !! j) = Value s).

Let c := frameCost seq1 seq2.
Let n := length seq2.

Lemma dtwInner_cells i k :
  (i < length seq1)%nat -> (k <= n)%nat ->
  for_each (seq 1 k) (dtwInner seq1 seq2 (S i)) (mixedRow c n i 0, dtwTable c i 0)
  = Value (mixedRow c n i k, dtwTable c i k).
Proof.
  intros Hi. induction k as [|k IH]; intros Hk; [reflexivity|].
  rewrite seq_S, for_each_snoc, IH, bind_Value by lia.
  unfold dtwInner.
  replace (S i - 1)%nat with i by lia. replace (1 + k - 1)%nat with k by lia.
  destruct (Hsim i k) as [s Hs]; [done|unfold n in Hk; lia|].
  rewrite Hs, bind_Value.
  rewrite !cell_mixedRow by lia.
  rewrite decide_False by lia. rewrite decide_True by lia.
  do 2 f_equal.
  rewrite <- mixedRow_step by lia. f_equal.
  rewrite dtwTable_SS.
  replace (c i k) with (Num.sub (Num.of_Z 1) s); [done|].
  unfold c, frameCost. by rewrite Hs.
Qed.

Lemma dtwOuter_rows i :
  (i < length seq1)%nat ->
  dtwOuter seq1 seq2 (tableRow c n i) (S i) = Value (tableRow c n (S i)).
Proof.
  intros Hi. unfold dtwOuter. fold n.
  rewrite cell_tableRow by lia. rewrite mixedRow_start.
  rewrite dtwInner_cells, bind_Value by (done || lia).
  by rewrite mixedRow_end.
Qed.

Lemma dtwRow_rows k :
  (k <= length seq1)%nat ->
  for_each (seq 1 k) (dtwOuter seq1 seq2) (tableRow c n 0) = Value (tableRow c n k).
Proof.
  induction k as [|k IH]; intros Hk; [reflexivity|].
  rewrite seq_S, for_each_snoc, IH, bind_Value by lia.
  by apply dtwOuter_rows.
Qed.

(** The row left by the two loops is the last row of the table, and the
    result is read off its last cell. *)
Lemma dtwRow_table : dtwRow seq1 seq2 = Value (tableRow c n (length seq1)).
Proof.
  unfold dtwRow. fold n. rewrite (tableRow_start c). by apply dtwRow_rows.
Qed.

Lemma calculateSequenceSimilarityDTW_table :
  calculateSequenceSimilarityDTW seq1 seq2 =
    Value (Num.sub (Num.of_Z 1)
             (Num.div (dtwTable c (length seq1) n)
                (Num.of_nat (Nat.max (length seq1) n)))).
Proof.
  unfold calculateSequenceSimilarityDTW. rewrite dtwRow_table, bind_Value.
  fold n. rewrite cell_tableRow by lia. by rewrite max_of_nat.
Qed.

End DtwRow.


(** ** Image similarity *)

Lemma inject_Z_pos z : 0 < z -> (0 < inject_Z z)%Q.
Proof. intros H. change 0%Q with (inject_Z 0). by rewrite <- Zlt_Qlt. Qed.

Lemma inject_Z_nonneg z : 0 <= z -> (0 <= inject_Z z)%Q.
Proof. intros H. change 0%Q with (inject_Z 0). by rewrite <- Zle_Qle. Qed.

Lemma div_of_Z d l :
  0 < l -> Num.div (Num.of_Z d) (Num.of_Z l) = Fin (inject_Z d / inject_Z l).
Proof.
  intros Hl. unfold Num.div, Num.of_Z.
  destruct (Qeq_bool (inject_Z l) 0) eqn:E; [|done].
  apply Qeq_bool_iff in E. pose proof (inject_Z_pos l Hl). lra.
Qed.

Lemma hash_whole_words k (h : buffer) :
  length h = (8 * k)%nat -> byteLength h mod 8 = 0.
Proof.
  intros H. unfold byteLength. rewrite H, Nat2Z.inj_mul, Z.mul_comm.
  apply Z.mod_mul. lia.
Qed.

Lemma hash_bits_pos k (h : buffer) :
  (0 < k)%nat -> length h = (8 * k)%nat -> 0 < byteLength h * 8.
Proof. intros Hk H. unfold byteLength. rewrite H. lia. Qed.

Lemma calculateImageSimilarity_value k f1 f2 :
  (0 < k)%nat ->
  length (hash f1) = (8 * k)%nat -> length (hash f2) = (8 * k)%nat ->
  exists d, 0 <= d /\ hammingBits (hash f1) (hash f2) = Value d /\
    calculateImageSimilarity (Some f1) (Some f2) =
      Value (Fin (inject_Z 1 + - (inject_Z d / inject_Z (byteLength (hash f1) * 8)))).
Proof.
  intros Hk H1 H2.
  destruct (hammingBits_defined (hash f1) (hash f2)) as (d & Hd & Hd0);
    [congruence|by eapply hash_whole_words|].
  exists d. split; [done|]. split; [done|].
  unfold calculateImageSimilarity, hammingDistance.
  rewrite Hd, !bind_Value, div_of_Z by (by eapply hash_bits_pos). reflexivity.
Qed.

Lemma calculateImageSimilarity_le_1 k f1 f2 :
  (0 < k)%nat ->
  length (hash f1) = (8 * k)%nat -> length (hash f2) = (8 * k)%nat ->
  exists q, calculateImageSimilarity (Some f1) (Some f2) = Value (Fin q) /\ (q <= 1)%Q.
Proof.
  intros Hk H1 H2.
  destruct (calculateImageSimilarity_value k f1 f2) as (d & Hd0 & _ & ->); try done.
  eexists; split; [reflexivity|].
  pose proof (inject_Z_nonneg d Hd0) as Hn.
  pose proof (inject_Z_pos _ (hash_bits_pos k _ Hk H1)) as Hp.
  assert (0 <= inject_Z d / inject_Z (byteLength (hash f1) * 8))%Q.
  { apply Qle_shift_div_l; [done|]. lra. }
  change (inject_Z 1) with 1%Q. lra.
Qed.

Lemma calculateImageSimilarity_comm k f1 f2 :
  length (hash f1) = (8 * k)%nat -> length (hash f2) = (8 * k)%nat ->
  calculateImageSimilarity (Some f1) (Some f2) =
  calculateImageSimilarity (Some f2) (Some f1).
Proof.
  intros H1 H2. unfold calculateImageSimilarity, hammingDistance.
  rewrite (hammingBits_comm (hash f1) (hash f2)) by congruence.
  unfold byteLength. by rewrite H1, H2.
Qed.

Lemma calculateImageSimilarity_self k f :
  (0 < k)%nat -> length (hash f) = (8 * k)%nat ->
  exists q, calculateImageSimilarity (Some f) (Some f) = Value (Fin q) /\ (q == 1)%Q.
Proof.
  intros Hk Hf.
  destruct (calculateImageSimilarity_value k f f Hk Hf Hf) as (d & _ & Hd & ->).
  rewrite hammingBits_self in Hd by (by eapply hash_whole_words).
  injection Hd as <-.
  eexists; split; [reflexivity|].
  pose proof (inject_Z_pos _ (hash_bits_pos k _ Hk Hf)) as Hp.
  change (inject_Z 1) with 1%Q. change (inject_Z 0) with 0%Q.
  unfold Qdiv. lra.
Qed.

(** ** Costs between two sequences of well-formed frames *)

Section Costs.
Context (k : nat) (Hk : (0 < k)%nat).
Context (seq1 seq2 : list FrameInfo).
Context (H1 : Forall (fun f => length (hash f) = (8 * k)%nat) seq1).
Context (H2 : Forall (fun f => length (hash f) = (8 * k)%nat) seq2).

Lemma frames_similarity_defined i j :
  (i < length seq1)%nat -> (j < length seq2)%nat ->
  exists s, calculateImageSimilarity (seq1 !! i) (seq2 !! j) = Value s.
Proof.
  intros Hi Hj.
  destruct (lookup_lt_is_Some_2 seq1 i Hi) as [f1 Hf1].
  destruct (lookup_lt_is_Some_2 seq2 j Hj) as [f2 Hf2].
  rewrite Hf1, Hf2.
  destruct (calculateImageSimilarity_le_1 k f1 f2) as (q & -> & _); eauto.
  - eapply Forall_lookup_1 in H1; eauto.
  - eapply Forall_lookup_1 in H2; eauto.
Qed.

Lemma frameCost_nonneg i j :
  (i < length seq1)%nat -> (j < length seq2)%nat -> nonneg (frameCost seq1 seq2 i j).
Proof.
  intros Hi Hj. unfold frameCost.
  destruct (lookup_lt_is_Some_2 seq1 i Hi) as [f1 Hf1].
  destruct (lookup_lt_is_Some_2 seq2 j Hj) as [f2 Hf2].
  rewrite Hf1, Hf2.
  destruct (calculateImageSimilarity_le_1 k f1 f2) as (q & -> & Hq); [done| | |].
  - eapply Forall_lookup_1 in H1; eauto.
  - eapply Forall_lookup_1 in H2; eauto.
  - simpl. change (inject_Z 1) with 1%Q. lra.
Qed.

Lemma frameCost_comm i j :
  (i < length seq1)%nat -> (j < length seq2)%nat ->
  frameCost seq1 seq2 i j = frameCost seq2 seq1 j i.
Proof.
  intros Hi Hj. unfold frameCost.
  destruct (lookup_lt_is_Some_2 seq1 i Hi) as [f1 Hf1].
  destruct (lookup_lt_is_Some_2 seq2 j Hj) as [f2 Hf2].
  rewrite Hf1, Hf2.
  rewrite (calculateImageSimilarity_comm k f1 f2); [done| |].
  - eapply Forall_lookup_1 in H1; eauto.
  - eapply Forall_lookup_1 in H2; eauto.
Qed.

End Costs.

Lemma frameCost_diagonal k seq1 i :
  (0 < k)%nat -> Forall (fun f => length (hash f) = (8 * k)%nat) seq1 ->
  (i < length seq1)%nat -> Num.equiv (frameCost seq1 seq1 i i) (Fin 0).
Proof.
  intros Hk H1 Hi. unfold frameCost.
  destruct (lookup_lt_is_Some_2 seq1 i Hi) as [f1 Hf1]. rewrite Hf1.
  destruct (calculateImageSimilarity_self k f1 Hk) as (q & -> & Hq).
  - eapply Forall_lookup_1 in H1; eauto.
  - simpl. change (inject_Z 1) with 1%Q. lra.
Qed.

(** ** The DTW score *)

Lemma dtwScore_atMostOne d len :
  nonneg d -> (0 < len)%nat -> atMostOne (dtwScore d len).
Proof.
  intros Hd Hlen. unfold dtwScore, Num.of_nat, Num.of_Z.
  pose proof (inject_Z_pos (Z.of_nat len) ltac:(lia)) as Hp.
  destruct d as [q| | |]; try done; simpl in *.
  - destruct (Qeq_bool (inject_Z (Z.of_nat len)) 0) eqn:E.
    { apply Qeq_bool_iff in E. lra. }
    simpl.
    assert (0 <= q / inject_Z (Z.of_nat len))%Q.
    { apply Qle_shift_div_l; [done|]. lra. }
    change (inject_Z 1) with 1%Q. lra.
  - destruct (Qle_bool 0 (inject_Z (Z.of_nat len))) eqn:E; [done|].
    apply Qle_bool_false in E. lra.
Qed.

Lemma dtwScore_equiv d d' len :
  Num.equiv d d' -> Num.equiv (dtwScore d len) (dtwScore d' len).
Proof.
  intros Hd. unfold dtwScore, Num.of_nat, Num.of_Z.
  destruct d, d'; try done; simpl in *.
  - destruct (Qeq_bool (inject_Z (Z.of_nat len)) 0) eqn:E.
    + q_bools; simpl; try done; lra.
    + simpl. by rewrite Hd.
Qed.

Lemma dtwScore_zero d len :
  Num.equiv d (Fin 0) -> (0 < len)%nat -> Num.equiv (dtwScore d len) (Fin 1).
Proof.
  intros Hd Hlen. unfold dtwScore, Num.of_nat, Num.of_Z.
  pose proof (inject_Z_pos (Z.of_nat len) ltac:(lia)) as Hp.
  destruct d as [q| | |]; try done; simpl in *.
  destruct (Qeq_bool (inject_Z (Z.of_nat len)) 0) eqn:E.
  { apply Qeq_bool_iff in E. lra. }
  simpl. rewrite Hd. change (inject_Z 1) with 1%Q. unfold Qdiv. lra.
Qed.

Lemma max_unitRange b w : unitRange b -> atMostOne w -> unitRange (Num.max b w).
Proof. unfold Num.max, Num.le. intros. num_crush. Qed.

Lemma max_equiv a b b' : Num.equiv b b' -> Num.equiv (Num.max a b) (Num.max a b').
Proof. unfold Num.max, Num.le. intros. num_crush. Qed.

Lemma max_zero_one w : Num.equiv w (Fin 1) -> Num.equiv (Num.max (Num.of_Z 0) w) (Fin 1).
Proof.
  unfold Num.max, Num.le, Num.of_Z. change (inject_Z 0) with 0%Q. intros. num_crush.
Qed.


(** ** Image against video *)

Lemma imageVideoLoop_unitRange cfg k imageFrame videoFrames best :
  (0 < k)%nat -> length (hash imageFrame) = (8 * k)%nat ->
  Forall (fun f => length (hash f) = (8 * k)%nat) videoFrames ->
  unitRange best ->
  exists v, imageVideoLoop cfg (Some imageFrame) videoFrames best = Value v /\
            unitRange v.
Proof.
  intros Hk Hi Hv. revert best.
  induction Hv as [|f rest Hf Hrest IH]; intros best Hbest; simpl; [eauto|].
  destruct (calculateImageSimilarity_le_1 k imageFrame f Hk Hi Hf) as (q & -> & Hq).
  rewrite bind_Value.
  destruct (Num.gt (Fin q) best) eqn:Hgt; [|by apply IH].
  assert (unitRange (Fin q)).
  { destruct best as [b| | |]; try done. simpl in *.
    destruct (Qle_bool q b) eqn:E; [done|]. apply Qle_bool_false in E. lra. }
  destruct (Num.ge (Fin q) (imageVideoSimilarityThreshold cfg)); [eauto|by apply IH].
Qed.

Lemma unitRange_zero : unitRange (Num.of_Z 0).
Proof. by compute. Qed.

Lemma calculateImageVideoSimilarity_unitRange cfg k image video :
  (0 < k)%nat -> hashesOf k image -> hashesOf k video ->
  exists v, calculateImageVideoSimilarity cfg image video = Value v /\ unitRange v.
Proof.
  intros Hk Hi Hv. unfold calculateImageVideoSimilarity.
  destruct (_ || _) eqn:E; [eauto using unitRange_zero|].
  apply orb_false_elim in E as [E _]. apply bool_decide_eq_false in E.
  destruct (frames image) as [|f rest] eqn:Hf; [done|]. simpl.
  assert (length (hash f) = (8 * k)%nat).
  { unfold hashesOf in Hi. rewrite Hf in Hi. by inversion Hi. }
  by apply (imageVideoLoop_unitRange cfg k); [..|apply unitRange_zero].
Qed.

(** The guard of [calculateImageVideoSimilarity]: no frames, no similarity. *)
Lemma calculateImageVideoSimilarity_empty cfg image video :
  frames image = [] \/ frames video = [] ->
  calculateImageVideoSimilarity cfg image video = Value (Num.of_Z 0).
Proof.
  intros [H|H]; unfold calculateImageVideoSimilarity; rewrite H; simpl;
    [done|by rewrite orb_true_r].
Qed.

(** ** Video against video *)

Lemma getFramesInTimeRange_hashes k media s e :
  hashesOf k media ->
  Forall (fun f => length (hash f) = (8 * k)%nat) (getFramesInTimeRange media s e).
Proof.
  unfold hashesOf, getFramesInTimeRange. rewrite !Forall_forall.
  intros H f Hf. apply H. apply list_elem_of_In in Hf.
  apply filter_In in Hf as [Hf _]. by apply list_elem_of_In.
Qed.

Lemma filter_all {A} (p : A -> bool) (l : list A) :
  Forall (fun x => p x = true) l -> List.filter p l = l.
Proof. induction 1 as [|x l Hx _ IH]; simpl; [done|]. by rewrite Hx, IH. Qed.

Lemma getFramesInTimeRange_all media w :
  inWindow media -> (duration media <= w)%Q ->
  getFramesInTimeRange media (Num.of_Z 0) (Num.add (Num.of_Z 0) (Fin w)) = frames media.
Proof.
  intros Hin Hw. unfold getFramesInTimeRange. apply filter_all.
  eapply Forall_impl; [exact Hin|]. intros f [H0 H1]. simpl.
  unfold Num.ge, Num.le, Num.of_Z. simpl.
  apply andb_true_intro. split; apply Qle_bool_iff.
  - by change (inject_Z 0) with 0%Q.
  - change (inject_Z 0) with 0%Q. lra.
Qed.

(** The score of one window. *)
Lemma window_score k seq1 seq2 :
  (0 < k)%nat ->
  Forall (fun f => length (hash f) = (8 * k)%nat) seq1 ->
  Forall (fun f => length (hash f) = (8 * k)%nat) seq2 ->
  calculateSequenceSimilarityDTW seq1 seq2 =
    Value (dtwScore (dtwTable (frameCost seq1 seq2) (length seq1) (length seq2))
             (Nat.max (length seq1) (length seq2))).
Proof.
  intros Hk H1 H2. apply calculateSequenceSimilarityDTW_table.
  by apply (frames_similarity_defined k).
Qed.

Lemma window_score_atMostOne k seq1 seq2 :
  (0 < k)%nat -> seq2 <> [] ->
  Forall (fun f => length (hash f) = (8 * k)%nat) seq1 ->
  Forall (fun f => length (hash f) = (8 * k)%nat) seq2 ->
  exists w, calculateSequenceSimilarityDTW seq1 seq2 = Value w /\ atMostOne w.
Proof.
  intros Hk Hne H1 H2. rewrite (window_score k) by done.
  eexists; split; [reflexivity|]. apply dtwScore_atMostOne.
  - apply (dtwTable_nonneg _ (length seq1) (length seq2)); [|lia|lia].
    intros a b Ha Hb. by apply (frameCost_nonneg k).
  - destruct seq2; [done|]. simpl. lia.
Qed.

Lemma window_score_comm k seq1 seq2 w12 w21 :
  (0 < k)%nat ->
  Forall (fun f => length (hash f) = (8 * k)%nat) seq1 ->
  Forall (fun f => length (hash f) = (8 * k)%nat) seq2 ->
  calculateSequenceSimilarityDTW seq1 seq2 = Value w12 ->
  calculateSequenceSimilarityDTW seq2 seq1 = Value w21 ->
  Num.equiv w12 w21.
Proof.
  intros Hk H1 H2. rewrite !(window_score k) by done.
  intros [= <-] [= <-]. rewrite (Nat.max_comm (length seq2)).
  apply dtwScore_equiv.
  apply (dtwTable_transpose _ _ (length seq1) (length seq2)); [|lia|lia].
  intros a b Ha Hb. by rewrite (frameCost_comm k seq1 seq2).
Qed.

Lemma window_score_self k seq1 :
  (0 < k)%nat -> seq1 <> [] ->
  Forall (fun f => length (hash f) = (8 * k)%nat) seq1 ->
  exists w, calculateSequenceSimilarityDTW seq1 seq1 = Value w /\
            Num.equiv w (Fin 1).
Proof.
  intros Hk Hne H1. rewrite (window_score k) by done.
  eexists; split; [reflexivity|]. apply dtwScore_zero.
  - apply (dtwTable_diagonal _ (length seq1)); [| |lia].
    + intros a b Ha Hb. by apply (frameCost_nonneg k).
    + intros a Ha. by apply (frameCost_diagonal k).
  - destruct seq1; [done|]. simpl. lia.
Qed.

Section VideoLoop.
Context (cfg : SimilarityConfig) (k : nat) (Hk : (0 < k)%nat).
Context (s : Q) (Hstep : stepSize cfg = Fin s) (Hs : (0 < s)%Q).
Context (shorterMedia longerMedia : MediaInfo).
Context (Hshort : hashesOf k shorterMedia) (Hlong : hashesOf k longerMedia).
Context (Hne : frames shorterMedia <> []).

(** The loop ends within [n] further iterations once [n] steps lead past
    the last window, and the best similarity stays in the unit interval. *)
Lemma videoLoop_unitRange n : forall t best fuel,
  unitRange best ->
  (duration longerMedia - duration shorterMedia < t + inject_Z (Z.of_nat n) * s)%Q ->
  (n < fuel)%nat ->
  exists v, videoLoop cfg fuel shorterMedia longerMedia (Fin t) best = Value v /\
            unitRange v.
Proof using Hk Hstep Hs Hshort Hlong Hne.
  induction n as [|n IH]; intros t best fuel Hbest Hn Hfuel;
    (destruct fuel as [|fuel]; [lia|]); simpl.
  - destruct (Qle_bool t _) eqn:E; [|eauto].
    apply Qle_bool_iff in E. change (inject_Z (Z.of_nat 0)) with 0%Q in Hn. lra.
  - destruct (Qle_bool t _) eqn:E; [|eauto].
    destruct (window_score_atMostOne k
                (getFramesInTimeRange longerMedia (Fin t)
                   (Fin (t + duration shorterMedia)))
                (frames shorterMedia)) as (w & -> & Hw);
      [done|done|by apply getFramesInTimeRange_hashes|done|].
    rewrite bind_Value.
    pose proof (max_unitRange best w Hbest Hw) as Hmax.
    destruct (Num.ge _ _); [eauto|].
    rewrite Hstep. simpl. apply IH; [done| |lia].
    rewrite Nat2Z.inj_succ, <- Z.add_1_r, inject_Z_plus in Hn.
    change (inject_Z 1) with 1%Q in Hn. lra.
Qed.

(** With equal durations there is one window, the whole of the longer
    media. *)
Lemma videoLoop_single fuel :
  (duration shorterMedia == duration longerMedia)%Q -> inWindow longerMedia ->
  (2 <= fuel)%nat ->
  exists w, calculateSequenceSimilarityDTW (frames longerMedia) (frames shorterMedia)
              = Value w /\
    videoLoop cfg fuel shorterMedia longerMedia (Num.of_Z 0) (Num.of_Z 0)
      = Value (Num.max (Num.of_Z 0) w).
Proof using Hk Hstep Hs Hshort Hlong Hne.
  intros Hd Hin Hfuel.
  destruct (window_score_atMostOne k (frames longerMedia) (frames shorterMedia))
    as (w & Hw & Hw1); [done..|].
  exists w. split; [done|].
  destruct fuel as [|[|fuel]]; [lia|lia|].
  cbn [videoLoop].
  assert (E : Num.le (Num.of_Z 0) (Fin (duration longerMedia - duration shorterMedia)) = true).
  { apply Qle_bool_iff. change (inject_Z 0) with 0%Q. lra. }
  rewrite E, getFramesInTimeRange_all, Hw, bind_Value by (done || lra).
  destruct (Num.ge _ _); [done|].
  rewrite Hstep.
  assert (E' : Num.le (Num.add (Num.of_Z 0) (Fin s))
                 (Fin (duration longerMedia - duration shorterMedia)) = false).
  { apply Qle_bool_false. change (inject_Z 0) with 0%Q. lra. }
  by rewrite E'.
Qed.

End VideoLoop.


(** ** The similarity of two media *)

Lemma videoFuel_reaches (s d1 d2 dl ds : Q) :
  (0 < s)%Q -> (dl - ds <= Qabs (d1 - d2))%Q ->
  (dl - ds < 0 + inject_Z (Z.of_nat (S (Z.to_nat (Qfloor (Qabs (d1 - d2) / s))))) * s)%Q.
Proof.
  intros Hs Hd. set (x := (Qabs (d1 - d2) / s)%Q).
  pose proof (Qlt_floor x) as Hx.
  assert (Hz : Qfloor x + 1 <= Z.of_nat (S (Z.to_nat (Qfloor x)))) by lia.
  rewrite Zle_Qle in Hz.
  assert (Hxs : (x * s == Qabs (d1 - d2))%Q).
  { unfold x. field. lra. }
  assert (x * s < inject_Z (Z.of_nat (S (Z.to_nat (Qfloor x)))) * s)%Q.
  { apply Qmult_lt_compat_r; [done|]. lra. }
  lra.
Qed.

Lemma unitRange_Fin v : unitRange v -> exists q, v = Fin q /\ (0 <= q /\ q <= 1)%Q.
Proof. destruct v; try done. eauto. Qed.

Section Similarity.
Context (cfg : SimilarityConfig) (k : nat) (Hk : (0 < k)%nat).
Context (s : Q) (Hstep : stepSize cfg = Fin s) (Hs : (0 < s)%Q).

Lemma calculateVideoSimilarity_pair m1 m2 fuel :
  frames m1 <> [] -> frames m2 <> [] -> hashesOf k m1 -> hashesOf k m2 ->
  ((duration m1 == duration m2)%Q -> inWindow m1 /\ inWindow m2) ->
  (videoFuel s m1 m2 <= fuel)%nat ->
  exists v12 v21,
    calculateVideoSimilarity cfg fuel m1 m2 = Value (Fin v12) /\
    calculateVideoSimilarity cfg fuel m2 m1 = Value (Fin v21) /\
    (v12 == v21)%Q /\ (0 <= v12 /\ v12 <= 1)%Q.
Proof using Hk Hstep Hs.
  intros Hne1 Hne2 Hh1 Hh2 Hwin Hfuel. unfold calculateVideoSimilarity, videoFuel in *.
  destruct (Qle_bool (duration m1) (duration m2)) eqn:E12,
           (Qle_bool (duration m2) (duration m1)) eqn:E21; q_bools.
  - (* equal durations: one window each way *)
    assert (Hd : (duration m1 == duration m2)%Q) by lra.
    destruct (Hwin Hd) as [Hw1 Hw2].
    destruct (videoLoop_single cfg k Hk s Hstep Hs m1 m2 Hh1 Hh2 Hne1 fuel)
      as (w12 & Hw12 & ->); [done|done|lia|].
    destruct (videoLoop_single cfg k Hk s Hstep Hs m2 m1 Hh2 Hh1 Hne2 fuel)
      as (w21 & Hw21 & ->); [lra|done|lia|].
    pose proof (window_score_comm k _ _ _ _ Hk Hh2 Hh1 Hw12 Hw21) as Hcomm.
    destruct (window_score_atMostOne k (frames m2) (frames m1) Hk Hne1 Hh2 Hh1)
      as (w & Hw & Hone).
    rewrite Hw12 in Hw. injection Hw as <-.
    pose proof (max_unitRange _ _ unitRange_zero Hone) as Hr.
    pose proof (max_equiv (Num.of_Z 0) _ _ Hcomm) as He.
    destruct (Num.max (Num.of_Z 0) w12) as [v12| | |]; try done.
    destruct (Num.max (Num.of_Z 0) w21) as [v21| | |]; try done.
    by exists v12, v21.
  - (* the first is strictly shorter: the same call both ways *)
    destruct (videoLoop_unitRange cfg k Hk s Hstep Hs m1 m2 Hh1 Hh2 Hne1
                (S (Z.to_nat (Qfloor (Qabs (duration m1 - duration m2) / s))))
                0%Q (Num.of_Z 0) fuel) as (v & Hv & Hr);
      [apply unitRange_zero| |lia|].
    { apply videoFuel_reaches; [done|].
      rewrite Qabs_Qminus. apply Qle_Qabs. }
    apply unitRange_Fin in Hr as (q & -> & Hq).
    change (Fin 0) with (Num.of_Z 0) in Hv. rewrite Hv.
    exists q, q. repeat split; try done; lra.
  - (* the second is strictly shorter *)
    destruct (videoLoop_unitRange cfg k Hk s Hstep Hs m2 m1 Hh2 Hh1 Hne2
                (S (Z.to_nat (Qfloor (Qabs (duration m1 - duration m2) / s))))
                0%Q (Num.of_Z 0) fuel) as (v & Hv & Hr);
      [apply unitRange_zero| |lia|].
    { apply videoFuel_reaches; [done|]. apply Qle_Qabs. }
    apply unitRange_Fin in Hr as (q & -> & Hq).
    change (Fin 0) with (Num.of_Z 0) in Hv. rewrite Hv.
    exists q, q. repeat split; try done; lra.
  - lra.
Qed.

Lemma first_frame m :
  frames m <> [] -> hashesOf k m ->
  exists f, frames m !! 0%nat = Some f /\ length (hash f) = (8 * k)%nat.
Proof.
  intros Hne Hh. unfold hashesOf in Hh.
  destruct (frames m) as [|f rest]; [done|]. exists f. split; [done|]. by inversion Hh.
Qed.

Lemma calculateSimilarity_pair m1 m2 fuel :
  frames m1 <> [] -> frames m2 <> [] -> hashesOf k m1 -> hashesOf k m2 ->
  (isImage m1 = false -> isImage m2 = false -> (duration m1 == duration m2)%Q ->
   inWindow m1 /\ inWindow m2) ->
  (videoFuel s m1 m2 <= fuel)%nat ->
  exists v12 v21,
    calculateSimilarity cfg fuel m1 m2 = Value (Fin v12) /\
    calculateSimilarity cfg fuel m2 m1 = Value (Fin v21) /\
    (v12 == v21)%Q /\ (v12 <= 1)%Q /\
    (isImage m1 && isImage m2 = false -> (0 <= v12)%Q).
Proof using Hk Hstep Hs.
  intros Hne1 Hne2 Hh1 Hh2 Hwin Hfuel. unfold calculateSimilarity.
  destruct (first_frame m1 Hne1 Hh1) as (f1 & Hf1 & Hl1).
  destruct (first_frame m2 Hne2 Hh2) as (f2 & Hf2 & Hl2).
  destruct (isImage m1) eqn:I1, (isImage m2) eqn:I2; simpl.
  - rewrite Hf1, Hf2, <- (calculateImageSimilarity_comm k f1 f2) by done.
    destruct (calculateImageSimilarity_le_1 k f1 f2 Hk Hl1 Hl2) as (q & -> & Hq).
    exists q, q. repeat split; try done.
  - destruct (calculateImageVideoSimilarity_unitRange cfg k m1 m2 Hk Hh1 Hh2)
      as (v & -> & Hr).
    apply unitRange_Fin in Hr as (q & -> & Hq).
    exists q, q. repeat split; try done; lra.
  - destruct (calculateImageVideoSimilarity_unitRange cfg k m2 m1 Hk Hh2 Hh1)
      as (v & -> & Hr).
    apply unitRange_Fin in Hr as (q & -> & Hq).
    exists q, q. repeat split; try done; lra.
  - destruct (calculateVideoSimilarity_pair m1 m2 fuel) as (v12 & v21 & -> & -> & He & Hr);
      try done; [by auto|].
    exists v12, v21. repeat split; try done; lra.
Qed.

Lemma calculateSimilarity_self m fuel :
  frames m <> [] -> hashesOf k m -> (isImage m = false -> inWindow m) ->
  (2 <= fuel)%nat ->
  exists v, calculateSimilarity cfg fuel m m = Value (Fin v) /\ (v == 1)%Q.
Proof using Hk Hstep Hs.
  intros Hne Hh Hwin Hfuel. unfold calculateSimilarity.
  destruct (first_frame m Hne Hh) as (f & Hf & Hl).
  destruct (isImage m) eqn:I; simpl.
  - rewrite Hf. by apply (calculateImageSimilarity_self k).
  - unfold calculateVideoSimilarity.
    assert (E : Qle_bool (duration m) (duration m) = true) by (apply Qle_bool_iff; lra).
    rewrite E.
    destruct (videoLoop_single cfg k Hk s Hstep Hs m m Hh Hh Hne fuel)
      as (w & Hw & ->); [lra|by auto|lia|].
    destruct (window_score_self k (frames m) Hk Hne Hh) as (w' & Hw' & H1).
    rewrite Hw in Hw'. injection Hw' as <-.
    pose proof (max_zero_one w H1) as Hm.
    destruct (Num.max (Num.of_Z 0) w) as [v| | |]; try done. eauto.
Qed.

End Similarity.

(** C1, as the code has it.  For two media with frames, all hashes of one
    positive whole number of 64-bit words, a positive step and, for two
    videos of equal duration, every frame stamped within the duration: the
    similarity is the same in both orders and at most 1, and it is at least
    0 as soon as one of the two is a video; a media whose frames are stamped
    within its duration has similarity 1 to itself. *)
Theorem calculateSimilarity_symmetric_bounded cfg k s m1 m2 fuel :
  (0 < k)%nat -> stepSize cfg = Fin s -> (0 < s)%Q ->
  frames m1 <> [] -> frames m2 <> [] -> hashesOf k m1 -> hashesOf k m2 ->
  (isImage m1 = false -> isImage m2 = false -> (duration m1 == duration m2)%Q ->
   inWindow m1 /\ inWindow m2) ->
  (videoFuel s m1 m2 <= fuel)%nat ->
  (exists v12 v21,
     calculateSimilarity cfg fuel m1 m2 = Value (Fin v12) /\
     calculateSimilarity cfg fuel m2 m1 = Value (Fin v21) /\
     (v12 == v21)%Q /\ (v12 <= 1)%Q /\
     (isImage m1 && isImage m2 = false -> (0 <= v12)%Q)) /\
  ((isImage m1 = false -> inWindow m1) ->
   exists v, calculateSimilarity cfg fuel m1 m1 = Value (Fin v) /\ (v == 1)%Q).
Proof.
  intros Hk Hstep Hs Hne1 Hne2 Hh1 Hh2 Hwin Hfuel. split.
  - by apply (calculateSimilarity_pair cfg k Hk s).
  - intros Hw. apply (calculateSimilarity_self cfg k Hk s); try done.
    unfold videoFuel in Hfuel. lia.
Qed.

Lemma calculateSimilarity_symmetric_bounded_witness :
  exists v12 v21,
    calculateSimilarity sampleConfig 2 clipA clipD = Value (Fin v12) /\
    calculateSimilarity sampleConfig 2 clipD clipA = Value (Fin v21) /\
    (v12 == v21)%Q /\ (v12 <= 1)%Q /\ (0 <= v12)%Q.
Proof.
  destruct (calculateSimilarity_symmetric_bounded sampleConfig 1 1 clipA clipD 2)
    as [(v12 & v21 & H12 & H21 & He & H1 & H0) _].
  - lia.
  - reflexivity.
  - reflexivity.
  - discriminate.
  - discriminate.
  - repeat constructor.
  - repeat constructor.
  - intros _ _ _. split; repeat constructor; simpl; discriminate.
  - vm_compute. lia.
  - exists v12, v21. repeat split; try done. by apply H0.
Defined.

(** C1, as stated, fails.  Two one-second clips with one frame each, the
    same 64-bit hash, the frame of the second stamped after the end of the
    clip: the similarity is 0 in one order and 1 in the other.  And a clip
    with a frame stamped after its end has similarity 0 to itself. *)
Lemma calculateSimilarity_not_symmetric :
  frames clipA <> [] /\ frames clipB <> [] /\ hashesOf 1 clipA /\ hashesOf 1 clipB /\
  calculateSimilarity sampleConfig 2 clipA clipB = Value (Fin 0) /\
  calculateSimilarity sampleConfig 2 clipB clipA = Value (Fin (64 # 64)) /\
  ~ (0 == 64 # 64)%Q /\
  frames clipC <> [] /\ hashesOf 1 clipC /\
  calculateSimilarity sampleConfig 2 clipC clipC = Value (Fin 0).
Proof.
  repeat split; try discriminate; try (repeat constructor); try reflexivity.
Qed.

(** Between two images the lower bound is lost with the distance: on the
    two stills whose hashes differ in one bit the similarity is
    [1 - 257/64], below 0. *)
Lemma calculateSimilarity_images_below_zero :
  calculateSimilarity sampleConfig 0 stillBit stillZero
    = Value (Num.sub (Num.of_Z 1) (Num.div (Num.of_Z 257) (Num.of_Z 64))) /\
  Num.lt (Num.sub (Num.of_Z 1) (Num.div (Num.of_Z 257) (Num.of_Z 64))) (Num.of_Z 0) = true.
Proof. split; reflexivity. Qed.


(** C5 (the DTW row and its result; empty inputs give 0).  The row and the
    result are as described ([dtwRow_table],
    [calculateSequenceSimilarityDTW_table]), but with an empty sequence the
    function does not return 0: the last cell of the row is still
    [Infinity], so the result is minus infinity, and with two empty
    sequences it is [0/0], NaN. *)
Theorem calculateSequenceSimilarityDTW_empty :
  calculateSequenceSimilarityDTW [] [frameAt zero8 0] = Value NInf /\
  calculateSequenceSimilarityDTW [frameAt zero8 0] [] = Value NInf /\
  calculateSequenceSimilarityDTW [] [] = Value NaN.
Proof. repeat split; reflexivity. Qed.

(** C6 (a media without frames has similarity 0 to every media).  Only the
    image-video branch has the guard
    ([calculateImageVideoSimilarity_empty]).  Between two images the first
    frame of the empty one is [undefined] and reading its hash throws;
    between two videos without frames the window score is NaN and so is the
    result. *)
Theorem calculateSimilarity_empty_frames :
  (forall fuel, calculateSimilarity sampleConfig fuel stillEmpty stillZero
                = Throws TypeError) /\
  (forall fuel, (3 <= fuel)%nat ->
     calculateSimilarity sampleConfig fuel clipEmpty1 clipEmpty2 = Value NaN).
Proof.
  split.
  - intros fuel. reflexivity.
  - intros fuel Hfuel. do 3 (destruct fuel as [|fuel]; [lia|]). reflexivity.
Qed.


(** ** The cache *)

Section CacheFacts.
Context {TConfig TResult : Type}.
Context (JSON_stringify : TConfig -> string).
Context (truthy : TResult -> bool).
Context (processFile : string -> TResult).
(** The serialization is canonical: equal strings come from equal configs;
    and results are objects, which are truthy. *)
Context (Hcanonical : forall c1 c2, JSON_stringify c1 = JSON_stringify c2 -> c1 = c2).
Context (Hobjects : forall r, truthy r = true).

Abbreviation process := (process JSON_stringify truthy processFile).
Abbreviation recompute := (recompute processFile).

Lemma isConfigValid_iff config cachedConfig :
  isConfigValid JSON_stringify config cachedConfig = true <-> cachedConfig = Some config.
Proof using Hcanonical.
  unfold isConfigValid. rewrite bool_decide_eq_true.
  destruct cachedConfig as [c|]; simpl; split; try done.
  - intros [= H]. f_equal. by apply Hcanonical.
  - by intros [= ->].
Qed.

Lemma process_hit config filePath st cachedResult :
  db st !! filePath = Some cachedResult -> configDb st !! filePath = Some config ->
  process config filePath st = (cachedResult, st).
Proof using Hcanonical Hobjects.
  intros Hdb Hcfg. unfold process, getHashKey.
  rewrite (proj2 (isConfigValid_iff config _) Hcfg), Hdb. by rewrite Hobjects.
Qed.

Lemma process_miss config filePath st :
  ~ (exists cachedResult, db st !! filePath = Some cachedResult /\
                          configDb st !! filePath = Some config) ->
  process config filePath st = recompute config filePath st.
Proof using Hcanonical Hobjects.
  intros Hmiss. unfold process, getHashKey.
  destruct (isConfigValid _ _ _) eqn:E; [|done].
  apply isConfigValid_iff in E.
  destruct (db st !! filePath) as [r|] eqn:Hdb; [|done].
  exfalso. apply Hmiss. eauto.
Qed.

(** C9, amended.  When the serialization is canonical and every result is
    truthy (the two assumptions of this section): [process] returns the
    stored value, leaving the stores alone and [processFile] uncalled,
    exactly when both stores have an entry for the path and the stored
    config is the current one; otherwise (no entry, or an entry made under
    another config) it runs [processFile], returns its result and stores
    the result and the current config; after either, the next [process]
    under the same config is a hit on that result. *)
Theorem process_cached_iff_config_equal config filePath st :
  let hit := exists cachedResult,
    db st !! filePath = Some cachedResult /\ configDb st !! filePath = Some config in
  let '(result, st') := process config filePath st in
  (forall cachedResult,
     db st !! filePath = Some cachedResult -> configDb st !! filePath = Some config ->
     result = cachedResult /\ st' = st) /\
  (~ hit ->
     result = processFile filePath /\
     db st' = <[filePath := processFile filePath]> (db st) /\
     configDb st' = <[filePath := config]> (configDb st) /\
     computed st' = computed st ++ [filePath]) /\
  (computed st' = computed st <-> hit) /\
  (forall otherConfig, configDb st !! filePath = Some otherConfig ->
     otherConfig <> config -> computed st' = computed st ++ [filePath]) /\
  db st' !! filePath = Some result /\ configDb st' !! filePath = Some config /\
  process config filePath st' = (result, st').
Proof using Hcanonical Hobjects.
  intros hit.
  assert (Hdec : hit \/ ~ hit).
  { unfold hit. destruct (db st !! filePath) as [cached|] eqn:Hdb.
    - destruct (isConfigValid JSON_stringify config (configDb st !! filePath)) eqn:E.
      + apply isConfigValid_iff in E. left. eauto.
      + right. intros (r & _ & Hc). apply isConfigValid_iff in Hc. congruence.
    - right. intros (r & Hr & _). done. }
  destruct Hdec as [(cached & Hdb & Hcfg)|Hmiss].
  - rewrite (process_hit config filePath st cached) by done.
    split; [intros r Hr _; split; congruence|].
    split; [intros Hmiss; exfalso; apply Hmiss; by exists cached|].
    split; [split; [intros _; by exists cached|done]|].
    split; [intros c Hc Hne; congruence|].
    split; [done|]. split; [done|]. by apply process_hit.
  - rewrite process_miss by done. unfold recompute, getHashKey; simpl.
    split; [intros r Hr Hc; exfalso; apply Hmiss; by exists r|].
    split; [done|].
    split.
    { split; [|done]. intros Hc. apply (f_equal length) in Hc.
      rewrite length_app in Hc. simpl in Hc. lia. }
    split; [done|].
    split; [by rewrite lookup_insert_eq|].
    split; [by rewrite lookup_insert_eq|].
    apply process_hit; simpl; by rewrite lookup_insert_eq.
Qed.

End CacheFacts.

Lemma process_cached_iff_config_equal_witness :
  let st0 : @JobState string nat := {| db := ∅; configDb := ∅; computed := [] |} in
  let run := process (fun c : string => c) (fun _ : nat => true) String.length
               "resolution=64"%string "a.jpg"%string st0 in
  fst run = 5%nat /\ computed (snd run) = ["a.jpg"%string].
Proof.
  intros st0 run.
  pose proof (process_cached_iff_config_equal
                (fun c : string => c) (fun _ : nat => true) String.length
                (fun c1 c2 H => H) (fun _ => eq_refl)
                "resolution=64"%string "a.jpg"%string st0) as H.
  cbv zeta in H. fold run in H. destruct run as [result st'].
  destruct H as (_ & Hmiss & _).
  destruct Hmiss as (-> & _ & _ & Hc); [|simpl; by rewrite Hc].
  intros (r & Hr & _). simpl in Hr. by rewrite lookup_empty in Hr.
Defined.

(** C9 as stated, for every cache state, fails on both assumptions.  A
    stored result that is falsy is not returned although the stored config
    is the current one: [processFile] runs again.  And a stored config is
    taken for the current one when the two have the same JSON text, though
    they differ: the stored result is returned and nothing is computed. *)
Theorem process_cache_not_by_value :
  let st1 : @JobState sampleThreshold Z :=
    {| db := {["a.jpg"%string := 0]};
       configDb := {["a.jpg"%string := ThresholdHalf]};
       computed := [] |} in
  let run1 := process sampleStringify truthy_integer (fun _ => 5)
                ThresholdHalf "a.jpg"%string st1 in
  let st2 : @JobState sampleThreshold Z :=
    {| db := {["a.jpg"%string := 7]};
       configDb := {["a.jpg"%string := ThresholdNaN]};
       computed := [] |} in
  let run2 := process sampleStringify truthy_integer (fun _ => 8)
                ThresholdInfinity "a.jpg"%string st2 in
  (fst run1 = 5 /\ computed (snd run1) = ["a.jpg"%string]) /\
  (ThresholdNaN <> ThresholdInfinity /\ fst run2 = 7 /\ computed (snd run2) = []).
Proof.
  cbv zeta. split; [split; reflexivity|].
  split; [discriminate|]. split; reflexivity.
Qed.


(** ** Sets and arrays *)

Lemma set_has_true s x : set_has s x = true <-> x ∈ s.
Proof. unfold set_has. apply bool_decide_eq_true. Qed.

Lemma set_has_false s x : set_has s x = false <-> x ∉ s.
Proof. unfold set_has. apply bool_decide_eq_false. Qed.

Lemma elem_of_set_add x y s : y ∈ set_add x s <-> y = x \/ y ∈ s.
Proof.
  unfold set_add. destruct (set_has s x) eqn:E.
  - apply set_has_true in E. split; [by right|]. intros [->|]; done.
  - rewrite elem_of_app, list_elem_of_singleton. tauto.
Qed.

Lemma NoDup_set_add x s : NoDup s -> NoDup (set_add x s).
Proof.
  intros Hs. unfold set_add. destruct (set_has s x) eqn:E; [done|].
  apply set_has_false in E. apply NoDup_app. split; [done|].
  split; [|apply NoDup_singleton].
  intros y Hy Hy'. apply list_elem_of_singleton in Hy'. by subst.
Qed.

Lemma elem_of_set_from l x : x ∈ set_from l <-> x ∈ l.
Proof.
  unfold set_from.
  assert (H : forall acc, x ∈ foldl (fun s y => set_add y s) acc l <-> x ∈ acc \/ x ∈ l).
  { induction l as [|y l IH]; intros acc; simpl.
    - rewrite elem_of_nil. tauto.
    - rewrite IH, elem_of_set_add, elem_of_cons. tauto. }
  rewrite H, elem_of_nil. tauto.
Qed.

Lemma NoDup_set_from l : NoDup (set_from l).
Proof.
  unfold set_from.
  assert (H : forall acc, NoDup acc -> NoDup (foldl (fun s y => set_add y s) acc l)).
  { induction l as [|y l IH]; intros acc Hacc; simpl; [done|].
    apply IH. by apply NoDup_set_add. }
  apply H. constructor.
Qed.

Lemma elem_of_List_filter {A} (p : A -> bool) (l : list A) x :
  x ∈ List.filter p l <-> x ∈ l /\ p x = true.
Proof. rewrite !list_elem_of_In. apply filter_In. Qed.

Lemma List_filter_length {A} (p : A -> bool) (l : list A) :
  (length (List.filter p l) <= length l)%nat.
Proof. induction l as [|x l IH]; simpl; [lia|]. destruct (p x); simpl; lia. Qed.

Lemma pop_nil {A} : pop (@nil A) = None.
Proof. reflexivity. Qed.

Lemma pop_snoc {A} (l : list A) x : pop (l ++ [x]) = Some (x, l).
Proof. unfold pop. rewrite reverse_snoc. simpl. by rewrite reverse_involutive. Qed.

Lemma pop_cases {A} (l : list A) :
  (l = [] /\ pop l = None) \/ (exists x l', l = l' ++ [x] /\ pop l = Some (x, l')).
Proof.
  destruct l as [|y l] using rev_ind; [by left|].
  right. exists y, l. split; [done|]. apply pop_snoc.
Qed.

(** A loop whose body never fails and carries an invariant from each
    prefix of the list to the next. *)
Lemma for_each_prefix_invariant {A S} (P : list A -> S -> Prop) (l : list A)
  (body : S -> A -> outcome S) s :
  P [] s ->
  (forall pre x s, P pre s -> x ∈ l -> exists s', body s x = Value s' /\ P (pre ++ [x]) s') ->
  exists s', for_each l body s = Value s' /\ P l s'.
Proof.
  intros Hs Hbody.
  assert (H : forall pre rest s, pre ++ rest = l -> P pre s ->
            exists s', for_each rest body s = Value s' /\ P l s').
  { intros pre rest. revert pre. induction rest as [|x rest IH]; intros pre s0 Hl Hp.
    - rewrite app_nil_r in Hl. subst. simpl. eauto.
    - destruct (Hbody pre x s0 Hp) as (s' & Hb & Hp').
      { rewrite <- Hl. apply elem_of_app. right. by left. }
      simpl. rewrite Hb, bind_Value.
      apply (IH (pre ++ [x])); [by rewrite <- app_assoc|done]. }
  by apply (H [] l s).
Qed.

(** ** Termination measure of the expansion *)

Lemma unvisitedWeight_add_le neighborsOf universe x visited :
  (unvisitedWeight neighborsOf universe (set_add x visited)
   <= unvisitedWeight neighborsOf universe visited)%nat.
Proof.
  unfold unvisitedWeight. induction universe as [|u us IH]; csimpl; [lia|].
  destruct (set_has visited u) eqn:E.
  - apply set_has_true in E.
    rewrite (proj2 (set_has_true _ _)) by (apply elem_of_set_add; by right). lia.
  - destruct (set_has (set_add x visited) u); lia.
Qed.

Lemma unvisitedWeight_add_lt neighborsOf universe x visited :
  x ∈ universe -> x ∉ visited ->
  (unvisitedWeight neighborsOf universe (set_add x visited) + S (length (neighborsOf x))
   <= unvisitedWeight neighborsOf universe visited)%nat.
Proof.
  intros Hx Hv.
  induction universe as [|u us IH]; [by apply elem_of_nil in Hx|].
  pose proof (unvisitedWeight_add_le neighborsOf us x visited) as Hle.
  unfold unvisitedWeight in *. csimpl.
  destruct (decide (u = x)) as [->|Hne].
  - rewrite (proj2 (set_has_true _ _)) by (apply elem_of_set_add; by left).
    rewrite (proj2 (set_has_false _ _)) by done. lia.
  - apply elem_of_cons in Hx as [->|Hx]; [done|].
    specialize (IH Hx).
    destruct (set_has visited u) eqn:E.
    + apply set_has_true in E.
      rewrite (proj2 (set_has_true _ _)) by (apply elem_of_set_add; by right). lia.
    + destruct (set_has (set_add x visited) u); lia.
Qed.


(** ** DBSCAN over one chunk *)

Lemma pairwiseDisjoint_nil : pairwiseDisjoint [].
Proof. intros i j ci cj x Hi. by rewrite lookup_nil in Hi. Qed.

Lemma pairwiseDisjoint_snoc clusters c :
  pairwiseDisjoint clusters ->
  (forall c' x, c' ∈ clusters -> x ∈ c' -> x ∉ c) ->
  pairwiseDisjoint (clusters ++ [c]).
Proof.
  intros Hd Hc i j ci cj x Hi Hj Hne Hx Hx'.
  apply lookup_snoc_Some in Hi as [[Hil Hi]|[Hil <-]];
    apply lookup_snoc_Some in Hj as [[Hjl Hj]|[Hjl <-]].
  - by apply (Hd i j ci cj x).
  - apply (Hc ci x); [by eapply list_elem_of_lookup_2|done|done].
  - apply (Hc cj x); [by eapply list_elem_of_lookup_2|done|done].
  - lia.
Qed.

Section DbscanFacts.
Context (cfg : SimilarityConfig) (processFile : string -> FileInfo).
Context (vpTree : VPTree) (universe : list string).
Context (Htree : treeWithin vpTree universe).

Let neighborsOf (p : string) : list string :=
  getValidNeighbors cfg processFile p vpTree (eps cfg).

Lemma getValidNeighbors_within p e x :
  x ∈ getValidNeighbors cfg processFile p vpTree e -> x ∈ universe.
Proof using Htree.
  unfold getValidNeighbors. intros Hx.
  apply list_elem_of_fmap in Hx as (nb & -> & Hnb).
  apply elem_of_List_filter in Hnb as [Hnb _]. by eapply Htree.
Qed.

Lemma expandCluster_S fuel stack visited cluster :
  expandCluster cfg processFile (S fuel) vpTree stack visited cluster =
  match pop stack with
  | None => Value (visited, cluster)
  | Some (current, stack) =>
      if set_has visited current then
        expandCluster cfg processFile fuel vpTree stack visited cluster
      else
        expandCluster cfg processFile fuel vpTree
          (if bool_decide (minPts <= length (neighborsOf current))%nat then
             stack ++ List.filter
                        (fun neighbor => negb (set_has (set_add current visited) neighbor))
                        (neighborsOf current)
           else stack)
          (set_add current visited) (set_add current cluster)
  end.
Proof. reflexivity. Qed.

(** The expansion ends within the fuel that the unvisited points and the
    stack call for; what it adds to [visited] is what it adds to the
    cluster. *)
Lemma expandCluster_spec fuel : forall stack visited cluster,
  (forall x, x ∈ stack -> x ∈ universe) ->
  (length stack + unvisitedWeight neighborsOf universe visited < fuel)%nat ->
  exists visited' cluster',
    expandCluster cfg processFile fuel vpTree stack visited cluster
      = Value (visited', cluster') /\
    (forall x, x ∈ visited -> x ∈ visited') /\
    (forall x, x ∈ cluster -> x ∈ cluster') /\
    (forall x, x ∈ visited' -> x ∈ visited \/ x ∈ cluster') /\
    (forall x, x ∈ cluster' ->
       x ∈ cluster \/ ((x ∉ visited) /\ x ∈ visited' /\ x ∈ universe)) /\
    (NoDup cluster -> NoDup cluster').
Proof using Htree.
  induction fuel as [|fuel IH]; intros stack visited cluster Hstack Hfuel; [lia|].
  rewrite expandCluster_S.
  destruct (pop_cases stack) as [[-> ->]|(current & rest & -> & ->)].
  { exists visited, cluster. repeat split; auto. }
  rewrite length_app in Hfuel. simpl in Hfuel.
  assert (Hrest : forall x, x ∈ rest -> x ∈ universe).
  { intros x Hx. apply Hstack, elem_of_app. by left. }
  assert (Hcur : current ∈ universe).
  { apply Hstack, elem_of_app. right. by left. }
  destruct (set_has visited current) eqn:Hvis.
  { apply IH; [done|lia]. }
  apply set_has_false in Hvis.
  pose proof (unvisitedWeight_add_lt neighborsOf universe current visited Hcur Hvis) as Hw.
  edestruct (IH (if bool_decide (minPts <= length (neighborsOf current))%nat then
                   rest ++ List.filter
                        (fun neighbor => negb (set_has (set_add current visited) neighbor))
                        (neighborsOf current)
                 else rest)
                (set_add current visited) (set_add current cluster))
    as (visited' & cluster' & -> & HA & HB & HC & HD & HE).
  { intros x Hx. case_bool_decide; [|by apply Hrest].
    apply elem_of_app in Hx as [Hx|Hx]; [by apply Hrest|].
    apply elem_of_List_filter in Hx as [Hx _].
    by apply (getValidNeighbors_within current (eps cfg)). }
  { case_bool_decide; [|lia].
    rewrite length_app.
    pose proof (List_filter_length
      (fun neighbor => negb (set_has (set_add current visited) neighbor))
      (neighborsOf current)). lia. }
  exists visited', cluster'. split; [done|].
  split; [intros x Hx; apply HA, elem_of_set_add; by right|].
  split; [intros x Hx; apply HB, elem_of_set_add; by right|].
  split.
  { intros x Hx. destruct (HC x Hx) as [Hx'|Hx']; [|by right].
    apply elem_of_set_add in Hx' as [->|Hx']; [|by left].
    right. apply HB, elem_of_set_add. by left. }
  split.
  { intros x Hx. destruct (HD x Hx) as [Hx'|(Hx1 & Hx2 & Hx3)].
    - apply elem_of_set_add in Hx' as [->|Hx']; [|by left].
      right. split; [done|]. split; [|done]. apply HA, elem_of_set_add. by left.
    - right. split; [|done]. intros Hv. apply Hx1, elem_of_set_add. by right. }
  intros Hnd. by apply HE, NoDup_set_add.
Qed.

Lemma scanPoint_spec fuel st point0 :
  scanInvariant universe st -> point0 ∈ universe ->
  (dbscanFuel cfg processFile vpTree universe <= fuel)%nat ->
  exists st', scanPoint cfg processFile fuel vpTree st point0 = Value st' /\
    scanInvariant universe st' /\
    point0 ∈ snd st' /\ (forall x, x ∈ snd st -> x ∈ snd st').
Proof using Htree.
  destruct st as [clusters visited].
  intros (Hin & Hcov & Hdis & Hsets & Huni) Hp Hfuel. unfold scanPoint.
  destruct (set_has visited point0) eqn:Hvis.
  { apply set_has_true in Hvis. exists (clusters, visited). by repeat split. }
  apply set_has_false in Hvis.
  fold (neighborsOf point0).
  case_bool_decide as Hlen.
  - (* fewer than minPts validated neighbours: a singleton *)
    eexists; split; [reflexivity|]. simpl.
    split; [|split; [apply elem_of_set_add; by left
                    |intros x Hx; apply elem_of_set_add; by right]].
    split.
    { intros c x Hc Hx. apply elem_of_set_add.
      apply elem_of_app in Hc as [Hc|Hc]; [right; by eapply Hin|].
      apply list_elem_of_singleton in Hc as ->.
      apply list_elem_of_singleton in Hx as ->. by left. }
    split.
    { intros x Hx. apply elem_of_set_add in Hx as [->|Hx].
      - exists [point0]. split; [apply elem_of_app; right|]; by left.
      - destruct (Hcov x Hx) as (c & Hc & Hxc). exists c.
        split; [apply elem_of_app; by left|done]. }
    split.
    { apply pairwiseDisjoint_snoc; [done|].
      intros c x Hc Hx Hx'. apply list_elem_of_singleton in Hx' as ->.
      apply Hvis. by eapply Hin. }
    split.
    { apply Forall_app. split; [done|]. constructor; [|constructor].
      split; [apply NoDup_singleton|done]. }
    intros c x Hc Hx.
    apply elem_of_app in Hc as [Hc|Hc]; [by eapply Huni|].
    apply list_elem_of_singleton in Hc as ->.
    by apply list_elem_of_singleton in Hx as ->.
  - (* a cluster grown from the point *)
    pose proof (unvisitedWeight_add_lt neighborsOf universe point0 visited Hp Hvis) as Hw.
    assert (Hmono : (unvisitedWeight neighborsOf universe visited
                     <= unvisitedWeight neighborsOf universe [])%nat).
    { clear. induction visited as [|v vs IH] using rev_ind; [done|].
      etransitivity; [|exact IH].
      unfold unvisitedWeight. clear IH.
      induction universe as [|u us IHu]; csimpl; [lia|].
      destruct (set_has vs u) eqn:E.
      - apply set_has_true in E.
        rewrite (proj2 (set_has_true _ _)) by (apply elem_of_app; by left). lia.
      - destruct (set_has (vs ++ [v]) u); lia. }
    destruct (expandCluster_spec fuel (neighborsOf point0)
                (set_add point0 visited) (set_from [point0]))
      as (visited' & cluster' & -> & HA & HB & HC & HD & HE).
    { intros x Hx. by apply (getValidNeighbors_within point0 (eps cfg)). }
    { unfold dbscanFuel in Hfuel. fold neighborsOf in Hfuel. lia. }
    rewrite bind_Value. eexists; split; [reflexivity|]. simpl.
    assert (Hpc : point0 ∈ cluster') by (apply HB; by left).
    split; [|split; [apply HA, elem_of_set_add; by left
                    |intros x Hx; apply HA, elem_of_set_add; by right]].
    split.
    { intros c x Hc Hx.
      apply elem_of_app in Hc as [Hc|Hc].
      - apply HA, elem_of_set_add. right. by eapply Hin.
      - apply list_elem_of_singleton in Hc as ->.
        destruct (HD x Hx) as [Hx'|(_ & Hx' & _)]; [|done].
        apply list_elem_of_singleton in Hx' as ->.
        apply HA, elem_of_set_add. by left. }
    split.
    { intros x Hx. destruct (HC x Hx) as [Hx'|Hx'].
      - apply elem_of_set_add in Hx' as [->|Hx'].
        + exists cluster'. split; [apply elem_of_app; right; by left|done].
        + destruct (Hcov x Hx') as (c & Hc & Hxc). exists c.
          split; [apply elem_of_app; by left|done].
      - exists cluster'. split; [apply elem_of_app; right; by left|done]. }
    split.
    { apply pairwiseDisjoint_snoc; [done|].
      intros c x Hc Hx Hx'. pose proof (Hin c x Hc Hx) as Hv.
      destruct (HD x Hx') as [Hx''|(Hx'' & _)].
      - apply list_elem_of_singleton in Hx'' as ->. done.
      - apply Hx'', elem_of_set_add. by right. }
    split.
    { apply Forall_app. split; [done|]. constructor; [|constructor].
      split; [apply HE, NoDup_singleton|]. intros ->. by apply elem_of_nil in Hpc. }
    intros c x Hc Hx.
    apply elem_of_app in Hc as [Hc|Hc]; [by eapply Huni|].
    apply list_elem_of_singleton in Hc as ->.
    destruct (HD x Hx) as [Hx'|(_ & _ & Hx')]; [|done].
    by apply list_elem_of_singleton in Hx' as ->.
Qed.

(** What one run of [workerDBSCAN] returns. *)
Lemma workerDBSCAN_spec fuel chunk :
  (forall p, p ∈ chunk -> p ∈ universe) ->
  (dbscanFuel cfg processFile vpTree universe <= fuel)%nat ->
  exists clusters,
    workerDBSCAN cfg processFile fuel chunk vpTree = Value clusters /\
    pairwiseDisjoint clusters /\
    Forall (fun c => NoDup c /\ c <> []) clusters /\
    (forall c x, c ∈ clusters -> x ∈ c -> x ∈ universe) /\
    (forall p, p ∈ chunk -> exists c, c ∈ clusters /\ p ∈ c).
Proof using Htree.
  intros Hchunk Hfuel. unfold workerDBSCAN.
  destruct (for_each_prefix_invariant
    (fun pre st => scanInvariant universe st /\ forall p, p ∈ pre -> p ∈ snd st)
    chunk (scanPoint cfg processFile fuel vpTree) ([], []))
    as ([clusters visited] & -> & (Hin & Hcov & Hdis & Hsets & Huni) & Hvis).
  - split; [|intros p Hp; by apply elem_of_nil in Hp].
    repeat split.
    + intros c x Hc. by apply elem_of_nil in Hc.
    + intros x Hx. by apply elem_of_nil in Hx.
    + apply pairwiseDisjoint_nil.
    + constructor.
    + intros c x Hc. by apply elem_of_nil in Hc.
  - intros pre p st [Hinv Hpre] Hp.
    destruct (scanPoint_spec fuel st p Hinv (Hchunk p Hp) Hfuel)
      as (st' & -> & Hinv' & Hp' & Hmono).
    exists st'. split; [done|]. split; [done|].
    intros q Hq. apply elem_of_app in Hq as [Hq|Hq]; [by apply Hmono, Hpre|].
    by apply list_elem_of_singleton in Hq as ->.
  - rewrite bind_Value. exists clusters. simpl in *. repeat split; try done.
    intros p Hp. by apply Hcov, Hvis.
Qed.

End DbscanFacts.


(** A loop that ends carries an invariant its body carries. *)
Lemma for_each_prefix_partial {A S} (P : list A -> S -> Prop) (l : list A)
  (body : S -> A -> outcome S) s s' :
  P [] s ->
  (forall pre x s s', P pre s -> x ∈ l -> body s x = Value s' -> P (pre ++ [x]) s') ->
  for_each l body s = Value s' -> P l s'.
Proof.
  intros Hs Hbody.
  assert (H : forall rest pre s, pre ++ rest = l -> P pre s ->
            for_each rest body s = Value s' -> P l s').
  { induction rest as [|x rest IH]; intros pre s0 Hl Hp; simpl.
    - rewrite app_nil_r in Hl. subst. by intros [= <-].
    - destruct (body s0 x) as [s1| |] eqn:Hb; try done. rewrite bind_Value.
      apply (IH (pre ++ [x])); [by rewrite <- app_assoc|].
      apply (Hbody pre x s0 s1); [done| |done].
      rewrite <- Hl. apply elem_of_app. right. by left. }
  by apply (H l []).
Qed.

Section Border.
Context (cfg : SimilarityConfig) (processFile : string -> FileInfo).
Context (vpTree : VPTree).

Let neighborsOf (p : string) : list string :=
  getValidNeighbors cfg processFile p vpTree (eps cfg).

(** A validated neighbour of a point that has at least [minPts] of them. *)
Let reachable (x : string) : Prop :=
  exists q, (minPts <= length (neighborsOf q))%nat /\ x ∈ neighborsOf q.

(** Only what was on the stack, or is pushed later, gets visited. *)
Lemma expandCluster_visits_stack fuel : forall stack visited cluster visited' cluster',
  expandCluster cfg processFile fuel vpTree stack visited cluster
    = Value (visited', cluster') ->
  (forall x, x ∈ stack -> reachable x) ->
  forall x, x ∈ visited' -> x ∈ visited \/ reachable x.
Proof.
  induction fuel as [|fuel IH]; intros stack visited cluster visited' cluster';
    [done|].
  rewrite expandCluster_S. fold neighborsOf.
  destruct (pop_cases stack) as [[-> ->]|(current & rest & -> & ->)].
  { intros [= <- <-] _ x Hx. by left. }
  intros Hrun Hstack.
  assert (Hrest : forall x, x ∈ rest -> reachable x).
  { intros x Hx. apply Hstack, elem_of_app. by left. }
  assert (Hcur : reachable current).
  { apply Hstack, elem_of_app. right. by left. }
  destruct (set_has visited current) eqn:Hvis.
  { by apply (IH _ _ _ _ _ Hrun). }
  intros x Hx.
  destruct (IH _ _ _ _ _ Hrun) with (x := x) as [Hx'|Hx']; [|done| |by right].
  - intros y Hy. case_bool_decide as Hcore; [|by apply Hrest].
    apply elem_of_app in Hy as [Hy|Hy]; [by apply Hrest|].
    apply elem_of_List_filter in Hy as [Hy _]. by exists current.
  - apply elem_of_set_add in Hx' as [->|Hx']; [by right|by left].
Qed.

Lemma expandCluster_visited_mono fuel : forall stack visited cluster visited' cluster',
  expandCluster cfg processFile fuel vpTree stack visited cluster
    = Value (visited', cluster') ->
  forall x, x ∈ visited -> x ∈ visited'.
Proof.
  induction fuel as [|fuel IH]; intros stack visited cluster visited' cluster';
    [done|].
  rewrite expandCluster_S.
  destruct (pop_cases stack) as [[-> ->]|(current & rest & -> & ->)].
  { by intros [= <- <-]. }
  destruct (set_has visited current); intros Hrun x Hx.
  - by apply (IH _ _ _ _ _ Hrun).
  - apply (IH _ _ _ _ _ Hrun), elem_of_set_add. by right.
Qed.

(** A visited point with too few neighbours is a singleton cluster, unless
    it was reached from a point with enough of them. *)
Lemma scanPoint_singletons fuel st st' point0 :
  scanPoint cfg processFile fuel vpTree st point0 = Value st' ->
  (forall x, x ∈ snd st -> (length (neighborsOf x) < minPts)%nat ->
     [x] ∈ fst st \/ reachable x) ->
  (forall x, x ∈ snd st' -> (length (neighborsOf x) < minPts)%nat ->
     [x] ∈ fst st' \/ reachable x) /\
  point0 ∈ snd st'.
Proof.
  destruct st as [clusters visited]. unfold scanPoint. fold (neighborsOf point0).
  intros Hrun Hinv.
  destruct (set_has visited point0) eqn:Hvis.
  { injection Hrun as <-. split; [done|]. by apply set_has_true. }
  case_bool_decide as Hlen.
  - injection Hrun as <-. simpl. split; [|apply elem_of_set_add; by left].
    intros x Hx Hfew. apply elem_of_set_add in Hx as [->|Hx].
    + left. apply elem_of_app. right. by left.
    + destruct (Hinv x Hx Hfew) as [H|H]; [|by right].
      left. apply elem_of_app. by left.
  - destruct (expandCluster _ _ _ _ _ _ _) as [[visited' cluster']| |] eqn:Hexp;
      try done.
    rewrite bind_Value in Hrun. injection Hrun as <-. simpl.
    pose proof (expandCluster_visits_stack _ _ _ _ _ _ Hexp) as Hvisits.
    split.
    + intros x Hx Hfew.
      destruct (Hvisits) with (x := x) as [Hx'|Hx']; [|done| |by right].
      * intros y Hy. exists point0. split; [lia|done].
      * apply elem_of_set_add in Hx' as [->|Hx']; [lia|].
        destruct (Hinv x Hx' Hfew) as [H|H]; [|by right].
        left. apply elem_of_app. by left.
    + apply (expandCluster_visited_mono _ _ _ _ _ _ Hexp), elem_of_set_add.
      by left.
Qed.

End Border.


(** *** Clusters grow from a seed, and the expansion is complete *)

Section Connected.
Context (cfg : SimilarityConfig) (processFile : string -> FileInfo).
Context (vpTree : VPTree).

Let neighborsOf (p : string) : list string :=
  getValidNeighbors cfg processFile p vpTree (eps cfg).

Let linked (cluster : StrSet) (x : string) : Prop :=
  exists q, q ∈ cluster /\ (minPts <= length (neighborsOf q))%nat /\ x ∈ neighborsOf q.

Lemma expandCluster_connected seed fuel :
  forall stack visited cluster visited' cluster',
  expandCluster cfg processFile fuel vpTree stack visited cluster
    = Value (visited', cluster') ->
  seed ∈ cluster ->
  (forall x, x ∈ stack -> linked cluster x) ->
  (forall x, x ∈ cluster -> x = seed \/ linked cluster x) ->
  seed ∈ cluster' /\ forall x, x ∈ cluster' -> x = seed \/ linked cluster' x.
Proof.
  induction fuel as [|fuel IH]; intros stack visited cluster visited' cluster';
    [done|].
  rewrite expandCluster_S. fold (neighborsOf).
  destruct (pop_cases stack) as [[-> ->]|(current & rest & -> & ->)].
  { intros [= <- <-] Hseed _ Hin. by split. }
  intros Hrun Hseed Hstack Hin.
  assert (Hrest : forall x, x ∈ rest -> linked cluster x).
  { intros x Hx. apply Hstack, elem_of_app. by left. }
  assert (Hcur : linked cluster current).
  { apply Hstack, elem_of_app. right. by left. }
  destruct (set_has visited current) eqn:Hvis.
  { by apply (IH _ _ _ _ _ Hrun). }
  assert (Hgrow : forall x, linked cluster x -> linked (set_add current cluster) x).
  { intros x (q & Hq & Hcore & Hx). exists q. split; [|done].
    apply elem_of_set_add. by right. }
  apply (IH _ _ _ _ _ Hrun).
  - apply elem_of_set_add. by right.
  - intros x Hx. case_bool_decide as Hcore; [|by apply Hgrow, Hrest].
    apply elem_of_app in Hx as [Hx|Hx]; [by apply Hgrow, Hrest|].
    apply elem_of_List_filter in Hx as [Hx _].
    exists current. split; [apply elem_of_set_add; by left|done].
  - intros x Hx. apply elem_of_set_add in Hx as [->|Hx].
    + right. by apply Hgrow.
    + destruct (Hin x Hx) as [?|?]; [by left|right; by apply Hgrow].
Qed.

Lemma scanPoint_connected fuel (chunk : list string) st st' point0 :
  scanPoint cfg processFile fuel vpTree st point0 = Value st' ->
  point0 ∈ chunk ->
  Forall (fun c => exists seed, seed ∈ chunk /\ densityConnected neighborsOf c seed)
    (fst st) ->
  Forall (fun c => exists seed, seed ∈ chunk /\ densityConnected neighborsOf c seed)
    (fst st').
Proof.
  destruct st as [clusters visited]. unfold scanPoint. fold (neighborsOf point0).
  intros Hrun Hp Hinv. simpl in Hinv.
  destruct (set_has visited point0) eqn:Hvis.
  { by injection Hrun as <-. }
  case_bool_decide as Hlen.
  - injection Hrun as <-. simpl. apply Forall_app. split; [done|].
    constructor; [|constructor]. exists point0. split; [done|].
    split; [by left|]. split; [by left|].
    intros x Hx. left. by apply list_elem_of_singleton in Hx.
  - destruct (expandCluster _ _ _ _ _ _ _) as [[visited' cluster']| |] eqn:Hexp;
      try done.
    rewrite bind_Value in Hrun. injection Hrun as <-. simpl.
    apply Forall_app. split; [done|]. constructor; [|constructor].
    exists point0. split; [done|].
    destruct (expandCluster_connected point0 _ _ _ _ _ _ Hexp) as [Hseed Hlinked].
    + by left.
    + intros x Hx. exists point0. split; [by left|]. split; [lia|done].
    + intros x Hx. left. by apply list_elem_of_singleton in Hx.
    + split; [done|]. split; [right; lia|done].
Qed.

End Connected.

Section Closed.
Context (cfg : SimilarityConfig) (processFile : string -> FileInfo).
Context (vpTree : VPTree).

Let neighborsOf (p : string) : list string :=
  getValidNeighbors cfg processFile p vpTree (eps cfg).

(** The expansion loop leaves no neighbour of a member with at least
    [minPts] neighbours unvisited, and visits nothing it does not add to the
    cluster. *)
Lemma expandCluster_closed fuel :
  forall stack visited cluster visited' cluster',
  expandCluster cfg processFile fuel vpTree stack visited cluster
    = Value (visited', cluster') ->
  (forall q, q ∈ cluster -> (minPts <= length (neighborsOf q))%nat ->
     forall x, x ∈ neighborsOf q -> x ∈ visited \/ x ∈ stack) ->
  (forall q, q ∈ cluster' -> (minPts <= length (neighborsOf q))%nat ->
     forall x, x ∈ neighborsOf q -> x ∈ visited') /\
  (forall x, x ∈ cluster -> x ∈ cluster') /\
  (forall x, x ∈ visited' -> x ∈ visited \/ x ∈ cluster').
Proof.
  induction fuel as [|fuel IH]; intros stack visited cluster visited' cluster';
    [done|].
  rewrite expandCluster_S. fold (neighborsOf).
  destruct (pop_cases stack) as [[-> ->]|(current & rest & -> & ->)].
  { intros [= <- <-] Hin. split; [|split; [done|by left]].
    intros q Hq Hcore x Hx. destruct (Hin q Hq Hcore x Hx) as [?|Hnil]; [done|].
    by apply elem_of_nil in Hnil. }
  intros Hrun Hin.
  destruct (set_has visited current) eqn:Hvis.
  { apply set_has_true in Hvis. apply (IH _ _ _ _ _ Hrun).
    intros q Hq Hcore x Hx. destruct (Hin q Hq Hcore x Hx) as [?|Hst]; [by left|].
    apply elem_of_app in Hst as [?|Hst]; [by right|].
    apply list_elem_of_singleton in Hst as ->. by left. }
  destruct (IH _ _ _ _ _ Hrun) as (Hclosed & Hcluster & Hvisited).
  { intros q Hq Hcore x Hx.
    destruct (decide (x ∈ set_add current visited)) as [|Hnew]; [by left|]. right.
    assert (Hx' : x ∈ rest \/ (q = current /\ x ∈ neighborsOf current)).
    { apply elem_of_set_add in Hq as [->|Hq]; [by right|].
      destruct (Hin q Hq Hcore x Hx) as [Hv|Hst].
      - exfalso. apply Hnew, elem_of_set_add. by right.
      - apply elem_of_app in Hst as [?|Hst]; [by left|].
        apply list_elem_of_singleton in Hst as ->.
        exfalso. apply Hnew, elem_of_set_add. by left. }
    destruct Hx' as [Hrest|[-> Hcur]].
    - case_bool_decide; [apply elem_of_app; by left|done].
    - rewrite bool_decide_eq_true_2 by done.
      apply elem_of_app. right. apply elem_of_List_filter. split; [done|].
      apply negb_true_iff, set_has_false. done. }
  split; [done|]. split.
  - intros x Hx. apply Hcluster, elem_of_set_add. by right.
  - intros x Hx. destruct (Hvisited x Hx) as [Hv|?]; [|by right].
    apply elem_of_set_add in Hv as [->|?]; [|by left].
    right. apply Hcluster, elem_of_set_add. by left.
Qed.

(** Between two points of the chunk: every visited path is in a cluster,
    and the neighbours of a member with at least [minPts] neighbours are in
    its cluster or in an earlier one. *)
Let closedUpTo (st : list StrSet * StrSet) : Prop :=
  (forall x, x ∈ snd st -> exists j c, fst st !! j = Some c /\ x ∈ c) /\
  (forall i c q x, fst st !! i = Some c -> q ∈ c ->
     (minPts <= length (neighborsOf q))%nat -> x ∈ neighborsOf q ->
     exists j c', (j <= i)%nat /\ fst st !! j = Some c' /\ x ∈ c').

Lemma scanPoint_closed fuel st st' point0 :
  scanPoint cfg processFile fuel vpTree st point0 = Value st' ->
  closedUpTo st -> closedUpTo st'.
Proof.
  destruct st as [clusters visited]. unfold scanPoint. fold (neighborsOf point0).
  intros Hrun [Hcov Hclosed]. simpl in Hcov, Hclosed.
  destruct (set_has visited point0) eqn:Hvis.
  { injection Hrun as <-. by split. }
  assert (Hsnoc : forall (new : StrSet) x,
            (x ∈ visited \/ x ∈ new) ->
            exists j c, (clusters ++ [new]) !! j = Some c /\ x ∈ c /\
                        (j <= length clusters)%nat).
  { intros new x [Hx|Hx].
    - destruct (Hcov x Hx) as (j & c & Hj & Hc). exists j, c.
      split; [by apply lookup_app_l_Some|]. split; [done|].
      apply lookup_lt_Some in Hj. lia.
    - exists (length clusters), new. split; [|done].
      rewrite lookup_app_r by lia. by rewrite Nat.sub_diag. }
  assert (Hkeep : forall (new : StrSet) i c q x,
            clusters !! i = Some c -> q ∈ c ->
            (minPts <= length (neighborsOf q))%nat -> x ∈ neighborsOf q ->
            exists j c', (j <= i)%nat /\ (clusters ++ [new]) !! j = Some c' /\ x ∈ c').
  { intros new i c q x Hc Hq Hcore Hx.
    destruct (Hclosed i c q x Hc Hq Hcore Hx) as (j & c' & Hj & Hc' & Hxc).
    exists j, c'. split; [done|]. split; [by apply lookup_app_l_Some|done]. }
  case_bool_decide as Hlen.
  - injection Hrun as <-. split; simpl.
    + intros x Hx. apply elem_of_set_add in Hx.
      destruct (Hsnoc (set_from [point0]) x) as (j & c & ? & ? & _).
      { destruct Hx as [->|?]; [right; by left|by left]. }
      eauto.
    + intros i c q x Hc Hq Hcore Hx.
      apply lookup_snoc_Some in Hc as [[_ Hc]|[-> <-]]; [by eapply Hkeep|].
      apply list_elem_of_singleton in Hq as ->. lia.
  - destruct (expandCluster _ _ _ _ _ _ _) as [[visited' cluster']| |] eqn:Hexp;
      try done.
    rewrite bind_Value in Hrun. injection Hrun as <-. simpl.
    destruct (expandCluster_closed _ _ _ _ _ _ Hexp)
      as (Hnb & Hcluster & Hvisited).
    { intros q Hq _ x Hx. apply list_elem_of_singleton in Hq as ->. by right. }
    assert (Hcovered : forall x, x ∈ visited' -> x ∈ visited \/ x ∈ cluster').
    { intros x Hx. destruct (Hvisited x Hx) as [Hv|?]; [|by right].
      apply elem_of_set_add in Hv as [->|?]; [|by left].
      right. apply Hcluster. by left. }
    split.
    + intros x Hx. destruct (Hsnoc cluster' x (Hcovered x Hx)) as (j & c & ? & ? & _).
      eauto.
    + intros i c q x Hc Hq Hcore Hx.
      apply lookup_snoc_Some in Hc as [[_ Hc]|[-> <-]]; [by eapply Hkeep|].
      destruct (Hsnoc cluster' x (Hcovered x (Hnb q Hq Hcore x Hx)))
        as (j & c' & ? & ? & ?).
      exists j, c'. split; [lia|done].
Qed.

Lemma workerDBSCAN_closed fuel chunk clusters :
  workerDBSCAN cfg processFile fuel chunk vpTree = Value clusters ->
  forall i c q x, clusters !! i = Some c -> q ∈ c ->
    (minPts <= length (neighborsOf q))%nat -> x ∈ neighborsOf q ->
    exists j c', (j <= i)%nat /\ clusters !! j = Some c' /\ x ∈ c'.
Proof.
  unfold workerDBSCAN. intros Hrun.
  destruct (for_each chunk _ _) as [st| |] eqn:Hloop; try done.
  rewrite bind_Value in Hrun. injection Hrun as <-.
  apply (for_each_prefix_partial (fun _ st => closedUpTo st)
           chunk (scanPoint cfg processFile fuel vpTree) ([], []) st);
    [|by intros pre p s s' Hs _ Hstep; eapply scanPoint_closed|exact Hloop].
  split.
  - intros x Hx. by apply elem_of_nil in Hx.
  - intros i c q x Hc. simpl in Hc. by rewrite lookup_nil in Hc.
Qed.

End Closed.

Lemma sampleTree_within : treeWithin sampleTree sampleUniverse.
Proof.
  intros p e nb Hnb. unfold sampleTree in Hnb.
  repeat case_decide;
    repeat (apply elem_of_cons in Hnb as [->|Hnb]);
    try (by apply elem_of_nil in Hnb);
    apply list_elem_of_In; simpl; tauto.
Qed.

(** C2.  [workerDBSCAN] works with [minPts = 2] and
    [eps = 1 - min] of the three thresholds.  The validated neighbours of a
    point are the points of the neighbours that the tree search returns
    within [eps], in the order returned, that are the point itself or whose
    similarity [1 - distance] reaches the threshold of the pair's kinds
    (two images, mixed, two videos).  A point that the scan reaches
    unvisited with fewer than 2 validated neighbours is pushed as the
    singleton cluster of itself.  Over a chunk the scan returns, and in the
    clusters it returns:
    - every chunk point with fewer than 2 validated neighbours is a
      singleton cluster unless it is a validated neighbour of a point that
      has at least 2 (a border point of that point's cluster);
    - every chunk point is in a cluster;
    - every cluster is grown from a seed of the chunk: it is the seed
      alone, or the seed has at least 2 validated neighbours, and every
      other member is a validated neighbour of a member that has at
      least 2;
    - the expansion is complete: every validated neighbour of a member
      that has at least 2 is in the same cluster, or in a cluster found
      before it. *)
Theorem workerDBSCAN_density_clustering cfg processFile vpTree :
  let neighborsOf p := getValidNeighbors cfg processFile p vpTree (eps cfg) in
  minPts = 2%nat /\
  eps cfg = Num.sub (Num.of_Z 1)
              (Num.min3 (imageSimilarityThreshold cfg)
                 (imageVideoSimilarityThreshold cfg) (videoSimilarityThreshold cfg)) /\
  (forall p, exists keep,
     neighborsOf p = point <$> List.filter keep (vpTree p (eps cfg)) /\
     forall nb, keep nb = true <->
       point nb = p \/
       Num.ge (Num.sub (Num.of_Z 1) (distance nb))
         (getAdaptiveThreshold cfg (media (processFile p))
            (media (processFile (point nb)))) = true) /\
  (forall m1 m2,
     (isImage m1 = true -> isImage m2 = true ->
      getAdaptiveThreshold cfg m1 m2 = imageSimilarityThreshold cfg) /\
     (isImage m1 <> isImage m2 ->
      getAdaptiveThreshold cfg m1 m2 = imageVideoSimilarityThreshold cfg) /\
     (isImage m1 = false -> isImage m2 = false ->
      getAdaptiveThreshold cfg m1 m2 = videoSimilarityThreshold cfg)) /\
  (forall fuel clusters visited p,
     p ∉ visited -> (length (neighborsOf p) < 2)%nat ->
     scanPoint cfg processFile fuel vpTree (clusters, visited) p
       = Value (clusters ++ [[p]], set_add p visited)) /\
  (forall universe chunk fuel,
     treeWithin vpTree universe -> (forall p, p ∈ chunk -> p ∈ universe) ->
     (dbscanFuel cfg processFile vpTree universe <= fuel)%nat ->
     exists clusters,
       workerDBSCAN cfg processFile fuel chunk vpTree = Value clusters /\
       (forall p, p ∈ chunk -> (length (neighborsOf p) < 2)%nat ->
          [p] ∈ clusters \/
          exists q, (2 <= length (neighborsOf q))%nat /\ p ∈ neighborsOf q) /\
       (forall p, p ∈ chunk -> exists c, c ∈ clusters /\ p ∈ c) /\
       Forall (fun c => exists seed, seed ∈ chunk /\
                 seed ∈ c /\
                 (c = [seed] \/ (2 <= length (neighborsOf seed))%nat) /\
                 forall x, x ∈ c -> x = seed \/
                   exists q, q ∈ c /\ (2 <= length (neighborsOf q))%nat /\
                             x ∈ neighborsOf q)
         clusters /\
       (forall i c q x,
          clusters !! i = Some c -> q ∈ c ->
          (2 <= length (neighborsOf q))%nat -> x ∈ neighborsOf q ->
          exists j c', (j <= i)%nat /\ clusters !! j = Some c' /\ x ∈ c')).
Proof.
  intros neighborsOf.
  split; [reflexivity|]. split; [reflexivity|].
  split.
  { intros p. exists (neighborIsValid cfg processFile p). split; [reflexivity|].
    intros nb. unfold neighborIsValid.
    destruct (decide (point nb = p)) as [Hp|Hp]; [tauto|].
    split; [by right|]. by intros [?|?]. }
  split.
  { intros m1 m2. unfold getAdaptiveThreshold.
    destruct (isImage m1), (isImage m2); repeat split; simpl; try done;
      intros H; try done; try (by destruct H). }
  split.
  { intros fuel clusters visited p Hp Hlen. unfold scanPoint.
    rewrite (proj2 (set_has_false _ _)) by done.
    fold (neighborsOf p). by rewrite bool_decide_eq_true_2. }
  intros universe chunk fuel Htree Hchunk Hfuel.
  destruct (workerDBSCAN_spec cfg processFile vpTree universe Htree fuel chunk
              Hchunk Hfuel) as (clusters & Hrun & _ & _ & _ & Hcover).
  exists clusters. split; [done|].
  split; [|split; [done|split]].
  - unfold workerDBSCAN in Hrun.
    destruct (for_each chunk _ _) as [[clusters' visited]| |] eqn:Hloop; try done.
    rewrite bind_Value in Hrun. injection Hrun as ->.
    pose proof (for_each_prefix_partial
      (fun pre st =>
         (forall x, x ∈ snd st -> (length (neighborsOf x) < minPts)%nat ->
            [x] ∈ fst st \/
            exists q, (minPts <= length (neighborsOf q))%nat /\ x ∈ neighborsOf q) /\
         (forall p, p ∈ pre -> p ∈ snd st))
      chunk (scanPoint cfg processFile fuel vpTree) ([], []) (clusters, visited))
      as Hinv.
    destruct Hinv as [Hsing Hvis]; [| |exact Hloop|].
    + split; intros x Hx; by apply elem_of_nil in Hx.
    + intros pre x st st' [Hs Hv] Hx Hstep.
      destruct (scanPoint_singletons cfg processFile vpTree fuel st st' x Hstep Hs)
        as [Hs' Hx'].
      split; [done|]. intros p Hp.
      apply elem_of_app in Hp as [Hp|Hp].
      * destruct st as [cs vs].
        unfold scanPoint in Hstep.
        destruct (set_has vs x) eqn:E.
        -- injection Hstep as <-. by apply Hv.
        -- case_bool_decide.
           ++ injection Hstep as <-. simpl. apply elem_of_set_add. right. by apply Hv.
           ++ destruct (expandCluster _ _ _ _ _ _ _) as [[v' c']| |] eqn:Hexp; try done.
              rewrite bind_Value in Hstep. injection Hstep as <-. simpl.
              apply (expandCluster_visited_mono _ _ _ _ _ _ _ _ _ Hexp),
                elem_of_set_add. right. by apply Hv.
      * by apply list_elem_of_singleton in Hp as ->.
    + intros p Hp Hfew. simpl in *. by apply Hsing; [apply Hvis|].
  - unfold workerDBSCAN in Hrun.
    destruct (for_each chunk _ _) as [st| |] eqn:Hloop; try done.
    rewrite bind_Value in Hrun. injection Hrun as <-.
    apply (for_each_prefix_partial
      (fun _ st => Forall (fun c => exists seed, seed ∈ chunk /\
                     densityConnected neighborsOf c seed) (fst st))
      chunk (scanPoint cfg processFile fuel vpTree) ([], []) st);
      [constructor| |exact Hloop].
    intros pre p s s' Hs Hp Hstep.
    by apply (scanPoint_connected cfg processFile vpTree fuel chunk s s' p).
  - by apply (workerDBSCAN_closed cfg processFile vpTree fuel chunk).
Qed.

Lemma workerDBSCAN_density_clustering_witness :
  let neighborsOf p :=
    getValidNeighbors sampleConfig sampleFile p sampleTree (eps sampleConfig) in
  exists clusters,
    workerDBSCAN sampleConfig sampleFile 20 ["a"; "d"; "c"]%string sampleTree
      = Value clusters /\
    (["d"%string] ∈ clusters \/
     exists q, (2 <= length (neighborsOf q))%nat /\ "d"%string ∈ neighborsOf q) /\
    (exists c, c ∈ clusters /\ "a"%string ∈ c) /\
    (forall i c x,
       clusters !! i = Some c -> "a"%string ∈ c -> x ∈ neighborsOf "a"%string ->
       exists j c', (j <= i)%nat /\ clusters !! j = Some c' /\ x ∈ c').
Proof.
  intros neighborsOf.
  destruct (workerDBSCAN_density_clustering sampleConfig sampleFile sampleTree)
    as (_ & _ & _ & _ & _ & H).
  destruct (H sampleUniverse ["a"; "d"; "c"]%string 20%nat)
    as (clusters & Hrun & Hsingle & Hcover & _ & Hclosed).
  - apply sampleTree_within.
  - intros p Hp. apply list_elem_of_In. apply list_elem_of_In in Hp.
    simpl in *. tauto.
  - vm_compute. lia.
  - exists clusters. split; [done|]. split; [|split].
    + apply Hsingle.
      * apply list_elem_of_In. simpl. tauto.
      * vm_compute. lia.
    + apply Hcover. apply list_elem_of_In. simpl. tauto.
    + intros i c x Hc Ha Hx. apply (Hclosed i c "a"%string x Hc Ha); [|exact Hx].
      vm_compute. lia.
Defined.

(** C10.  Over a tree whose searches return points of a finite universe
    that contains the chunk, [workerDBSCAN] returns; no path is in two of
    the returned clusters, and every point of the chunk is in exactly one
    of them. *)
Theorem workerDBSCAN_clusters_disjoint cfg processFile vpTree universe chunk fuel :
  treeWithin vpTree universe -> (forall p, p ∈ chunk -> p ∈ universe) ->
  (dbscanFuel cfg processFile vpTree universe <= fuel)%nat ->
  exists clusters,
    workerDBSCAN cfg processFile fuel chunk vpTree = Value clusters /\
    pairwiseDisjoint clusters /\
    forall p, p ∈ chunk ->
      exists i c, clusters !! i = Some c /\ p ∈ c /\
        forall j c', clusters !! j = Some c' -> p ∈ c' -> j = i.
Proof.
  intros Htree Hchunk Hfuel.
  destruct (workerDBSCAN_spec cfg processFile vpTree universe Htree fuel chunk
              Hchunk Hfuel) as (clusters & Hrun & Hdis & _ & _ & Hcov).
  exists clusters. split; [done|]. split; [done|].
  intros p Hp. destruct (Hcov p Hp) as (c & Hc & Hpc).
  apply list_elem_of_lookup in Hc as [i Hi].
  exists i, c. split; [done|]. split; [done|].
  intros j c' Hj Hpc'. destruct (decide (j = i)) as [|Hne]; [done|].
  exfalso. by apply (Hdis j i c' c p).
Qed.

Lemma workerDBSCAN_clusters_disjoint_witness :
  exists clusters,
    workerDBSCAN sampleConfig sampleFile 20 ["a"; "d"; "c"]%string sampleTree
      = Value clusters /\
    pairwiseDisjoint clusters.
Proof.
  destruct (workerDBSCAN_clusters_disjoint sampleConfig sampleFile sampleTree
              sampleUniverse ["a"; "d"; "c"]%string 20)
    as (clusters & Hrun & Hdis & _).
  - apply sampleTree_within.
  - intros p Hp. apply list_elem_of_In. apply list_elem_of_In in Hp.
    simpl in *. tauto.
  - vm_compute. lia.
  - by exists clusters.
Defined.


(** ** Merging *)

Lemma indexOf_bounds l x : -1 <= indexOf l x < Z.of_nat (length l).
Proof.
  induction l as [|y l IH]; simpl; [lia|].
  destruct (decide (y = x)); [lia|]. destruct (decide (indexOf l x = -1)); lia.
Qed.

(** [indexOf] finds the first occurrence. *)
Lemma indexOf_elem_of l x :
  x ∈ l -> exists i, indexOf l x = Z.of_nat i /\ l !! i = Some x.
Proof.
  induction l as [|y l IH]; intros Hx; [by apply elem_of_nil in Hx|]. simpl.
  destruct (decide (y = x)) as [->|Hne]; [by exists 0%nat|].
  apply elem_of_cons in Hx as [->|Hx]; [done|].
  destruct (IH Hx) as (i & Hi & Hl).
  rewrite decide_False by lia. exists (S i). split; [lia|done].
Qed.

Lemma splice1_found {A} (l : list A) i :
  (i < length l)%nat -> splice1 l (Z.of_nat i) = delete i l.
Proof.
  intros Hi. unfold splice1. rewrite decide_False by lia.
  f_equal. lia.
Qed.

Lemma elem_of_delete_NoDup (l : list nat) i x y :
  NoDup l -> l !! i = Some x -> y ∈ delete i l <-> y ∈ l /\ y <> x.
Proof.
  revert i. induction l as [|a l IH]; intros i Hnd Hi; [done|].
  apply NoDup_cons in Hnd as [Ha Hnd].
  destruct i as [|i]; simpl in *.
  - injection Hi as ->. rewrite elem_of_cons. split.
    + intros Hy. split; [by right|]. by intros ->.
    + intros [[->|Hy] Hne]; done.
  - rewrite !elem_of_cons, (IH i Hnd Hi). split.
    + intros [->|[Hy Hne]]; [|by split; [right|]].
      split; [by left|]. intros ->. apply Ha. by eapply list_elem_of_lookup_2.
    + intros [[->|Hy] Hne]; [by left|by right].
Qed.

Lemma NoDup_delete (l : list nat) i : NoDup l -> NoDup (delete i l).
Proof.
  intros Hnd. eapply sublist_NoDup; [done|apply sublist_delete].
Qed.

(** Removing a cluster reference that is in [merged]. *)
Lemma splice1_indexOf l r :
  NoDup l -> r ∈ l ->
  NoDup (splice1 l (indexOf l r)) /\
  forall x, x ∈ splice1 l (indexOf l r) <-> x ∈ l /\ x <> r.
Proof.
  intros Hnd Hr. destruct (indexOf_elem_of l r Hr) as (i & -> & Hi).
  rewrite splice1_found by (by eapply lookup_lt_Some).
  split; [by apply NoDup_delete|]. intros x. by apply elem_of_delete_NoDup.
Qed.

Lemma elem_of_ref_add r x s : x ∈ ref_add r s <-> x = r \/ x ∈ s.
Proof.
  unfold ref_add. case_bool_decide as H.
  - split; [by right|]. intros [->|]; done.
  - rewrite elem_of_app, list_elem_of_singleton. tauto.
Qed.

Lemma NoDup_ref_add r s : NoDup s -> NoDup (ref_add r s).
Proof.
  intros Hs. unfold ref_add. case_bool_decide as H; [done|].
  apply NoDup_app. split; [done|]. split; [|apply NoDup_singleton].
  intros y Hy Hy'. apply list_elem_of_singleton in Hy'. by subst.
Qed.

Lemma relatedClustersOf_spec (m : gmap string nat) cluster :
  NoDup (relatedClustersOf m cluster) /\
  forall r, r ∈ relatedClustersOf m cluster <->
            exists element, element ∈ cluster /\ m !! element = Some r.
Proof.
  unfold relatedClustersOf.
  assert (H : forall acc, NoDup acc ->
    let res := foldl (fun related element =>
                 match m !! element with
                 | Some existingCluster => ref_add existingCluster related
                 | None => related
                 end) acc cluster in
    NoDup res /\
    forall r, r ∈ res <-> r ∈ acc \/ exists element, element ∈ cluster /\ m !! element = Some r).
  { induction cluster as [|e cluster IH]; intros acc Hacc; simpl.
    - split; [done|]. intros r. split; [by left|].
      intros [H|(x & Hx & _)]; [done|by apply elem_of_nil in Hx].
    - destruct (m !! e) as [r0|] eqn:He.
      + destruct (IH (ref_add r0 acc) (NoDup_ref_add _ _ Hacc)) as [Hnd Hiff].
        split; [done|]. intros r. rewrite Hiff, elem_of_ref_add. split.
        * intros [[->|H]|(x & Hx & Hm)]; [|by left|].
          -- right. exists e. split; [by left|done].
          -- right. exists x. split; [by right|done].
        * intros [H|(x & Hx & Hm)]; [left; by right|].
          apply elem_of_cons in Hx as [->|Hx].
          -- left. left. congruence.
          -- right. by exists x.
      + destruct (IH acc Hacc) as [Hnd Hiff].
        split; [done|]. intros r. rewrite Hiff. split.
        * intros [H|(x & Hx & Hm)]; [by left|].
          right. exists x. split; [by right|done].
        * intros [H|(x & Hx & Hm)]; [by left|].
          apply elem_of_cons in Hx as [->|Hx]; [congruence|].
          right. by exists x. }
  destruct (H [] (NoDup_nil_2)) as [Hnd Hiff]. split; [done|].
  intros r. rewrite Hiff. split; [|by right].
  intros [Hr|Hr]; [by apply elem_of_nil in Hr|done].
Qed.

Lemma setAll_lookup (m : gmap string nat) cluster ref element :
  setAll m cluster ref !! element =
    if bool_decide (element ∈ cluster) then Some ref else m !! element.
Proof.
  unfold setAll. revert m. induction cluster as [|e cluster IH]; intros m.
  - by rewrite bool_decide_eq_false_2 by apply not_elem_of_nil.
  - cbn [foldl]. rewrite IH. case_bool_decide as H1.
    + by rewrite bool_decide_eq_true_2 by (by right).
    + destruct (decide (element = e)) as [->|Hne].
      * rewrite bool_decide_eq_true_2 by (by left). apply lookup_insert_eq.
      * rewrite lookup_insert_ne by done.
        rewrite bool_decide_eq_false_2; [done|].
        intros Hx. apply elem_of_cons in Hx as [?|?]; done.
Qed.

Lemma elem_of_fold_set_add (l : list string) acc x :
  x ∈ foldl (fun s element => set_add element s) acc l <-> x ∈ acc \/ x ∈ l.
Proof.
  revert acc. induction l as [|y l IH]; intros acc; simpl.
  - rewrite elem_of_nil. tauto.
  - rewrite IH, elem_of_set_add, elem_of_cons. tauto.
Qed.

Lemma NoDup_fold_set_add (l : list string) acc :
  NoDup acc -> NoDup (foldl (fun s element => set_add element s) acc l).
Proof.
  revert acc. induction l as [|y l IH]; intros acc Hacc; simpl; [done|].
  apply IH. by apply NoDup_set_add.
Qed.


(** The inner loop of the merging branch: the union of the related
    clusters, and [merged] without them. *)
Lemma merge_related_fold (h : list StrSet) (related : list nat) :
  forall mergedCluster merged0,
  NoDup related -> NoDup merged0 -> (forall r, r ∈ related -> r ∈ merged0) ->
  let '(mergedCluster', merged0') :=
    foldl (fun '(mergedCluster, merged0) relatedCluster =>
             (foldl (fun s element => set_add element s) mergedCluster
                (deref h relatedCluster),
              splice1 merged0 (indexOf merged0 relatedCluster)))
          (mergedCluster, merged0) related in
  (forall e, e ∈ mergedCluster' <->
     e ∈ mergedCluster \/ exists r, r ∈ related /\ e ∈ deref h r) /\
  (NoDup mergedCluster -> NoDup mergedCluster') /\
  NoDup merged0' /\
  (forall x, x ∈ merged0' <-> x ∈ merged0 /\ x ∉ related).
Proof.
  induction related as [|r related IH]; intros mc m0 Hrel Hm0 Hsub.
  - simpl. split.
    { intros e. split; [by left|]. intros [H|(r & Hr & _)]; [done|].
      by apply elem_of_nil in Hr. }
    split; [done|]. split; [done|].
    intros x. split; [|by intros [? _]]. intros Hx. split; [done|].
    apply not_elem_of_nil.
  - apply NoDup_cons in Hrel as [Hr Hrel].
    destruct (splice1_indexOf m0 r Hm0) as [Hnd Hiff]; [apply Hsub; by left|].
    cbn [foldl].
    specialize (IH (foldl (fun s element => set_add element s) mc (deref h r))
                   (splice1 m0 (indexOf m0 r)) Hrel Hnd).
    destruct (foldl _ _ related) as [mc' m0'].
    destruct IH as (He & Hndc & Hndm & Hm).
    { intros x Hx. apply Hiff. split; [apply Hsub; by right|]. by intros ->. }
    split.
    { intros e. rewrite He, elem_of_fold_set_add. split.
      - intros [[H|H]|(x & Hx & Hex)]; [by left| |].
        + right. exists r. split; [by left|done].
        + right. exists x. split; [by right|done].
      - intros [H|(x & Hx & Hex)]; [left; by left|].
        apply elem_of_cons in Hx as [->|Hx]; [left; by right|].
        right. by exists x. }
    split; [intros H; by apply Hndc, NoDup_fold_set_add|].
    split; [done|].
    intros x. rewrite Hm, Hiff, not_elem_of_cons. tauto.
Qed.

Lemma deref_app_l (h extra : list StrSet) r :
  (r < length h)%nat -> deref (h ++ extra) r = deref h r.
Proof. intros Hr. unfold deref. by rewrite lookup_app_l. Qed.

Lemma deref_app_new (h : list StrSet) c : deref (h ++ [c]) (length h) = c.
Proof.
  unfold deref. rewrite lookup_app_r by done. by rewrite Nat.sub_diag.
Qed.

Lemma mergeStep_invariant clusters k st :
  Forall (fun c => NoDup c /\ c <> []) clusters ->
  (k < length clusters)%nat ->
  mergeInvariant clusters k st -> mergeInvariant clusters (S k) (mergeStep st k).
Proof.
  intros Hsets Hk ([extra Hheap] & Hnd & Href & Hmap & Hown & Hcov & Hset).
  destruct (lookup_lt_is_Some_2 clusters k Hk) as [cluster Hcluster].
  assert (Hderef : deref (heap st) k = cluster).
  { unfold deref. rewrite Hheap, lookup_app_l, Hcluster by done. done. }
  assert (Hcl : NoDup cluster /\ cluster <> []).
  { rewrite Forall_lookup in Hsets. by eapply Hsets. }
  assert (Hkm : k ∉ merged st).
  { intros Hin. destruct (Href k Hin) as [_ [?|?]]; lia. }
  assert (Hlenh : (length clusters <= length (heap st))%nat).
  { rewrite Hheap, length_app. lia. }
  unfold mergeStep. rewrite Hderef.
  destruct (relatedClustersOf_spec (elementToClusterMap st) cluster) as [Hrnd Hrel].
  case_bool_decide as Hnone.
  - (* no element of the cluster is known: install it as it is *)
    apply nil_length_inv in Hnone.
    assert (Hfresh : forall e, e ∈ cluster -> elementToClusterMap st !! e = None).
    { intros e He. destruct (elementToClusterMap st !! e) as [r|] eqn:E; [|done].
      exfalso. assert (Hr : r ∈ relatedClustersOf (elementToClusterMap st) cluster)
        by (apply Hrel; eauto).
      rewrite Hnone in Hr. by apply elem_of_nil in Hr. }
    split; [by exists extra|]. simpl.
    split.
    { apply NoDup_app. split; [done|]. split; [|apply NoDup_singleton].
      intros x Hx Hx'. apply list_elem_of_singleton in Hx' as ->. done. }
    split.
    { intros r Hr. apply elem_of_app in Hr as [Hr|Hr].
      - destruct (Href r Hr) as [? [?|?]]; split; try done; lia.
      - apply list_elem_of_singleton in Hr as ->. split; lia. }
    split.
    { intros e r. rewrite setAll_lookup. case_bool_decide as He.
      - intros [= <-]. split; [apply elem_of_app; right; by left|by rewrite Hderef].
      - intros Hm. destruct (Hmap e r Hm). split; [apply elem_of_app; by left|done]. }
    split.
    { intros r e Hr He. rewrite setAll_lookup.
      apply elem_of_app in Hr as [Hr|Hr].
      - pose proof (Hown r e Hr He) as Hm.
        case_bool_decide as Hec; [|done]. rewrite (Hfresh e Hec) in Hm. done.
      - apply list_elem_of_singleton in Hr as ->. rewrite Hderef in He.
        by rewrite bool_decide_eq_true_2. }
    split.
    { intros e. split.
      - intros (r & Hr & He). apply elem_of_app in Hr as [Hr|Hr].
        + destruct (proj1 (Hcov e)) as (i & c & Hi & Hc & Hec); [by exists r|].
          exists i, c. split; [lia|done].
        + apply list_elem_of_singleton in Hr as ->. rewrite Hderef in He.
          exists k, cluster. split; [lia|done].
      - intros (i & c & Hi & Hc & Hec).
        destruct (decide (i = k)) as [->|Hne].
        + exists k. split; [apply elem_of_app; right; by left|].
          rewrite Hderef. congruence.
        + destruct (proj2 (Hcov e)) as (r & Hr & He).
          { exists i, c. split; [lia|done]. }
          exists r. split; [apply elem_of_app; by left|done]. }
    intros r Hr. apply elem_of_app in Hr as [Hr|Hr]; [by apply Hset|].
    apply list_elem_of_singleton in Hr as ->. by rewrite Hderef.
  - (* some elements are known: one new cluster replaces the related ones *)
    assert (Hsub : forall r, r ∈ relatedClustersOf (elementToClusterMap st) cluster ->
                             r ∈ merged st).
    { intros r Hr. apply Hrel in Hr as (e & _ & Hm). by apply (Hmap e r). }
    pose proof (merge_related_fold (heap st)
                  (relatedClustersOf (elementToClusterMap st) cluster)
                  (set_from cluster) (merged st) Hrnd Hnd Hsub) as Hfold.
    destruct (foldl _ _ (relatedClustersOf _ _)) as [mergedCluster merged0].
    destruct Hfold as (He & Hndc & Hndm & Hm0).
    assert (Hmc : forall e, e ∈ mergedCluster <->
              e ∈ cluster \/
              exists r, r ∈ relatedClustersOf (elementToClusterMap st) cluster /\
                        e ∈ deref (heap st) r).
    { intros e. by rewrite He, elem_of_set_from. }
    assert (Hold : forall r, r ∈ merged0 -> (r < length (heap st))%nat).
    { intros r Hr. apply Hm0 in Hr as [Hr _]. by apply Href. }
    split; [exists (extra ++ [mergedCluster]); simpl; by rewrite Hheap, app_assoc|].
    simpl.
    split.
    { apply NoDup_app. split; [done|]. split; [|apply NoDup_singleton].
      intros x Hx Hx'. apply list_elem_of_singleton in Hx' as ->.
      apply Hold in Hx. lia. }
    split.
    { intros r Hr. rewrite length_app. simpl.
      apply elem_of_app in Hr as [Hr|Hr].
      - apply Hm0 in Hr as [Hr _]. destruct (Href r Hr) as [? [?|?]]; split; lia.
      - apply list_elem_of_singleton in Hr as ->. split; lia. }
    split.
    { intros e r. rewrite setAll_lookup. case_bool_decide as Hec.
      - intros [= <-]. split; [apply elem_of_app; right; by left|].
        by rewrite deref_app_new.
      - intros Hm. destruct (Hmap e r Hm) as [Hr Her].
        assert (Hnr : r ∉ relatedClustersOf (elementToClusterMap st) cluster).
        { intros Hin. apply Hec, Hmc. right. by exists r. }
        split; [apply elem_of_app; left; by apply Hm0|].
        rewrite deref_app_l; [done|]. by apply Href. }
    split.
    { intros r e Hr Her. rewrite setAll_lookup.
      apply elem_of_app in Hr as [Hr|Hr].
      - rewrite deref_app_l in Her by (by apply Hold).
        apply Hm0 in Hr as [Hr Hnr].
        pose proof (Hown r e Hr Her) as Hm.
        case_bool_decide as Hec; [|done]. exfalso.
        apply Hmc in Hec as [Hec|(r' & Hr' & Her')].
        + apply Hnr, Hrel. by exists e.
        + pose proof (Hown r' e (Hsub r' Hr') Her') as Hm'. congruence.
      - apply list_elem_of_singleton in Hr as ->.
        rewrite deref_app_new in Her. by rewrite bool_decide_eq_true_2. }
    split.
    { intros e. split.
      - intros (r & Hr & Her). apply elem_of_app in Hr as [Hr|Hr].
        + rewrite deref_app_l in Her by (by apply Hold).
          apply Hm0 in Hr as [Hr _].
          destruct (proj1 (Hcov e)) as (i & c & Hi & Hc & Hec); [by exists r|].
          exists i, c. split; [lia|done].
        + apply list_elem_of_singleton in Hr as ->.
          rewrite deref_app_new in Her.
          apply Hmc in Her as [Hec|(r' & Hr' & Her')].
          * exists k, cluster. split; [lia|done].
          * destruct (proj1 (Hcov e)) as (i & c & Hi & Hc & Hec);
              [exists r'; split; [by apply Hsub|done]|].
            exists i, c. split; [lia|done].
      - intros (i & c & Hi & Hc & Hec).
        destruct (decide (i = k)) as [->|Hne].
        + exists (length (heap st)). split; [apply elem_of_app; right; by left|].
          rewrite deref_app_new. apply Hmc. left. congruence.
        + destruct (proj2 (Hcov e)) as (r & Hr & Her).
          { exists i, c. split; [lia|done]. }
          destruct (decide (r ∈ relatedClustersOf (elementToClusterMap st) cluster))
            as [Hin|Hnin].
          * exists (length (heap st)). split; [apply elem_of_app; right; by left|].
            rewrite deref_app_new. apply Hmc. right. by exists r.
          * exists r. split; [apply elem_of_app; left; by apply Hm0|].
            rewrite deref_app_l; [done|]. by apply Href. }
    intros r Hr. apply elem_of_app in Hr as [Hr|Hr].
    + rewrite deref_app_l by (by apply Hold). apply Hset. by apply Hm0 in Hr as [Hr _].
    + apply list_elem_of_singleton in Hr as ->. rewrite deref_app_new.
      split; [apply Hndc, NoDup_set_from|].
      destruct Hcl as [_ Hne]. destruct cluster as [|e0 cluster']; [done|].
      intros Hempty. assert (He0 : e0 ∈ mergedCluster) by (apply Hmc; left; by left).
      rewrite Hempty in He0. by apply elem_of_nil in He0.
Qed.

(** What [mergeAndDeduplicate] returns for clusters that are non-empty
    sets: sets, non-empty, sharing no path, with the same paths overall. *)
Lemma mergeAndDeduplicate_spec clusters :
  Forall (fun c => NoDup c /\ c <> []) clusters ->
  pairwiseDisjoint (mergeAndDeduplicate clusters) /\
  Forall (fun c => NoDup c /\ c <> []) (mergeAndDeduplicate clusters) /\
  forall e, (exists c, c ∈ mergeAndDeduplicate clusters /\ e ∈ c) <->
            (exists c, c ∈ clusters /\ e ∈ c).
Proof.
  intros Hsets. unfold mergeAndDeduplicate.
  assert (Hloop : forall k, (k <= length clusters)%nat ->
    mergeInvariant clusters k
      (foldl mergeStep {| heap := clusters; merged := []; elementToClusterMap := ∅ |}
         (seq 0 k))).
  { induction k as [|k IH]; intros Hk.
    - simpl. split; [exists []; simpl; by rewrite app_nil_r|]. simpl.
      split; [constructor|].
      split; [intros r Hr; by apply elem_of_nil in Hr|].
      split; [intros e r Hm; by rewrite lookup_empty in Hm|].
      split; [intros r e Hr; by apply elem_of_nil in Hr|].
      split; [|intros r Hr; by apply elem_of_nil in Hr].
      intros e. split.
      + intros (r & Hr & _). by apply elem_of_nil in Hr.
      + intros (i & c & Hi & _). lia.
    - rewrite seq_S, foldl_app. simpl.
      apply mergeStep_invariant; [done|lia|apply IH; lia]. }
  specialize (Hloop (length clusters) ltac:(lia)).
  destruct (foldl mergeStep _ _) as [h m mp].
  destruct Hloop as (_ & Hnd & Href & Hmap & Hown & Hcov & Hset). simpl in *.
  split.
  { intros i j ci cj x Hi Hj Hne Hxi Hxj.
    rewrite list_lookup_fmap in Hi, Hj.
    destruct (m !! i) as [ri|] eqn:Hri; [|done].
    destruct (m !! j) as [rj|] eqn:Hrj; [|done].
    injection Hi as <-. injection Hj as <-.
    pose proof (Hown ri x (list_elem_of_lookup_2 _ _ _ Hri) Hxi) as H1.
    pose proof (Hown rj x (list_elem_of_lookup_2 _ _ _ Hrj) Hxj) as H2.
    assert (ri = rj) by congruence. subst.
    apply Hne. by eapply NoDup_lookup. }
  split.
  { apply Forall_fmap, Forall_forall. intros r Hr. by apply Hset. }
  intros e. split.
  - intros (c & Hc & Hec). apply list_elem_of_fmap in Hc as (r & -> & Hr).
    destruct (proj1 (Hcov e)) as (i & c & _ & Hc & Hec'); [by exists r|].
    exists c. split; [by eapply list_elem_of_lookup_2|done].
  - intros (c & Hc & Hec). apply list_elem_of_lookup in Hc as [i Hi].
    destruct (proj2 (Hcov e)) as (r & Hr & Her).
    { exists i, c. split; [by eapply lookup_lt_Some|done]. }
    exists (deref h r). split; [|done]. apply list_elem_of_fmap. by exists r.
Qed.


(** ** Sorting by score *)

Lemma num_le_trans a b c : Num.le a b = true -> Num.le b c = true -> Num.le a c = true.
Proof. unfold Num.le. intros. num_crush. Qed.

Lemma num_le_refl a : a <> NaN -> Num.le a a = true.
Proof. unfold Num.le. intros. num_crush. Qed.

(** The comparator [(a, b) => b.score - a.score] is positive exactly when
    [a] scores less. *)
Lemma descending_comparator a b :
  a <> NaN -> b <> NaN ->
  if Num.gt (Num.sub b a) (Num.of_Z 0) then Num.le a b = true
  else Num.le b a = true.
Proof.
  unfold Num.gt, Num.lt, Num.sub, Num.le, Num.of_Z. change (inject_Z 0) with 0%Q.
  intros. num_crush.
Qed.

Section Sort.
Context {A : Type} (score : A -> number).

Let cmp (a b : A) : number := Num.sub (score b) (score a).

Lemma sort_insert_perm x l : sort_insert cmp x l ≡ₚ x :: l.
Proof.
  induction l as [|y l IH]; cbn [sort_insert]; [done|].
  destruct (Num.gt (cmp x y) (Num.of_Z 0)); [|reflexivity].
  rewrite IH. apply Permutation_swap.
Qed.

Lemma array_sort_perm l : array_sort cmp l ≡ₚ l.
Proof.
  induction l as [|x l IH]; [done|].
  unfold array_sort in *. cbn [foldr]. rewrite sort_insert_perm. by constructor.
Qed.

(** The first element of the sorted array has the highest score. *)
Lemma array_sort_head l h t :
  (forall x, x ∈ l -> score x <> NaN) ->
  array_sort cmp l = h :: t ->
  forall x, x ∈ l -> Num.le (score x) (score h) = true.
Proof.
  revert h t. induction l as [|y l IH]; intros h t Hnan Hsort x Hx;
    [by apply elem_of_nil in Hx|].
  unfold array_sort in *. cbn [foldr] in Hsort.
  assert (Hy : score y <> NaN) by (apply Hnan; by left).
  pose proof (array_sort_perm l) as Hperm. unfold array_sort in Hperm.
  destruct (foldr (sort_insert cmp) [] l) as [|h' t'] eqn:Hl.
  - cbn [sort_insert] in Hsort. injection Hsort as <- <-.
    apply Permutation_nil in Hperm as ->.
    apply elem_of_cons in Hx as [->|Hx]; [by apply num_le_refl|].
    by apply elem_of_nil in Hx.
  - assert (Hh' : h' ∈ l).
    { rewrite <- Hperm. by left. }
    assert (Hmax : forall z, z ∈ l -> Num.le (score z) (score h') = true).
    { apply (IH h' t'); [intros z Hz; apply Hnan; by right|done]. }
    cbn [sort_insert] in Hsort. unfold cmp at 1 in Hsort.
    pose proof (descending_comparator (score y) (score h') Hy
                  (Hnan h' ltac:(by right))) as Hcmp.
    destruct (Num.gt (Num.sub (score h') (score y)) (Num.of_Z 0)).
    + injection Hsort as <- _.
      apply elem_of_cons in Hx as [->|Hx]; [done|by apply Hmax].
    + injection Hsort as <- _.
      apply elem_of_cons in Hx as [->|Hx]; [by apply num_le_refl|].
      eapply num_le_trans; [by apply Hmax|done].
Qed.

End Sort.


(** ** Representative selection *)

Section Selection.
Context (selector : string -> FileInfo) (Math_log Math_sqrt : number -> number).
Context (self : list string -> outcome DeduplicationResult).

Let score (entry : string) : number :=
  calculateEntryScore Math_log Math_sqrt (selector entry).

Lemma scoreEntries_perm entries :
  scoreEntries selector Math_log Math_sqrt entries ≡ₚ entries.
Proof.
  unfold scoreEntries.
  rewrite (array_sort_perm (A := string * number) snd).
  rewrite <- list_fmap_compose. by rewrite list_fmap_id.
Qed.

Lemma scoreEntries_head entries best rest :
  (forall e, e ∈ entries -> score e <> NaN) ->
  scoreEntries selector Math_log Math_sqrt entries = best :: rest ->
  forall x, x ∈ entries -> Num.le (score x) (score best) = true.
Proof.
  intros Hnan Hsort x Hx. unfold scoreEntries in Hsort.
  destruct (array_sort _ _) as [|[b sb] t] eqn:Hs; [done|].
  simpl in Hsort. injection Hsort as <- _.
  set (pairs := (fun entry => (entry, calculateEntryScore Math_log Math_sqrt
                                        (selector entry))) <$> entries) in *.
  assert (Hb : (b, sb) ∈ pairs).
  { rewrite <- (array_sort_perm (A := string * number) snd pairs).
    fold (@snd string number) in Hs.
    change (fun a b0 : string * number => Num.sub (b0.2) (a.2))
      with (fun a b0 : string * number => Num.sub (snd b0) (snd a)) in Hs.
    rewrite Hs. by left. }
  apply list_elem_of_fmap in Hb as (e & [= -> ->] & He).
  apply (array_sort_head (A := string * number) snd pairs (e, score e) t) with
    (x := (x, score x)) in Hs.
  - exact Hs.
  - intros [z sz] Hz. apply list_elem_of_fmap in Hz as (e' & [= -> ->] & He').
    by apply Hnan.
  - apply list_elem_of_fmap. by exists x.
Qed.

Lemma NoDup_List_filter {A} (p : A -> bool) (l : list A) :
  NoDup l -> NoDup (List.filter p l).
Proof.
  induction 1 as [|x l Hx Hl IH]; simpl; [constructor|].
  destruct (p x); [|done]. constructor; [|done].
  intros Hin. apply elem_of_List_filter in Hin as [Hin _]. done.
Qed.

Lemma selectRepresentatives_spec cluster :
  (2 <= length cluster)%nat -> NoDup cluster -> delivers selector self cluster ->
  exists best rest,
    selectRepresentatives selector Math_log Math_sqrt self cluster
      = Value (best :: rest) /\
    best ∈ cluster /\ (forall x, x ∈ rest -> x ∈ cluster) /\
    ((forall e, e ∈ cluster -> score e <> NaN) ->
     forall x, x ∈ cluster -> Num.le (score x) (score best) = true).
Proof.
  intros Hlen Hnd Hself. unfold selectRepresentatives.
  rewrite bool_decide_eq_false_2 by lia.
  pose proof (scoreEntries_perm cluster) as Hperm.
  destruct (scoreEntries selector Math_log Math_sqrt cluster) as [|best sorted] eqn:Hs.
  { apply Permutation_nil in Hperm. subst. simpl in Hlen. lia. }
  assert (Hbest : best ∈ cluster) by (rewrite <- Hperm; by left).
  assert (Hmax : (forall e, e ∈ cluster -> score e <> NaN) ->
                 forall x, x ∈ cluster -> Num.le (score x) (score best) = true).
  { intros Hnan. by apply (scoreEntries_head cluster best sorted). }
  destruct (isImage (media (selector best))) eqn:Himg.
  { exists best, []. repeat split; try done. intros x Hx. by apply elem_of_nil in Hx. }
  unfold handleMultiFrameBest.
  set (caps := List.filter (isPotentialCapture selector (selector best)) (best :: sorted)).
  case_bool_decide as Hcaps.
  - destruct (Hself caps) as (r & -> & Hr).
    + apply NoDup_List_filter. by rewrite Hperm.
    + intros E. rewrite E in Hcaps. simpl in Hcaps. lia.
    + intros x Hx. apply elem_of_List_filter in Hx as [Hx Hp].
      split; [by rewrite <- Hperm|].
      unfold isPotentialCapture in Hp.
      by apply andb_true_iff in Hp as [[Hp _]%andb_true_iff _].
    + by exists best.
    + rewrite bind_Value. exists best, (uniqueFiles r). repeat split; try done.
      intros x Hx. apply Hr in Hx. apply elem_of_List_filter in Hx as [Hx _].
      by rewrite <- Hperm.
  - exists best, []. repeat split; try done. intros x Hx. by apply elem_of_nil in Hx.
Qed.

(** One cluster with at least two members gives one duplicate set. *)
Lemma processCluster_duplicateSet res cluster :
  (2 <= length cluster)%nat -> NoDup cluster -> delivers selector self cluster ->
  exists ds,
    processCluster selector Math_log Math_sqrt self res cluster
      = Value {| uniqueFiles := uniqueFiles res;
                 duplicateSets := duplicateSets res ++ [ds] |} /\
    duplicateSetOf score cluster ds.
Proof.
  intros Hlen Hnd Hself. unfold processCluster.
  rewrite bool_decide_eq_false_2 by lia.
  destruct (selectRepresentatives_spec cluster Hlen Hnd Hself)
    as (best & rest & -> & Hbest & Hrest & Hmax).
  rewrite bind_Value. eexists; split; [reflexivity|].
  assert (Hreps : forall x, x ∈ set_from (best :: rest) -> x ∈ cluster).
  { intros x Hx. rewrite elem_of_set_from in Hx.
    apply elem_of_cons in Hx as [->|Hx]; [done|by apply Hrest]. }
  assert (Hdups : forall x,
    x ∈ set_from (List.filter (fun f => negb (set_has (set_from (best :: rest)) f))
                    cluster) <->
    x ∈ cluster /\ x ∉ set_from (best :: rest)).
  { intros x. rewrite elem_of_set_from, elem_of_List_filter, negb_true_iff,
      set_has_false. tauto. }
  split; [|split; [|split; [|split]]]; simpl.
  - exists best. split; [done|].
    split; [rewrite elem_of_set_from; by left|].
    intros Hnan x Hx. unfold Num.ge. apply Hmax; [done|].
    destruct Hx as [Hx|Hx]; [by apply Hreps|]. by apply Hdups in Hx as [Hx _].
  - intros x Hx Hx'. by apply Hdups in Hx' as [_ Hx'].
  - intros x. rewrite Hdups. split.
    + intros Hx.
      destruct (decide (x ∈ set_from (best :: rest))); [by left|by right].
    + intros [Hx|[Hx _]]; [by apply Hreps|done].
  - apply NoDup_set_from.
  - apply NoDup_set_from.
Qed.

(** What [processResults] makes of clusters that are non-empty sets: the
    unique files are the members of the singleton clusters, and the
    duplicate sets match the other clusters one by one, in order. *)
Lemma processResults_spec clusters :
  Forall (fun c => NoDup c /\ c <> []) clusters ->
  (forall c, c ∈ clusters -> delivers selector self c) ->
  exists res,
    processResults selector Math_log Math_sqrt self clusters = Value res /\
    (forall f, f ∈ uniqueFiles res <->
               exists c, c ∈ clusters /\ length c = 1%nat /\ f ∈ c) /\
    NoDup (uniqueFiles res) /\
    Forall2 (duplicateSetOf score)
      (filter (fun c => length c <> 1%nat) clusters) (duplicateSets res).
Proof.
  intros Hsets Hself. unfold processResults.
  destruct (for_each_prefix_invariant
    (fun pre res =>
       (forall f, f ∈ uniqueFiles res <->
                  exists c, c ∈ pre /\ length c = 1%nat /\ f ∈ c) /\
       NoDup (uniqueFiles res) /\
       Forall2 (duplicateSetOf score)
         (filter (fun c => length c <> 1%nat) pre) (duplicateSets res))
    clusters (processCluster selector Math_log Math_sqrt self)
    {| uniqueFiles := []; duplicateSets := [] |}) as (res & Hrun & Hres).
  - simpl. split; [|split; [constructor|constructor]].
    intros f. split; [intros Hf; by apply elem_of_nil in Hf|].
    intros (c & Hc & _). by apply elem_of_nil in Hc.
  - intros pre c res (Huniq & Hnd & Hds) Hc.
    assert (Hcs : NoDup c /\ c <> []) by (rewrite Forall_forall in Hsets; by apply Hsets).
    destruct Hcs as [Hcnd Hcne].
    destruct (decide (length c = 1%nat)) as [Hone|Hmany].
    + (* a singleton joins the unique files *)
      unfold processCluster. rewrite bool_decide_eq_true_2 by done.
      destruct c as [|first [|? ?]]; try done.
      eexists; split; [reflexivity|]. simpl.
      split; [|split; [by apply NoDup_set_add|]].
      * intros f. rewrite elem_of_set_add, Huniq. split.
        -- intros [->|(c & Hc' & Hl & Hf)].
           ++ exists [first]. split; [apply elem_of_app; right; by left|].
              split; [done|by left].
           ++ exists c. split; [apply elem_of_app; by left|done].
        -- intros (c & Hc' & Hl & Hf). apply elem_of_app in Hc' as [Hc'|Hc'].
           ++ right. by exists c.
           ++ apply list_elem_of_singleton in Hc' as ->.
              left. by apply list_elem_of_singleton in Hf.
      * rewrite filter_app, filter_cons_False, filter_nil, app_nil_r by (simpl; lia).
        done.
    + (* a larger cluster gives a duplicate set *)
      destruct (processCluster_duplicateSet res c) as (ds & -> & Hok);
        [destruct c as [|? [|? ?]]; simpl in *; try done; lia|done|by apply Hself|].
      eexists; split; [reflexivity|]. simpl.
      split; [|split; [done|]].
      * intros f. rewrite Huniq. split.
        -- intros (c' & Hc' & Hl & Hf). exists c'.
           split; [apply elem_of_app; by left|done].
        -- intros (c' & Hc' & Hl & Hf). apply elem_of_app in Hc' as [Hc'|Hc'].
           ++ by exists c'.
           ++ apply list_elem_of_singleton in Hc' as ->. done.
      * rewrite filter_app, filter_cons_True, filter_nil by done.
        apply Forall2_app; [done|]. by constructor.
  - exists res. by split.
Qed.

End Selection.


(** ** Scores of plain files *)

Section Scores.
Context (Math_log Math_sqrt : number -> number).
(** [Math.log] is finite on positive numbers and minus infinity at zero;
    [Math.sqrt] is finite on numbers that are not negative. *)
Context (Hlog_pos : forall q, (0 < q)%Q -> exists r, Math_log (Fin q) = Fin r).
Context (Hlog_zero : forall q, (q == 0)%Q -> Math_log (Fin q) = NInf).
Context (Hsqrt : forall q, (0 <= q)%Q -> exists r, Math_sqrt (Fin q) = Fin r).

(** The score of a plain file is a finite number or, for an empty file,
    minus infinity; it is never NaN. *)
Lemma calculateEntryScore_not_NaN fileInfo :
  plainFile fileInfo -> calculateEntryScore Math_log Math_sqrt fileInfo <> NaN.
Proof using Hlog_pos Hlog_zero Hsqrt.
  intros (Hd & (s & Hs & Hs0) & Hw & Hh). unfold calculateEntryScore.
  destruct (Hlog_pos (duration (media fileInfo) + 1)) as [l Hl]; [lra|].
  rewrite Hl, Hs.
  assert (Hquality : truthy_number (width (metadata fileInfo)) &&
                     truthy_number (height (metadata fileInfo)) = true ->
                     exists r, Math_sqrt (getQuality fileInfo) = Fin r).
  { unfold getQuality, plainDimension, numeric in *.
    destruct (width (metadata fileInfo)) as [[w| | |]|];
      destruct (height (metadata fileInfo)) as [[h| | |]|]; simpl in *;
      try done; try (by rewrite andb_false_r).
    intros _. apply Hsqrt. by apply Qmult_le_0_compat. }
  assert (Hfin : exists a,
    (let score := Num.of_Z 0 in
     let score := if Qlt_le_dec 0 (duration (media fileInfo))
                  then Num.add score (Num.of_Z 10000) else score in
     let score := Num.add score (Num.mul (Fin l) (Num.of_Z 100)) in
     let score := if truthy_object (imageDate (metadata fileInfo))
                  then Num.add score (Num.of_Z 2000) else score in
     let score := if truthy_number (gpsLatitude (metadata fileInfo)) &&
                     truthy_number (gpsLongitude (metadata fileInfo))
                  then Num.add score (Num.of_Z 300) else score in
     let score := if truthy_string (cameraModel (metadata fileInfo))
                  then Num.add score (Num.of_Z 200) else score in
     if truthy_number (width (metadata fileInfo)) &&
        truthy_number (height (metadata fileInfo))
     then Num.add score (Math_sqrt (getQuality fileInfo)) else score) = Fin a).
  { cbv zeta.
    destruct (truthy_number (width (metadata fileInfo)) &&
              truthy_number (height (metadata fileInfo))) eqn:E.
    - destruct (Hquality eq_refl) as [r ->].
      destruct (Qlt_le_dec 0 (duration (media fileInfo)));
        destruct (truthy_object (imageDate (metadata fileInfo)));
        destruct (truthy_number (gpsLatitude (metadata fileInfo)) &&
                  truthy_number (gpsLongitude (metadata fileInfo)));
        destruct (truthy_string (cameraModel (metadata fileInfo)));
        simpl; eauto.
    - destruct (Qlt_le_dec 0 (duration (media fileInfo)));
        destruct (truthy_object (imageDate (metadata fileInfo)));
        destruct (truthy_number (gpsLatitude (metadata fileInfo)) &&
                  truthy_number (gpsLongitude (metadata fileInfo)));
        destruct (truthy_string (cameraModel (metadata fileInfo)));
        simpl; eauto. }
  cbv zeta in Hfin |- *. destruct Hfin as [a ->].
  destruct (Qeq_bool s 0) eqn:E0.
  - apply Qeq_bool_iff in E0. rewrite (Hlog_zero s E0). by compute.
  - apply Qeq_bool_false in E0. destruct (Hlog_pos s) as [r ->]; [lra|]. done.
Qed.

End Scores.

(** ** Batches *)

Lemma elem_of_slice {A} (l : list A) i j x : x ∈ slice l i j -> x ∈ l.
Proof.
  unfold slice. intros Hx.
  apply list_elem_of_lookup in Hx as [n Hn].
  apply lookup_take_Some in Hn as [Hn _]. rewrite lookup_drop in Hn.
  by eapply list_elem_of_lookup_2.
Qed.

Lemma slices_cover {A} (l : list A) (size : nat) x :
  (0 < size)%nat -> x ∈ l ->
  exists k, k ∈ seq 0 (Nat.div (length l + size - 1) size) /\
            x ∈ slice l (k * size) (k * size + size).
Proof.
  intros Hsize Hx. apply list_elem_of_lookup in Hx as [i Hi].
  pose proof (lookup_lt_Some _ _ _ Hi) as Hlt.
  pose proof (Nat.div_mod_eq i size) as Hdm.
  pose proof (Nat.mod_upper_bound i size ltac:(lia)) as Hmod.
  exists (Nat.div i size). split.
  - apply elem_of_seq. split; [lia|]. simpl.
    apply Nat.Div0.div_lt_upper_bound.
    pose proof (Nat.div_mod_eq (length l + size - 1) size) as Hdm'.
    pose proof (Nat.mod_upper_bound (length l + size - 1) size ltac:(lia)) as Hmod'.
    nia.
  - unfold slice. apply list_elem_of_lookup. exists (Nat.modulo i size).
    apply lookup_take_Some. split; [|lia].
    rewrite lookup_drop. rewrite <- Hi. f_equal. lia.
Qed.

Lemma batchSize_pos : (0 < batchSize)%nat.
Proof. unfold batchSize. lia. Qed.

Lemma batches_cover files :
  (forall b f, b ∈ batches files -> f ∈ b -> f ∈ files) /\
  (forall f, f ∈ files -> exists b, b ∈ batches files /\ f ∈ b).
Proof.
  unfold batches. split.
  - intros b f Hb Hf. apply list_elem_of_fmap in Hb as (k & -> & _).
    by eapply elem_of_slice.
  - intros f Hf.
    destruct (slices_cover files batchSize f batchSize_pos Hf) as (k & Hk & Hfk).
    eexists. split; [|exact Hfk]. apply list_elem_of_fmap. by exists k.
Qed.

(** ** Disjoint clusters *)

Lemma pairwiseDisjoint_cons c l :
  pairwiseDisjoint (c :: l) <->
  (forall c' x, c' ∈ l -> x ∈ c -> x ∉ c') /\ pairwiseDisjoint l.
Proof.
  split.
  - intros Hd. split.
    + intros c' x Hc' Hx. apply list_elem_of_lookup in Hc' as [j Hj].
      by apply (Hd 0%nat (S j) c c' x).
    + intros i j ci cj x Hi Hj Hne. apply (Hd (S i) (S j) ci cj x); try done. lia.
  - intros [Hc Hd] i j ci cj x Hi Hj Hne Hx Hx'.
    destruct i as [|i], j as [|j]; simpl in *; try done.
    + injection Hi as <-. apply (Hc cj x); [by eapply list_elem_of_lookup_2|done..].
    + injection Hj as <-. apply (Hc ci x); [by eapply list_elem_of_lookup_2|done..].
    + apply (Hd i j ci cj x); try done. lia.
Qed.

Lemma pairwiseDisjoint_filter (P : list string -> Prop) `{!forall c, Decision (P c)}
  clusters :
  pairwiseDisjoint clusters -> pairwiseDisjoint (filter P clusters).
Proof.
  induction clusters as [|c l IH]; intros Hd; [done|].
  apply pairwiseDisjoint_cons in Hd as [Hc Hd].
  rewrite filter_cons. destruct (decide (P c)); [|by apply IH].
  apply pairwiseDisjoint_cons. split; [|by apply IH].
  intros c' x Hc'. apply list_elem_of_filter in Hc' as [_ Hc']. by apply Hc.
Qed.

(** Disjoint clusters that hold the files, turned into unique files and
    duplicate sets, partition the files. *)
Lemma partition_of_clusters score clusters res files :
  pairwiseDisjoint clusters ->
  (forall f, f ∈ files <-> exists c, c ∈ clusters /\ f ∈ c) ->
  (forall f, f ∈ uniqueFiles res <->
             exists c, c ∈ clusters /\ length c = 1%nat /\ f ∈ c) ->
  NoDup (uniqueFiles res) ->
  Forall2 (duplicateSetOf score)
    (filter (fun c => length c <> 1%nat) clusters) (duplicateSets res) ->
  partitionsFiles res files.
Proof.
  intros Hdis Hcov Huniq Hnd Hds.
  assert (Hof : forall ds, ds ∈ duplicateSets res ->
            exists c, c ∈ clusters /\ length c <> 1%nat /\ duplicateSetOf score c ds).
  { intros ds Hin. apply list_elem_of_lookup in Hin as [i Hi].
    destruct (Forall2_lookup_r _ _ _ _ _ Hds Hi) as (c & Hc & Hok).
    apply list_elem_of_lookup_2, list_elem_of_filter in Hc as [Hlen Hc]. eauto. }
  assert (Hapart : forall c1 c2 x, c1 ∈ clusters -> c2 ∈ clusters ->
            length c1 <> length c2 -> x ∈ c1 -> x ∉ c2).
  { intros c1 c2 x H1 H2 Hlen Hx.
    apply list_elem_of_lookup in H1 as [i Hi]. apply list_elem_of_lookup in H2 as [j Hj].
    apply (Hdis i j c1 c2 x); try done. intros ->. congruence. }
  split; [|split; [|split; [|split; [|split]]]].
  - intros f. rewrite Hcov. split.
    + intros (c & Hc & Hf).
      destruct (decide (length c = 1%nat)) as [Hone|Hmany].
      * left. apply Huniq. by exists c.
      * right. assert (Hcf : c ∈ filter (fun c => length c <> 1%nat) clusters)
          by (by apply list_elem_of_filter).
        apply list_elem_of_lookup in Hcf as [i Hi].
        destruct (Forall2_lookup_l _ _ _ _ _ Hds Hi) as (ds & Hdsi & Hok).
        exists ds. split; [by eapply list_elem_of_lookup_2|].
        destruct Hok as (_ & _ & Hmem & _). by apply Hmem.
    + intros [Hf|(ds & Hin & Hf)].
      * apply Huniq in Hf as (c & Hc & _ & Hf). by exists c.
      * destruct (Hof ds Hin) as (c & Hc & _ & (_ & _ & Hmem & _)).
        exists c. split; [done|]. by apply Hmem.
  - intros f ds Hf Hin.
    apply Huniq in Hf as (c1 & Hc1 & Hlen1 & Hf1).
    destruct (Hof ds Hin) as (c2 & Hc2 & Hlen2 & (_ & _ & Hmem & _)).
    assert (Hn : f ∉ c2) by (apply (Hapart c1 c2); [done|done|lia|done]).
    split; intros Hx; apply Hn, Hmem; [by left|by right].
  - intros i j dsi dsj f Hi Hj Hne Hf.
    destruct (Forall2_lookup_r _ _ _ _ _ Hds Hi) as (ci & Hci & (_ & _ & Hmi & _)).
    destruct (Forall2_lookup_r _ _ _ _ _ Hds Hj) as (cj & Hcj & (_ & _ & Hmj & _)).
    pose proof (pairwiseDisjoint_filter (fun c => length c <> 1%nat) clusters Hdis
                  i j ci cj f Hci Hcj Hne (proj2 (Hmi f) Hf)) as Hn.
    split; intros Hx; apply Hn, Hmj; [by left|by right].
  - intros ds f Hin Hf. destruct (Hof ds Hin) as (c & _ & _ & (_ & Hdj & _)).
    by apply Hdj.
  - done.
  - apply Forall_forall. intros ds Hin.
    destruct (Hof ds Hin) as (c & _ & _ & (_ & _ & _ & H1 & H2)). done.
Qed.


(** ** The pipeline *)

Lemma all_of_spec {A B} (f : A -> outcome B) (Q : A -> B -> Prop) (l : list A) :
  (forall x, x ∈ l -> exists y, f x = Value y /\ Q x y) ->
  exists ys, all_of f l = Value ys /\ Forall2 Q l ys.
Proof.
  induction l as [|x l IH]; intros Hf; simpl.
  - exists []. split; [done|constructor].
  - destruct (Hf x) as (y & -> & Hy); [by left|].
    destruct IH as (ys & -> & Hys); [intros z Hz; apply Hf; by right|].
    rewrite !bind_Value. exists (y :: ys). split; [done|by constructor].
Qed.

Lemma elem_of_listsUpTo {A} (alphabet l : list A) n :
  (length l <= n)%nat -> (forall x, x ∈ l -> x ∈ alphabet) ->
  l ∈ listsUpTo n alphabet.
Proof.
  revert l. induction n as [|n IH]; intros l Hlen Hl.
  - destruct l; [by left|simpl in Hlen; lia].
  - destruct l as [|x l]; [by left|]. simpl. right.
    apply list_elem_of_bind. exists l. split.
    + apply list_elem_of_fmap. exists x. split; [done|]. apply Hl. by left.
    + apply IH; [simpl in Hlen; lia|]. intros y Hy. apply Hl. by right.
Qed.

Lemma elem_of_concat {A} (x : A) (ls : list (list A)) :
  x ∈ concat ls <-> exists l, l ∈ ls /\ x ∈ l.
Proof.
  rewrite list_elem_of_In, in_concat. split.
  - intros (l & Hl & Hx). exists l. by rewrite !list_elem_of_In.
  - intros (l & Hl & Hx). exists l. by rewrite <- !list_elem_of_In.
Qed.

Section Pipeline.
Context (cfg : SimilarityConfig) (processFile selector : string -> FileInfo).
Context (VPTree_build : list string -> VPTree).
Context (Math_log Math_sqrt : number -> number).
(** A tree returns points of the files it was built over. *)
Context (Hbuild : forall files, treeWithin (VPTree_build files) files).

Let score (entry : string) : number :=
  calculateEntryScore Math_log Math_sqrt (selector entry).
Let dedup := deduplicateFiles cfg processFile selector VPTree_build Math_log Math_sqrt.

Lemma parallelDBSCAN_spec fuel files vpTree :
  treeWithin vpTree files ->
  (dbscanFuel cfg processFile vpTree files <= fuel)%nat ->
  exists clusters,
    parallelDBSCAN cfg processFile fuel files vpTree = Value clusters /\
    pairwiseDisjoint clusters /\
    Forall (fun c => NoDup c /\ c <> []) clusters /\
    forall f, f ∈ files <-> exists c, c ∈ clusters /\ f ∈ c.
Proof.
  intros Htree Hfuel. unfold parallelDBSCAN.
  destruct (batches_cover files) as [Hin Hcov].
  destruct (all_of_spec
    (fun batch => workerDBSCAN cfg processFile fuel batch vpTree)
    (fun batch clusters =>
       Forall (fun c => NoDup c /\ c <> []) clusters /\
       (forall c x, c ∈ clusters -> x ∈ c -> x ∈ files) /\
       (forall p, p ∈ batch -> exists c, c ∈ clusters /\ p ∈ c))
    (batches files)) as (results & -> & Hres).
  { intros batch Hb.
    destruct (workerDBSCAN_spec cfg processFile vpTree files Htree fuel batch)
      as (clusters & -> & _ & Hsets & Huni & Hc); [by eauto|done|].
    by exists clusters. }
  rewrite bind_Value. eexists; split; [reflexivity|].
  assert (Hsets : Forall (fun c => NoDup c /\ c <> []) (concat results)).
  { apply Forall_concat. eapply Forall2_Forall_r; [exact Hres|].
    apply Forall_forall. intros batch _ clusters (H & _). exact H. }
  destruct (mergeAndDeduplicate_spec (concat results) Hsets) as (Hdis & Hsets' & Hsame).
  split; [done|]. split; [done|].
  intros f. rewrite Hsame. split.
  - intros Hf. destruct (Hcov f Hf) as (b & Hb & Hfb).
    apply list_elem_of_lookup in Hb as [i Hi].
    destruct (Forall2_lookup_l _ _ _ _ _ Hres Hi) as (clusters & Hci & _ & _ & Hc).
    destruct (Hc f Hfb) as (c & Hcc & Hfc).
    exists c. split; [|done]. apply elem_of_concat. exists clusters.
    split; [by eapply list_elem_of_lookup_2|done].
  - intros (c & Hc & Hfc). apply elem_of_concat in Hc as (clusters & Hcl & Hcc).
    apply list_elem_of_lookup in Hcl as [i Hi].
    destruct (Forall2_lookup_r _ _ _ _ _ Hres Hi) as (b & _ & _ & Hu & _).
    by apply (Hu c).
Qed.

(** One call of [deduplicateFiles], given what the nested calls deliver. *)
Lemma deduplicateFiles_step fuel files :
  (dbscanFuel cfg processFile (VPTree_build files) files <= fuel)%nat ->
  (forall c, (forall x, x ∈ c -> x ∈ files) -> delivers selector (dedup fuel) c) ->
  exists r, dedup (S fuel) files = Value r /\ partitionsFiles r files.
Proof using Hbuild.
  intros Hfuel Hself. unfold dedup. simpl.
  destruct (parallelDBSCAN_spec fuel files (VPTree_build files) (Hbuild files) Hfuel)
    as (clusters & -> & Hdis & Hsets & Hcov).
  rewrite bind_Value.
  destruct (processResults_spec selector Math_log Math_sqrt (dedup fuel) clusters Hsets)
    as (res & Hrun & Huniq & Hnd & Hds).
  { intros c Hc. apply Hself. intros x Hx. apply Hcov. by exists c. }
  exists res. split; [exact Hrun|].
  by eapply partition_of_clusters.
Qed.

Lemma deduplicateFiles_images fuel files :
  (forall f, f ∈ files -> isImage (media (selector f)) = true) ->
  (dbscanFuel cfg processFile (VPTree_build files) files < fuel)%nat ->
  exists r, dedup fuel files = Value r /\ partitionsFiles r files.
Proof using Hbuild.
  intros Himg Hfuel. destruct fuel as [|fuel]; [lia|].
  apply deduplicateFiles_step; [lia|].
  intros c Hc caps _ _ _ (v & Hv & Hvid).
  rewrite (Himg v (Hc v Hv)) in Hvid. done.
Qed.

(** The nested call on a selection of images of [files] delivers. *)
Lemma deduplicateFiles_delivers fuel files c :
  (dedupFuel cfg processFile VPTree_build files <= S fuel)%nat ->
  (forall x, x ∈ c -> x ∈ files) ->
  delivers selector (dedup fuel) c.
Proof using Hbuild.
  intros Hfuel Hc caps Hnd _ Hcaps _.
  destruct (deduplicateFiles_images fuel caps) as (r & Hr & Hpart).
  - intros f Hf. by apply Hcaps.
  - unfold dedupFuel in Hfuel.
    assert (Hle : (dbscanFuel cfg processFile (VPTree_build caps) caps
                   <= max_list ((fun caps => dbscanFuel cfg processFile
                                               (VPTree_build caps) caps)
                                <$> listsUpTo (length files) files))%nat).
    { apply max_list_elem_of_le, list_elem_of_fmap. exists caps. split; [done|].
      apply elem_of_listsUpTo.
      - apply submseteq_length, NoDup_submseteq; [done|].
        intros x Hx. apply Hc. by apply Hcaps.
      - intros x Hx. apply Hc. by apply Hcaps. }
    lia.
  - exists r. split; [done|]. intros x Hx.
    destruct Hpart as (Hmem & _). apply Hmem. by left.
Qed.

Lemma deduplicateFiles_spec fuel files :
  (dedupFuel cfg processFile VPTree_build files <= fuel)%nat ->
  exists r, dedup fuel files = Value r /\ partitionsFiles r files.
Proof using Hbuild.
  intros Hfuel. destruct fuel as [|fuel]; [unfold dedupFuel in Hfuel; lia|].
  apply deduplicateFiles_step.
  - assert (Hle : (dbscanFuel cfg processFile (VPTree_build files) files
                   <= max_list ((fun caps => dbscanFuel cfg processFile
                                               (VPTree_build caps) caps)
                                <$> listsUpTo (length files) files))%nat).
    { apply max_list_elem_of_le, list_elem_of_fmap. exists files. split; [done|].
      by apply elem_of_listsUpTo. }
    unfold dedupFuel in Hfuel. lia.
  - intros c Hc. by apply (deduplicateFiles_delivers fuel files).
Qed.

End Pipeline.


Lemma sampleBuild_within files : treeWithin (sampleBuild files) files.
Proof.
  intros p e nb Hnb. unfold sampleBuild in Hnb.
  apply elem_of_List_filter in Hnb as [_ Hnb]. by apply bool_decide_eq_true in Hnb.
Qed.

(** C3.  When a tree built over a list of files returns only points of that
    list, [deduplicateFiles] returns on every list of files once the fuel
    covers the DBSCAN loops and the nested call, and the sets of its result
    partition the files: a path is a file exactly when it is in
    [uniqueFiles] or in the representatives or duplicates of a duplicate
    set, and no path is in two of these sets. *)
Theorem deduplicateFiles_partitions_files cfg processFile selector VPTree_build
  Math_log Math_sqrt files fuel :
  (forall fs, treeWithin (VPTree_build fs) fs) ->
  (dedupFuel cfg processFile VPTree_build files <= fuel)%nat ->
  exists r,
    deduplicateFiles cfg processFile selector VPTree_build Math_log Math_sqrt
      fuel files = Value r /\
    partitionsFiles r files.
Proof. intros Hbuild Hfuel. by apply deduplicateFiles_spec. Qed.

Lemma deduplicateFiles_partitions_files_witness :
  exists fuel r,
    deduplicateFiles sampleConfig sampleFile sampleFile sampleBuild
      (fun x => x) (fun x => x) fuel sampleUniverse = Value r /\
    partitionsFiles r sampleUniverse.
Proof.
  exists (dedupFuel sampleConfig sampleFile sampleBuild sampleUniverse).
  apply (deduplicateFiles_partitions_files sampleConfig sampleFile sampleFile
           sampleBuild (fun x => x) (fun x => x) sampleUniverse).
  - apply sampleBuild_within.
  - lia.
Defined.

Lemma Forall2_impl_elem {A B} (P Q : A -> B -> Prop) l k :
  Forall2 P l k -> (forall x y, x ∈ l -> P x y -> Q x y) -> Forall2 Q l k.
Proof.
  induction 1 as [|x y l k Hxy _ IH]; intros Himp; constructor.
  - apply Himp; [by left|done].
  - apply IH. intros x' y' Hx'. apply Himp. by right.
Qed.

(** C4.  [processResults], run on clusters that are non-empty sets with the
    nested [deduplicateFiles] it has in the pipeline, returns; its duplicate
    sets come from the clusters of two or more members, one by one and in
    order; in each the best file is a representative, no representative is a
    duplicate, the two hold the cluster, and, when no score of the cluster
    is NaN, the best file scores at least as much as every member. *)
Theorem processResults_best_file cfg processFile selector VPTree_build
  Math_log Math_sqrt clusters fuel :
  (forall fs, treeWithin (VPTree_build fs) fs) ->
  Forall (fun c => NoDup c /\ c <> []) clusters ->
  (dedupFuel cfg processFile VPTree_build (concat clusters) <= S fuel)%nat ->
  exists res,
    processResults selector Math_log Math_sqrt
      (deduplicateFiles cfg processFile selector VPTree_build Math_log Math_sqrt fuel)
      clusters = Value res /\
    Forall2
      (fun cluster ds =>
         (2 <= length cluster)%nat /\
         duplicateSetOf
           (fun entry => calculateEntryScore Math_log Math_sqrt (selector entry))
           cluster ds)
      (filter (fun c => length c <> 1%nat) clusters) (duplicateSets res).
Proof.
  intros Hbuild Hsets Hfuel.
  destruct (processResults_spec selector Math_log Math_sqrt
    (deduplicateFiles cfg processFile selector VPTree_build Math_log Math_sqrt fuel)
    clusters Hsets) as (res & Hrun & _ & _ & Hds).
  { intros c Hc.
    apply (deduplicateFiles_delivers cfg processFile selector VPTree_build
             Math_log Math_sqrt Hbuild fuel (concat clusters)); [done|].
    intros x Hx. apply elem_of_concat. by exists c. }
  exists res. split; [done|].
  eapply Forall2_impl_elem; [exact Hds|].
  intros c ds Hc Hok. split; [|done].
  apply list_elem_of_filter in Hc as [Hlen Hc].
  rewrite Forall_forall in Hsets. destruct (Hsets c Hc) as [_ Hne].
  destruct c as [|? [|? ?]]; simpl in *; try done; lia.
Qed.

Lemma processResults_best_file_witness :
  exists fuel res,
    processResults sampleFile (fun x => x) (fun x => x)
      (deduplicateFiles sampleConfig sampleFile sampleFile sampleBuild
         (fun x => x) (fun x => x) fuel)
      [["a"; "b"; "c"]; ["d"]]%string = Value res /\
    Forall2
      (fun cluster ds =>
         (2 <= length cluster)%nat /\
         duplicateSetOf
           (fun entry => calculateEntryScore (fun x => x) (fun x => x) (sampleFile entry))
           cluster ds)
      [["a"; "b"; "c"]]%string (duplicateSets res).
Proof.
  exists (dedupFuel sampleConfig sampleFile sampleBuild
            (concat [["a"; "b"; "c"]; ["d"]]%string)).
  apply (processResults_best_file sampleConfig sampleFile sampleFile sampleBuild
           (fun x => x) (fun x => x) [["a"; "b"; "c"]; ["d"]]%string).
  - apply sampleBuild_within.
  - repeat constructor; try discriminate.
    + intros H. apply elem_of_cons in H as [H|H]; [discriminate|].
      apply elem_of_cons in H as [H|H]; [discriminate|]. by apply elem_of_nil in H.
    + intros H. apply elem_of_cons in H as [H|H]; [discriminate|].
      by apply elem_of_nil in H.
    + intros H. by apply elem_of_nil in H.
    + intros H. by apply elem_of_nil in H.
  - lia.
Defined.


(** * Further properties of the code *)

(** ** Bit counts and the Hamming distance *)

Lemma land_div_mod a b :
  Z.land a b = Z.land (a mod 256) (b mod 256) + 256 * Z.land (a / 256) (b / 256).
Proof.
  rewrite (Z.div_mod (Z.land a b) 256) at 1 by lia.
  change 256 with (2 ^ 8).
  rewrite <- !Z.shiftr_div_pow2, <- !Z.land_ones by lia.
  rewrite Z.shiftr_land.
  assert (Z.land (Z.land a b) (Z.ones 8) = Z.land (Z.land a (Z.ones 8)) (Z.land b (Z.ones 8))).
  { apply Z.bits_inj'. intros n Hn. rewrite !Z.land_spec.
    destruct (Z.testbit a n), (Z.testbit b n), (Z.testbit (Z.ones 8) n); reflexivity. }
  lia.
Qed.

Lemma land_bytes x y m M :
  0 <= x < 256 -> 0 <= m < 256 ->
  Z.land (x + 256 * y) (m + 256 * M) = Z.land x m + 256 * Z.land y M.
Proof.
  intros Hx Hm. rewrite land_div_mod.
  replace ((x + 256 * y) mod 256) with x by (Z.to_euclidean_division_equations; lia).
  replace ((m + 256 * M) mod 256) with m by (Z.to_euclidean_division_equations; lia).
  replace ((x + 256 * y) / 256) with y by (Z.to_euclidean_division_equations; lia).
  replace ((m + 256 * M) / 256) with M by (Z.to_euclidean_division_equations; lia).
  reflexivity.
Qed.

(** Shifting right by [s] and masking with a byte mask that is clear in its
    top [s] bits acts on each byte by itself. *)
Lemma land_shiftr_bytes s x y m M :
  0 <= s <= 8 -> 0 <= x < 256 -> 0 <= m < 2 ^ (8 - s) ->
  Z.land (Z.shiftr (x + 256 * y) s) (m + 256 * M)
  = Z.land (Z.shiftr x s) m + 256 * Z.land (Z.shiftr y s) M.
Proof.
  intros Hs Hx Hm.
  assert (Hm' : m < 256).
  { assert (2 ^ (8 - s) <= 2 ^ 8) by (apply Z.pow_le_mono_r; lia). lia. }
  rewrite land_div_mod.
  replace ((m + 256 * M) mod 256) with m by (Z.to_euclidean_division_equations; lia).
  replace ((m + 256 * M) / 256) with M by (Z.to_euclidean_division_equations; lia).
  assert (Hhigh : Z.shiftr (x + 256 * y) s / 256 = Z.shiftr y s).
  { change 256 with (2 ^ 8) at 2. rewrite <- (Z.shiftr_div_pow2 _ 8) by lia.
    rewrite Z.shiftr_shiftr by lia. rewrite (Z.add_comm s 8).
    rewrite <- Z.shiftr_shiftr by lia. f_equal.
    rewrite Z.shiftr_div_pow2 by lia. change (2 ^ 8) with 256.
    Z.to_euclidean_division_equations; lia. }
  assert (Hlow : Z.land (Z.shiftr (x + 256 * y) s mod 256) m = Z.land (Z.shiftr x s) m).
  { apply Z.bits_inj'. intros n Hn. rewrite !Z.land_spec.
    destruct (Z_lt_le_dec n (8 - s)) as [Hlow|Hhigh'].
    + f_equal. change 256 with (2 ^ 8).
      rewrite Z.mod_pow2_bits_low by lia.
      rewrite !Z.shiftr_spec by lia.
      rewrite <- (Z.mod_pow2_bits_low (x + 2 ^ 8 * y) 8) by lia.
      f_equal. change (2 ^ 8) with 256. Z.to_euclidean_division_equations; lia.
    + assert (Z.testbit m n = false) as ->; [|by rewrite !andb_false_r].
      destruct (Z.eq_dec m 0) as [->|Hne]; [apply Z.bits_0|].
      apply Z.bits_above_log2; [lia|].
      apply Z.log2_lt_pow2; [lia|].
      assert (2 ^ (8 - s) <= 2 ^ n) by (apply Z.pow_le_mono_r; lia). lia. }
  by rewrite Hhigh, Hlow.
Qed.

(** A property checked on each of the 256 byte values holds of every byte. *)
Lemma byte_forall (P : Z -> bool) :
  forallb P (Z.of_nat <$> seq 0 256) = true -> forall b, 0 <= b < 256 -> P b = true.
Proof.
  intros H b Hb. rewrite forallb_forall in H. apply H.
  apply list_elem_of_In, list_elem_of_fmap. exists (Z.to_nat b). split; [lia|].
  apply elem_of_seq. lia.
Qed.

Lemma popcount8_bitCount b : 0 <= b < 256 -> popcount8 b = bitCount 8 b.
Proof.
  intros Hb. apply Z.eqb_eq.
  revert b Hb. apply (byte_forall (fun b => popcount8 b =? bitCount 8 b)).
  by vm_compute.
Qed.

Lemma bitCount_nonneg w n : 0 <= bitCount w n.
Proof.
  revert n. induction w as [|w IH]; intros n; simpl; [lia|].
  specialize (IH (n / 2)). Z.to_euclidean_division_equations; lia.
Qed.

Lemma bitCount_le w n : bitCount w n <= Z.of_nat w.
Proof.
  revert n. induction w as [|w IH]; intros n; simpl bitCount; [lia|].
  specialize (IH (n / 2)). Z.to_euclidean_division_equations; lia.
Qed.

Lemma bitCount_app a b n :
  bitCount (a + b) n = bitCount a n + bitCount b (n / 2 ^ Z.of_nat a).
Proof.
  revert n. induction a as [|a IH]; intros n.
  - simpl. by rewrite Z.div_1_r.
  - change (S a + b)%nat with (S (a + b)). simpl bitCount. rewrite IH.
    rewrite Nat2Z.inj_succ, Z.pow_succ_r by lia.
    rewrite Z.div_div by lia. lia.
Qed.

Lemma bitCount_mod w n : bitCount w (n mod 2 ^ Z.of_nat w) = bitCount w n.
Proof.
  revert n. induction w as [|w IH]; intros n; [done|].
  simpl bitCount. rewrite Nat2Z.inj_succ, Z.pow_succ_r by lia.
  assert (0 < 2 ^ Z.of_nat w) by (apply Z.pow_pos_nonneg; lia).
  rewrite <- (IH (n / 2)). rewrite Z.rem_mul_r by lia.
  set (r := (n / 2) mod 2 ^ Z.of_nat w).
  replace ((n mod 2 + 2 * r) mod 2) with (n mod 2)
    by (Z.to_euclidean_division_equations; lia).
  replace ((n mod 2 + 2 * r) / 2) with r
    by (Z.to_euclidean_division_equations; lia).
  reflexivity.
Qed.

Lemma bitCount_zero w n : 0 <= n < 2 ^ Z.of_nat w -> bitCount w n = 0 -> n = 0.
Proof.
  revert n. induction w as [|w IH]; intros n Hn; simpl bitCount.
  - simpl in Hn. lia.
  - rewrite Nat2Z.inj_succ, Z.pow_succ_r in Hn by lia. intros H.
    pose proof (bitCount_nonneg w (n / 2)).
    assert (n / 2 = 0).
    { apply IH; [|Z.to_euclidean_division_equations; lia].
      Z.to_euclidean_division_equations; lia. }
    Z.to_euclidean_division_equations; lia.
Qed.

Lemma land_shiftr_digits s m bs :
  0 <= s <= 8 -> 0 <= m < 2 ^ (8 - s) -> Forall (fun b => 0 <= b < 256) bs ->
  Z.land (Z.shiftr (le_digits bs) s) (le_digits (replicate (length bs) m))
  = le_digits ((fun b => Z.land (Z.shiftr b s) m) <$> bs).
Proof.
  intros Hs Hm. induction 1 as [|b bs Hb _ IH]; simpl.
  - by rewrite Z.shiftr_0_l.
  - rewrite land_shiftr_bytes by done. by rewrite IH.
Qed.

Lemma le_digits_sub (g : Z -> Z) bs :
  le_digits bs - le_digits (g <$> bs) = le_digits ((fun b => b - g b) <$> bs).
Proof. induction bs as [|b bs IH]; csimpl; lia. Qed.

Lemma le_digits_add (g h : Z -> Z) bs :
  le_digits (g <$> bs) + le_digits (h <$> bs) = le_digits ((fun b => g b + h b) <$> bs).
Proof. induction bs as [|b bs IH]; csimpl; lia. Qed.

Lemma pairs_step b :
  0 <= b < 256 -> 0 <= b - Z.land (Z.shiftr b 1) 0x55 < 256.
Proof.
  intros Hb.
  assert (H : (0 <=? b - Z.land (Z.shiftr b 1) 0x55) &&
              (b - Z.land (Z.shiftr b 1) 0x55 <? 256) = true).
  { revert b Hb. apply byte_forall. by vm_compute. }
  apply andb_true_iff in H as [H1 H2]. lia.
Qed.

Lemma nibbles_step b :
  0 <= b < 256 ->
  let c := b - Z.land (Z.shiftr b 1) 0x55 in
  let d := Z.land (Z.shiftr c 0) 0x33 + Z.land (Z.shiftr c 2) 0x33 in
  0 <= d < 256 /\ d mod 16 <= 4 /\ d / 16 <= 4 /\ (d + d / 16) mod 16 = bitCount 8 b.
Proof.
  intros Hb.
  assert (H :
    (let c := b - Z.land (Z.shiftr b 1) 0x55 in
     let d := Z.land (Z.shiftr c 0) 0x33 + Z.land (Z.shiftr c 2) 0x33 in
     (0 <=? d) && (d <? 256) && (d mod 16 <=? 4) && (d / 16 <=? 4) &&
     ((d + d / 16) mod 16 =? bitCount 8 b)) = true).
  { revert b Hb. apply byte_forall. by vm_compute. }
  cbv zeta in *. repeat (apply andb_true_iff in H as [H ?]). lia.
Qed.

Lemma bytes_step d0 d1 d2 d3 d4 d5 d6 d7 :
  Forall (fun d => 0 <= d < 256 /\ d mod 16 <= 4 /\ d / 16 <= 4)
    [d0; d1; d2; d3; d4; d5; d6; d7] ->
  let ds := le_digits [d0; d1; d2; d3; d4; d5; d6; d7] in
  Z.land (ds + Z.shiftr ds 4) 0x0f0f0f0f0f0f0f0f =
  le_digits ((fun d => (d + d / 16) mod 16) <$> [d0; d1; d2; d3; d4; d5; d6; d7]).
Proof.
  intros Hds ds.
  repeat match goal with
  | H : Forall _ (_ :: _) |- _ => apply Forall_cons in H as [? H]
  end.
  assert (Hsum : ds + Z.shiftr ds 4 =
    le_digits [d0 + d0 / 16 + 16 * (d1 mod 16); d1 + d1 / 16 + 16 * (d2 mod 16);
               d2 + d2 / 16 + 16 * (d3 mod 16); d3 + d3 / 16 + 16 * (d4 mod 16);
               d4 + d4 / 16 + 16 * (d5 mod 16); d5 + d5 / 16 + 16 * (d6 mod 16);
               d6 + d6 / 16 + 16 * (d7 mod 16); d7 + d7 / 16]).
  { rewrite Z.shiftr_div_pow2 by lia. change (2 ^ 4) with 16.
    assert (Hdiv : ds / 16 =
      le_digits [d0 / 16 + 16 * (d1 mod 16); d1 / 16 + 16 * (d2 mod 16);
                 d2 / 16 + 16 * (d3 mod 16); d3 / 16 + 16 * (d4 mod 16);
                 d4 / 16 + 16 * (d5 mod 16); d5 / 16 + 16 * (d6 mod 16);
                 d6 / 16 + 16 * (d7 mod 16); d7 / 16]).
    { symmetry. apply (Z.div_unique_pos ds 16 _ (d0 mod 16)).
      - apply Z.mod_pos_bound. lia.
      - subst ds. cbn [le_digits].
        pose proof (Z.div_mod d0 16 ltac:(lia)). pose proof (Z.div_mod d1 16 ltac:(lia)).
        pose proof (Z.div_mod d2 16 ltac:(lia)). pose proof (Z.div_mod d3 16 ltac:(lia)).
        pose proof (Z.div_mod d4 16 ltac:(lia)). pose proof (Z.div_mod d5 16 ltac:(lia)).
        pose proof (Z.div_mod d6 16 ltac:(lia)). pose proof (Z.div_mod d7 16 ltac:(lia)).
        clear -H7 H8 H9 H10 H11 H12 H13 H14.
        generalize dependent (d0 / 16). generalize dependent (d0 mod 16).
        generalize dependent (d1 / 16). generalize dependent (d1 mod 16).
        generalize dependent (d2 / 16). generalize dependent (d2 mod 16).
        generalize dependent (d3 / 16). generalize dependent (d3 mod 16).
        generalize dependent (d4 / 16). generalize dependent (d4 mod 16).
        generalize dependent (d5 / 16). generalize dependent (d5 mod 16).
        generalize dependent (d6 / 16). generalize dependent (d6 mod 16).
        generalize dependent (d7 / 16). generalize dependent (d7 mod 16).
        intros. subst. ring. }
    rewrite Hdiv. subst ds. cbn [le_digits]. ring. }
  rewrite Hsum.
  set (es := [d0 + d0 / 16 + 16 * (d1 mod 16); d1 + d1 / 16 + 16 * (d2 mod 16);
               d2 + d2 / 16 + 16 * (d3 mod 16); d3 + d3 / 16 + 16 * (d4 mod 16);
               d4 + d4 / 16 + 16 * (d5 mod 16); d5 + d5 / 16 + 16 * (d6 mod 16);
               d6 + d6 / 16 + 16 * (d7 mod 16); d7 + d7 / 16]).
  rewrite <- (Z.shiftr_0_r (le_digits es)).
  change 0x0f0f0f0f0f0f0f0f with (le_digits (replicate (length es) 0x0f)).
  rewrite land_shiftr_digits; [|lia|simpl; lia|].
  - subst es. cbn [fmap list_fmap le_digits].
    rewrite !Z.shiftr_0_r. change 15 with (Z.ones 4). rewrite !Z.land_ones by lia.
    change (2 ^ 4) with 16.
    rewrite !(Z.mul_comm 16 (_ mod 16)), !Z_mod_plus_full. reflexivity.
  - subst es. repeat constructor; Z.to_euclidean_division_equations; lia.
Qed.

Lemma sums_step p0 p1 p2 p3 p4 p5 p6 p7 :
  Forall (fun p => 0 <= p <= 8) [p0; p1; p2; p3; p4; p5; p6; p7] ->
  Z.shiftr (le_digits [p0; p1; p2; p3; p4; p5; p6; p7] * 0x0101010101010101) 56 =
  le_digits [p0 + p1 + p2 + p3 + p4 + p5 + p6 + p7;
             p1 + p2 + p3 + p4 + p5 + p6 + p7;
             p2 + p3 + p4 + p5 + p6 + p7;
             p3 + p4 + p5 + p6 + p7;
             p4 + p5 + p6 + p7;
             p5 + p6 + p7;
             p6 + p7;
             p7].
Proof.
  intros Hps.
  repeat match goal with
  | H : Forall _ (_ :: _) |- _ => apply Forall_cons in H as [? H]
  end.
  rewrite Z.shiftr_div_pow2 by lia. cbn [le_digits].
  change (2 ^ 56) with 72057594037927936.
  Z.to_euclidean_division_equations. lia.
Qed.

(** [popcount64] on a word given by its bytes, lowest first: byte [k] of the
    result holds the number of ones in bytes [k] and above. *)
Lemma popcount64_digits b0 b1 b2 b3 b4 b5 b6 b7 :
  Forall (fun b => 0 <= b < 256) [b0; b1; b2; b3; b4; b5; b6; b7] ->
  let p := bitCount 8 in
  popcount64 (le_digits [b0; b1; b2; b3; b4; b5; b6; b7]) =
  le_digits [p b0 + p b1 + p b2 + p b3 + p b4 + p b5 + p b6 + p b7;
             p b1 + p b2 + p b3 + p b4 + p b5 + p b6 + p b7;
             p b2 + p b3 + p b4 + p b5 + p b6 + p b7;
             p b3 + p b4 + p b5 + p b6 + p b7;
             p b4 + p b5 + p b6 + p b7;
             p b5 + p b6 + p b7;
             p b6 + p b7;
             p b7].
Proof.
  intros Hbs p.
  set (bs := [b0; b1; b2; b3; b4; b5; b6; b7]) in *.
  set (cs := (fun b => b - Z.land (Z.shiftr b 1) 0x55) <$> bs).
  pose (nib := fun b : Z =>
         Z.land (Z.shiftr (b - Z.land (Z.shiftr b 1) 85) 0) 51 +
         Z.land (Z.shiftr (b - Z.land (Z.shiftr b 1) 85) 2) 51).
  assert (Hcs : Forall (fun b => 0 <= b < 256) cs).
  { apply Forall_fmap. eapply Forall_impl; [exact Hbs|]. intros b Hb. by apply pairs_step. }
  assert (S1 : le_digits bs - Z.land (Z.shiftr (le_digits bs) 1) 0x5555555555555555
               = le_digits cs).
  { change 0x5555555555555555 with (le_digits (replicate (length bs) 0x55)).
    rewrite land_shiftr_digits by (done || (simpl; lia)).
    by rewrite le_digits_sub. }
  assert (S2 : Z.land (le_digits cs) 0x3333333333333333 +
               Z.land (Z.shiftr (le_digits cs) 2) 0x3333333333333333
               = le_digits (nib <$> bs)).
  { rewrite <- (Z.shiftr_0_r (le_digits cs)) at 1.
    change 0x3333333333333333 with (le_digits (replicate (length cs) 0x33)).
    rewrite !land_shiftr_digits by (done || (simpl; lia)).
    rewrite le_digits_add. subst cs. by rewrite <- list_fmap_compose. }
  assert (Hnib : Forall (fun b => 0 <= nib b < 256 /\ nib b mod 16 <= 4 /\
                                  nib b / 16 <= 4 /\
                                  (nib b + nib b / 16) mod 16 = bitCount 8 b) bs).
  { eapply Forall_impl; [exact Hbs|]. intros b Hb. by apply nibbles_step. }
  unfold popcount64. cbv zeta. rewrite S1, S2.
  clear S1 S2 Hcs cs. subst bs. cbn [fmap list_fmap].
  repeat match goal with
  | H : Forall _ (_ :: _) |- _ => apply Forall_cons in H as [? H]
  end.
  rewrite bytes_step by (repeat constructor; tauto).
  cbn [fmap list_fmap].
  repeat match goal with
  | H : _ /\ _ /\ _ /\ (nib ?b + nib ?b / 16) mod 16 = _ |- _ =>
      let E := fresh in destruct H as (_ & _ & _ & E); rewrite E
  end.
  apply sums_step.
  repeat (apply List.Forall_cons;
          [split; [apply bitCount_nonneg|apply (bitCount_le 8)]|]).
  apply List.Forall_nil.
Qed.

Lemma bitCount_digits bs :
  Forall (fun b => 0 <= b < 256) bs ->
  bitCount (8 * length bs) (le_digits bs) = foldr Z.add 0 (bitCount 8 <$> bs).
Proof.
  induction 1 as [|b bs Hb _ IH]; [done|].
  cbn [length le_digits fmap list_fmap foldr].
  replace (8 * S (length bs))%nat with (8 + 8 * length bs)%nat by lia.
  rewrite bitCount_app. change (2 ^ Z.of_nat 8) with 256.
  rewrite <- (bitCount_mod 8 (b + 256 * le_digits bs)). change (2 ^ Z.of_nat 8) with 256.
  replace ((b + 256 * le_digits bs) mod 256) with b
    by (Z.to_euclidean_division_equations; lia).
  replace ((b + 256 * le_digits bs) / 256) with (le_digits bs)
    by (Z.to_euclidean_division_equations; lia).
  by rewrite IH.
Qed.

Lemma digits_of_word n :
  0 <= n < 2 ^ 64 ->
  exists b0 b1 b2 b3 b4 b5 b6 b7,
    Forall (fun b => 0 <= b < 256) [b0; b1; b2; b3; b4; b5; b6; b7] /\
    n = le_digits [b0; b1; b2; b3; b4; b5; b6; b7].
Proof.
  intros Hn. change (2 ^ 64) with 18446744073709551616 in Hn.
  exists (n mod 256), (n / 256 mod 256), (n / 65536 mod 256), (n / 16777216 mod 256),
    (n / 4294967296 mod 256), (n / 1099511627776 mod 256),
    (n / 281474976710656 mod 256), (n / 72057594037927936).
  split.
  - repeat (apply List.Forall_cons; [Z.to_euclidean_division_equations; lia|]).
    apply List.Forall_nil.
  - cbn [le_digits]. Z.to_euclidean_division_equations. lia.
Qed.

Lemma digits_high_zero b0 b1 b2 b3 b4 b5 b6 b7 :
  Forall (fun b => 0 <= b < 256) [b0; b1; b2; b3; b4; b5; b6; b7] ->
  le_digits [b0; b1; b2; b3; b4; b5; b6; b7] < 256 <->
  b1 = 0 /\ b2 = 0 /\ b3 = 0 /\ b4 = 0 /\ b5 = 0 /\ b6 = 0 /\ b7 = 0.
Proof.
  intros Hbs.
  repeat match goal with
  | H : Forall _ (_ :: _) |- _ => apply Forall_cons in H as [? H]
  end.
  cbn [le_digits]. lia.
Qed.

Lemma popcount64_counts_aux n :
  0 <= n < 2 ^ 64 ->
  0 <= bitCount 64 n <= 64 /\
  exists extra, 0 <= extra /\ popcount64 n = bitCount 64 n + 256 * extra /\
                (extra = 0 <-> n < 256).
Proof.
  intros Hn. split; [split; [apply bitCount_nonneg|apply (bitCount_le 64)]|].
  destruct (digits_of_word n Hn) as (b0 & b1 & b2 & b3 & b4 & b5 & b6 & b7 & Hbs & ->).
  rewrite popcount64_digits by done. cbv zeta.
  change 64%nat with (8 * length [b0; b1; b2; b3; b4; b5; b6; b7])%nat.
  rewrite (bitCount_digits [b0; b1; b2; b3; b4; b5; b6; b7] Hbs).
  pose proof (digits_high_zero _ _ _ _ _ _ _ _ Hbs) as Hhigh.
  cbn [fmap list_fmap foldr].
  repeat match goal with
  | H : Forall _ (_ :: _) |- _ => apply Forall_cons in H as [? H]
  end.
  set (p := bitCount 8).
  assert (Hp : forall b, 0 <= b < 256 -> 0 <= p b /\ (p b = 0 <-> b = 0)).
  { intros b Hb. split; [apply bitCount_nonneg|]. split.
    - by apply (bitCount_zero 8).
    - by intros ->. }
  destruct (Hp b0) as [? _]; [done|]. destruct (Hp b1) as [? [? ?]]; [done|].
  destruct (Hp b2) as [? [? ?]]; [done|]. destruct (Hp b3) as [? [? ?]]; [done|].
  destruct (Hp b4) as [? [? ?]]; [done|]. destruct (Hp b5) as [? [? ?]]; [done|].
  destruct (Hp b6) as [? [? ?]]; [done|]. destruct (Hp b7) as [? [? ?]]; [done|].
  exists (le_digits [p b1 + p b2 + p b3 + p b4 + p b5 + p b6 + p b7;
                     p b2 + p b3 + p b4 + p b5 + p b6 + p b7;
                     p b3 + p b4 + p b5 + p b6 + p b7;
                     p b4 + p b5 + p b6 + p b7;
                     p b5 + p b6 + p b7;
                     p b6 + p b7;
                     p b7]).
  split; [cbn [le_digits]; lia|]. split; [cbn [le_digits]; lia|].
  rewrite Hhigh. cbn [le_digits]. split.
  - intros Hx.
    assert (p b1 = 0 /\ p b2 = 0 /\ p b3 = 0 /\ p b4 = 0 /\ p b5 = 0 /\
            p b6 = 0 /\ p b7 = 0) as (?&?&?&?&?&?&?) by lia.
    repeat split; auto.
  - intros (->&->&->&->&->&->&->). reflexivity.
Qed.

Lemma words_bound h : Forall (fun w => 0 <= w < 2 ^ 64) (words h).
Proof.
  induction h as [h Hshort|b0 b1 b2 b3 b4 b5 b6 b7 rest IH] using buffer_ind8.
  - rewrite words_short by done. constructor.
  - cbn [words]. constructor; [|done].
    assert (Hb : forall b, 0 <= byte_val b < 256).
    { intros b. unfold byte_val. pose proof (Byte.to_N_bounded b). lia. }
    pose proof (Hb b0). pose proof (Hb b1). pose proof (Hb b2). pose proof (Hb b3).
    pose proof (Hb b4). pose proof (Hb b5). pose proof (Hb b6). pose proof (Hb b7).
    cbn [le_word]. change (2 ^ 64) with 18446744073709551616. lia.
Qed.

Lemma lxor_bound a b n :
  0 <= n -> 0 <= a < 2 ^ n -> 0 <= b < 2 ^ n -> 0 <= Z.lxor a b < 2 ^ n.
Proof.
  intros Hn Ha Hb. split; [apply Z.lxor_nonneg; lia|].
  assert (Hpow : 0 < 2 ^ n) by (apply Z.pow_pos_nonneg; lia).
  destruct (Z.eq_dec (Z.lxor a b) 0) as [->|Hne]; [done|].
  assert (0 < Z.lxor a b).
  { assert (0 <= Z.lxor a b) by (apply Z.lxor_nonneg; lia). lia. }
  destruct (Z.eq_dec n 0) as [->|Hn0].
  { change (2 ^ 0) with 1 in *. assert (a = 0) as -> by lia. assert (b = 0) as -> by lia.
    done. }
  apply Z.log2_lt_pow2; [done|].
  pose proof (Z.log2_lxor a b ltac:(lia) ltac:(lia)).
  assert (Z.log2 a < n).
  { destruct (Z.eq_dec a 0) as [->|]; [simpl; lia|]. apply Z.log2_lt_pow2; lia. }
  assert (Z.log2 b < n).
  { destruct (Z.eq_dec b 0) as [->|]; [simpl; lia|]. apply Z.log2_lt_pow2; lia. }
  lia.
Qed.

Lemma sumZ_snoc l x : sumZ (l ++ [x]) = sumZ l + x.
Proof. unfold sumZ. induction l as [|y l IH]; simpl; lia. Qed.

Lemma sumZ_nonneg l : Forall (fun x => 0 <= x) l -> 0 <= sumZ l.
Proof. unfold sumZ. induction 1; simpl; lia. Qed.

Lemma sumZ_zero l : Forall (fun x => 0 <= x) l -> sumZ l = 0 -> Forall (fun x => x = 0) l.
Proof.
  unfold sumZ. induction 1 as [|x l Hx Hl IH]; simpl; intros Hsum; [done|].
  pose proof (sumZ_nonneg l Hl). unfold sumZ in *.
  constructor; [lia|]. apply IH. lia.
Qed.

(** The loop of [hammingDistance] adds up [popcount64] over the words. *)
Lemma hammingBits_sum h1 h2 :
  length h1 = length h2 -> byteLength h1 mod 8 = 0 ->
  hammingBits h1 h2 =
    Value (sumZ (zip_with (fun x y => popcount64 (Z.lxor x y)) (words h1) (words h2))).
Proof.
  intros Hlen H1.
  assert (H2 : byteLength h2 mod 8 = 0) by (unfold byteLength in *; by rewrite <- Hlen).
  rewrite hammingBits_words by done.
  assert (Hw : length (words h1) = length (words h2)) by (by rewrite !words_length, Hlen).
  set (f := fun x y => popcount64 (Z.lxor x y)).
  assert (Hloop : forall n, (n <= length (words h1))%nat ->
    for_each (seq 0 n)
      (fun distance i => x ← xor_at (words h1) (words h2) i;
                         Value (distance + popcount64 x)) 0
    = Value (sumZ (take n (zip_with f (words h1) (words h2))))).
  { induction n as [|n IH]; intros Hn; [done|].
    rewrite seq_S, for_each_snoc, IH by lia. rewrite bind_Value. simpl.
    unfold xor_at.
    destruct (lookup_lt_is_Some_2 (words h1) n) as [x Hx]; [lia|].
    destruct (lookup_lt_is_Some_2 (words h2) n) as [y Hy]; [lia|].
    rewrite Hx, Hy. simpl. f_equal.
    rewrite (take_S_r _ _ (f x y)), sumZ_snoc; [done|].
    rewrite lookup_zip_with, Hx. simpl. by rewrite Hy. }
  rewrite Hloop by done. f_equal. f_equal.
  apply take_ge. rewrite length_zip_with. lia.
Qed.

Lemma byte_val_inj b c : byte_val b = byte_val c -> b = c.
Proof.
  unfold byte_val. intros H. apply N2Z.inj in H.
  pose proof (Byte.of_to_N b) as Hb. rewrite H, Byte.of_to_N in Hb. congruence.
Qed.

Lemma le_word_inj bs : forall cs,
  length bs = length cs -> le_word bs = le_word cs -> bs = cs.
Proof.
  induction bs as [|b bs IH]; intros [|c cs] Hlen Hw; try done.
  cbn [le_word] in Hw.
  assert (Hb : forall b, 0 <= byte_val b < 256).
  { intros x. unfold byte_val. pose proof (Byte.to_N_bounded x). lia. }
  pose proof (Hb b). pose proof (Hb c).
  assert (byte_val b = byte_val c /\ le_word bs = le_word cs) as [E1 E2] by lia.
  apply byte_val_inj in E1. subst. f_equal. apply IH; [simpl in Hlen; lia|done].
Qed.

Lemma words_inj (h1 : buffer) : forall h2 : buffer,
  length h1 = length h2 -> byteLength h1 mod 8 = 0 -> words h1 = words h2 -> h1 = h2.
Proof.
  induction h1 as [h1 Hshort|b0 b1 b2 b3 b4 b5 b6 b7 rest IH] using buffer_ind8;
    intros h2 Hlen Hmod Hw.
  - unfold byteLength in Hmod.
    assert (length h1 = 0%nat) by (Z.to_euclidean_division_equations; lia).
    destruct h1; [|done]. by destruct h2.
  - destruct h2 as [|c0 [|c1 [|c2 [|c3 [|c4 [|c5 [|c6 [|c7 h2]]]]]]]]; try done.
    cbn [words] in Hw. injection Hw as Hword Hrest.
    apply (le_word_inj [b0; b1; b2; b3; b4; b5; b6; b7]
             [c0; c1; c2; c3; c4; c5; c6; c7]) in Hword; [|done]. injection Hword as -> -> -> -> -> -> -> ->.
    do 8 f_equal. apply IH; [simpl in Hlen; lia| |done].
    unfold byteLength in *. simpl length in Hmod.
    Z.to_euclidean_division_equations; lia.
Qed.

Lemma zip_with_Forall {A B C} (f : A -> B -> C) (P : A -> Prop) (Q : B -> Prop)
  (R : C -> Prop) l k :
  (forall x y, P x -> Q y -> R (f x y)) -> Forall P l -> Forall Q k ->
  Forall R (zip_with f l k).
Proof.
  intros Hf Hl. revert k. induction Hl as [|x l Hx _ IH]; intros k Hk; [constructor|].
  destruct Hk as [|y k Hy Hk]; [constructor|]. simpl. constructor; auto.
Qed.

(** X1.  [popcount8] counts the ones of a byte. *)
Theorem popcount8_counts_bits n : 0 <= n < 256 -> popcount8 n = bitCount 8 n.
Proof. apply popcount8_bitCount. Qed.

Lemma popcount8_counts_bits_witness : popcount8 0xb5 = 5.
Proof. apply (popcount8_counts_bits 0xb5). lia. Defined.

(** X2.  On a 64-bit word [popcount64] returns the number of ones plus a
    multiple of 256: its lowest byte is the count, it is never below the
    count, and it is the count exactly for the words below 256.  (The
    product with [0x0101010101010101] is not cut to 64 bits, so byte [k] of
    the result holds the ones of bytes [k] and above.) *)
Theorem popcount64_low_byte_counts n :
  0 <= n < 2 ^ 64 ->
  popcount64 n mod 256 = bitCount 64 n /\
  bitCount 64 n <= popcount64 n /\
  (popcount64 n = bitCount 64 n <-> n < 256).
Proof.
  intros Hn.
  destruct (popcount64_counts_aux n Hn) as [Hc (extra & Hextra & -> & Hiff)].
  split; [|split].
  - Z.to_euclidean_division_equations; lia.
  - lia.
  - rewrite <- Hiff. lia.
Qed.

Lemma popcount64_low_byte_counts_witness :
  popcount64 0x0180 mod 256 = bitCount 64 0x0180 /\
  bitCount 64 0x0180 <= popcount64 0x0180 /\
  (popcount64 0x0180 = bitCount 64 0x0180 <-> 0x0180 < 256).
Proof. apply (popcount64_low_byte_counts 0x0180). lia. Defined.

(** X3.  A hash whose byte length is not a multiple of 8 cannot be viewed
    as 64-bit words: [hammingDistance] throws a RangeError before any bit is
    compared, so its loop over the remaining bytes never runs. *)
Theorem hammingDistance_partial_word_throws h1 h2 :
  byteLength h1 mod 8 <> 0 \/ byteLength h2 mod 8 <> 0 ->
  hammingDistance h1 h2 = Throws RangeError.
Proof.
  intros H. unfold hammingDistance, hammingBits, BigUint64Array.
  destruct (decide (byteLength h1 mod 8 = 0)) as [H1|H1]; [|done].
  destruct (decide (byteLength h2 mod 8 = 0)) as [H2|H2]; [|done].
  tauto.
Qed.

Lemma hammingDistance_partial_word_throws_witness :
  hammingDistance [x01; x02; x03] [x01; x02; x07] = Throws RangeError.
Proof.
  apply (hammingDistance_partial_word_throws [x01; x02; x03] [x01; x02; x07]).
  left. by compute.
Defined.

(** X4.  Between two hashes of the same whole number of words the distance
    is defined, does not depend on the order, is 0 from a hash to itself,
    and is 0 only between equal hashes. *)
Theorem hammingDistance_symmetric_zero_iff_equal h1 h2 :
  length h1 = length h2 -> byteLength h1 mod 8 = 0 ->
  exists d,
    hammingDistance h1 h2 = Value (Num.of_Z d) /\
    hammingDistance h2 h1 = Value (Num.of_Z d) /\
    hammingDistance h1 h1 = Value (Num.of_Z 0) /\
    0 <= d /\ (d = 0 <-> h1 = h2).
Proof.
  intros Hlen Hmod.
  pose proof (hammingBits_sum h1 h2 Hlen Hmod) as Hsum.
  set (d := sumZ (zip_with (fun x y => popcount64 (Z.lxor x y)) (words h1) (words h2)))
    in *.
  assert (Hpc : Forall (fun x => 0 <= x)
                  (zip_with (fun x y => popcount64 (Z.lxor x y)) (words h1) (words h2))).
  { eapply zip_with_Forall; [|apply words_nonneg|apply words_nonneg].
    intros x y Hx Hy. simpl in *. apply popcount64_nonneg. by apply Z.lxor_nonneg. }
  exists d. unfold hammingDistance.
  rewrite <- (hammingBits_comm h1 h2 Hlen), Hsum, hammingBits_self by done.
  repeat split; [by apply sumZ_nonneg| |].
  - intros Hd. apply words_inj; [done..|].
    apply sumZ_zero in Hd; [|done].
    assert (Hw : length (words h1) = length (words h2)) by (by rewrite !words_length, Hlen).
    apply list_eq_same_length with (length (words h1)); [done..|].
    intros i x y Hi Hx Hy.
    rewrite Forall_lookup in Hd.
    specialize (Hd i (popcount64 (Z.lxor x y))). rewrite lookup_zip_with, Hx in Hd.
    simpl in Hd. rewrite Hy in Hd. specialize (Hd eq_refl).
    pose proof (words_bound h1) as B1. pose proof (words_bound h2) as B2.
    rewrite Forall_lookup in B1, B2. specialize (B1 i x Hx). specialize (B2 i y Hy).
    simpl in B1, B2.
    pose proof (lxor_bound x y 64 ltac:(lia) B1 B2) as Bx.
    destruct (popcount64_counts_aux _ Bx) as [Hc (extra & Hextra & Hpop & _)].
    apply Z.lxor_eq. apply (bitCount_zero 64); [done|]. lia.
  - intros <-. subst d.
    pose proof (hammingBits_self h1 Hmod) as Hself. rewrite Hsum in Hself.
    by injection Hself.
Qed.

Lemma hammingDistance_symmetric_zero_iff_equal_witness :
  exists d,
    hammingDistance bit8 zero8 = Value (Num.of_Z d) /\
    hammingDistance zero8 bit8 = Value (Num.of_Z d) /\
    hammingDistance bit8 bit8 = Value (Num.of_Z 0) /\
    0 <= d /\ (d = 0 <-> bit8 = zero8).
Proof. apply (hammingDistance_symmetric_zero_iff_equal bit8 zero8); reflexivity. Defined.

(** X5.  The bigint [distance] that the loops add up, before [Number]
    converts it, is never below the number of differing bits and differs
    from it by a multiple of 256; and the number returned is not below the
    number of differing bits: a hash pair is never reported closer than it
    is. *)
Theorem hammingDistance_at_least_bit_distance h1 h2 :
  length h1 = length h2 -> byteLength h1 mod 8 = 0 ->
  exists distance v,
    hammingBits h1 h2 = Value distance /\
    bitDistance h1 h2 <= distance /\
    (distance - bitDistance h1 h2) mod 256 = 0 /\
    hammingDistance h1 h2 = Value v /\
    Num.le (Num.of_Z (bitDistance h1 h2)) v = true.
Proof.
  intros Hlen Hmod. unfold hammingDistance.
  rewrite (hammingBits_sum h1 h2 Hlen Hmod).
  assert (Hsum : bitDistance h1 h2
                 <= sumZ (zip_with (fun x y => popcount64 (Z.lxor x y))
                            (words h1) (words h2)) /\
                 (sumZ (zip_with (fun x y => popcount64 (Z.lxor x y))
                          (words h1) (words h2)) - bitDistance h1 h2) mod 256 = 0).
  { unfold bitDistance.
    pose proof (words_bound h1) as B1. pose proof (words_bound h2) as B2.
    revert B1 B2. generalize (words h1) (words h2).
    induction l as [|x l IH]; intros [|y k] B1 B2;
      try (cbn [zip_with sumZ foldr]; split; [lia|reflexivity]).
    apply Forall_cons in B1 as [Bx B1]. apply Forall_cons in B2 as [By B2].
    specialize (IH k B1 B2). cbn [zip_with sumZ foldr] in *. fold (sumZ) in *.
    pose proof (lxor_bound x y 64 ltac:(lia) Bx By) as Bxy.
    destruct (popcount64_counts_aux _ Bxy) as [Hc (extra & Hextra & -> & _)].
    unfold sumZ in *. Z.to_euclidean_division_equations; lia. }
  destruct Hsum as [Hle Hmod256].
  eexists _, _. split; [reflexivity|]. split; [exact Hle|]. split; [exact Hmod256|].
  split; [reflexivity|].
  unfold Num.le, Num.of_Z. apply Qle_bool_iff. by rewrite <- Zle_Qle.
Qed.

Lemma hammingDistance_at_least_bit_distance_witness :
  exists distance v,
    hammingBits bit8 zero8 = Value distance /\
    bitDistance bit8 zero8 <= distance /\
    (distance - bitDistance bit8 zero8) mod 256 = 0 /\
    hammingDistance bit8 zero8 = Value v /\
    Num.le (Num.of_Z (bitDistance bit8 zero8)) v = true.
Proof. apply (hammingDistance_at_least_bit_distance bit8 zero8); reflexivity. Defined.

(** ** The early exit of the image-video comparison *)

Lemma imageVideoLoop_decides cfg k imageFrame t videoFrames :
  (0 < k)%nat -> length (hash imageFrame) = (8 * k)%nat ->
  imageVideoSimilarityThreshold cfg = Fin t ->
  Forall (fun f => length (hash f) = (8 * k)%nat) videoFrames ->
  forall b, (0 <= b <= 1)%Q -> (b < t)%Q ->
  exists v, imageVideoLoop cfg (Some imageFrame) videoFrames (Fin b) = Value (Fin v) /\
    (0 <= v <= 1)%Q /\ (b <= v)%Q /\
    ((t <= v)%Q <->
     exists f s, f ∈ videoFrames /\
       calculateImageSimilarity (Some imageFrame) (Some f) = Value (Fin s) /\ (t <= s)%Q) /\
    ((v < t)%Q ->
     forall f s, f ∈ videoFrames ->
       calculateImageSimilarity (Some imageFrame) (Some f) = Value (Fin s) -> (s <= v)%Q).
Proof.
  intros Hk Hi Hthr Hv.
  induction Hv as [|f rest Hf Hrest IH]; intros b Hb Hbt.
  - exists b. simpl. split; [done|]. split; [lra|]. split; [lra|]. split; [split|].
    + intros H. exfalso. lra.
    + intros (f & s & Hin & _). by apply elem_of_nil in Hin.
    + intros _ f s Hin. by apply elem_of_nil in Hin.
  - simpl.
    destruct (calculateImageSimilarity_le_1 k imageFrame f Hk Hi Hf) as (q & Hsim & Hq).
    rewrite Hsim, bind_Value, Hthr. unfold Num.gt, Num.ge, Num.lt, Num.le.
    assert (Hstep : forall b', (0 <= b' <= 1)%Q -> (b' < t)%Q -> (b <= b')%Q ->
              (q <= b')%Q ->
              exists v, imageVideoLoop cfg (Some imageFrame) rest (Fin b') = Value (Fin v) /\
                (0 <= v <= 1)%Q /\ (b <= v)%Q /\
                ((t <= v)%Q <->
                 exists f0 s, f0 ∈ f :: rest /\
                   calculateImageSimilarity (Some imageFrame) (Some f0) = Value (Fin s) /\
                   (t <= s)%Q) /\
                ((v < t)%Q ->
                 forall f0 s, f0 ∈ f :: rest ->
                   calculateImageSimilarity (Some imageFrame) (Some f0) = Value (Fin s) ->
                   (s <= v)%Q)).
    { intros b' Hb' Hb't Hbb' Hqb'.
      destruct (IH b' Hb' Hb't) as (v & Hrun & Hv01 & Hbv & Hiff & Hmax).
      exists v. split; [done|]. split; [lra|]. split; [lra|]. split; [split|].
      - intros Htv. apply Hiff in Htv as (f' & s & Hin & Hs & Hts).
        exists f', s. split; [by right|done].
      - intros (f' & s & Hin & Hs & Hts). apply Hiff.
        apply elem_of_cons in Hin as [->|Hin]; [|by exists f', s].
        rewrite Hsim in Hs. injection Hs as <-. exfalso. lra.
      - intros Hvt f' s Hin Hs. apply elem_of_cons in Hin as [->|Hin]; [|by eapply Hmax].
        rewrite Hsim in Hs. injection Hs as <-. lra. }
    destruct (Qle_bool q b) eqn:Hqb; simpl.
    + apply Qle_bool_iff in Hqb. apply Hstep; [done|done|lra|done].
    + apply Qle_bool_false in Hqb.
      destruct (Qle_bool t q) eqn:Htq.
      * apply Qle_bool_iff in Htq. exists q.
        split; [done|]. split; [lra|]. split; [lra|]. split; [split|].
        -- intros _. exists f, q. split; [by left|done].
        -- intros _. done.
        -- intros Hlt. exfalso. lra.
      * apply Qle_bool_false in Htq. apply Hstep; lra.
Qed.

(** X6.  For an image and a video with frames, hashes of one length and a
    positive image-video threshold [t]: the result lies in [[0, 1]]; it
    reaches [t] exactly when some video frame is that similar to the image;
    and when it stays below [t], it is at least the similarity of every
    frame. *)
Theorem calculateImageVideoSimilarity_reaches_threshold cfg k t image video imageFrame :
  (0 < k)%nat -> frames image !! 0%nat = Some imageFrame ->
  hashesOf k image -> hashesOf k video -> frames video <> [] ->
  imageVideoSimilarityThreshold cfg = Fin t -> (0 < t)%Q ->
  exists v,
    calculateImageVideoSimilarity cfg image video = Value (Fin v) /\
    (0 <= v <= 1)%Q /\
    ((t <= v)%Q <->
     exists f s, f ∈ frames video /\
       calculateImageSimilarity (Some imageFrame) (Some f) = Value (Fin s) /\ (t <= s)%Q) /\
    ((v < t)%Q ->
     forall f s, f ∈ frames video ->
       calculateImageSimilarity (Some imageFrame) (Some f) = Value (Fin s) -> (s <= v)%Q).
Proof.
  intros Hk H0 Hi Hv Hne Hthr Ht. unfold calculateImageVideoSimilarity.
  assert (Hlen : length (hash imageFrame) = (8 * k)%nat).
  { unfold hashesOf in Hi. rewrite Forall_lookup in Hi. by apply (Hi 0%nat). }
  destruct (frames image) as [|f0 fs] eqn:Hfi; [done|].
  destruct (frames video) as [|v0 vs] eqn:Hfv; [done|].
  simpl bool_decide. simpl orb. cbv iota.
  rewrite H0. unfold hashesOf in Hv. rewrite Hfv in Hv.
  destruct (imageVideoLoop_decides cfg k imageFrame t (v0 :: vs) Hk Hlen Hthr Hv 0%Q)
    as (v & Hrun & Hv01 & _ & Hiff & Hmax); [lra|lra|].
  exists v. split; [exact Hrun|]. split; [done|]. split; done.
Qed.

Lemma calculateImageVideoSimilarity_reaches_threshold_witness :
  exists v,
    calculateImageVideoSimilarity sampleConfig stillZero clipD = Value (Fin v) /\
    (0 <= v <= 1)%Q /\
    ((0.93 <= v)%Q <->
     exists f s, f ∈ frames clipD /\
       calculateImageSimilarity (Some (frameAt zero8 0)) (Some f) = Value (Fin s) /\
       (0.93 <= s)%Q) /\
    ((v < 0.93)%Q ->
     forall f s, f ∈ frames clipD ->
       calculateImageSimilarity (Some (frameAt zero8 0)) (Some f) = Value (Fin s) ->
       (s <= v)%Q).
Proof.
  apply (calculateImageVideoSimilarity_reaches_threshold sampleConfig 1 0.93
           stillZero clipD (frameAt zero8 0)).
  - lia.
  - reflexivity.
  - repeat constructor.
  - repeat constructor.
  - discriminate.
  - reflexivity.
  - reflexivity.
Defined.

(** ** The DTW row against the full table *)

(** X7.  When no pair of frames makes the frame comparison throw, the
    single rolling row of [calculateSequenceSimilarityDTW] computes the last
    cell of the full dynamic-time-warping table: the table whose corner is 0,
    whose borders are [Infinity] and whose inner cells are the cost of the
    two frames plus the least of the three cells before; the result is one
    minus that cell over the longer length. *)
Theorem calculateSequenceSimilarityDTW_is_full_table seq1 seq2 :
  (forall i j, (i < length seq1)%nat -> (j < length seq2)%nat ->
     exists s, calculateImageSimilarity (seq1 !! i) (seq2 !! j) = Value s) ->
  let c := frameCost seq1 seq2 in
  calculateSequenceSimilarityDTW seq1 seq2 =
    Value (Num.sub (Num.of_Z 1)
             (Num.div (dtwTable c (length seq1) (length seq2))
                (Num.of_nat (Nat.max (length seq1) (length seq2))))) /\
  dtwTable c 0 0 = Num.of_Z 0 /\
  (forall i, dtwTable c (S i) 0 = PInf) /\
  (forall j, dtwTable c 0 (S j) = PInf) /\
  (forall i j,
     dtwTable c (S i) (S j) =
       Num.add (c i j)
         (Num.min3 (dtwTable c i j) (dtwTable c i (S j)) (dtwTable c (S i) j))) /\
  (forall i j s,
     calculateImageSimilarity (seq1 !! i) (seq2 !! j) = Value s ->
     c i j = Num.sub (Num.of_Z 1) s).
Proof.
  intros Hsim c. split; [by apply calculateSequenceSimilarityDTW_table|].
  repeat split.
  intros i j s Hs. unfold c, frameCost. by rewrite Hs.
Qed.

Lemma calculateSequenceSimilarityDTW_is_full_table_witness :
  let seq1 := [frameAt bit8 0; frameAt zero8 1] in
  let seq2 := [frameAt zero8 0] in
  calculateSequenceSimilarityDTW seq1 seq2 =
    Value (Num.sub (Num.of_Z 1)
             (Num.div (dtwTable (frameCost seq1 seq2) 2 1) (Num.of_nat 2))).
Proof.
  intros seq1 seq2.
  apply (calculateSequenceSimilarityDTW_is_full_table seq1 seq2).
  intros i j Hi Hj. simpl in Hi, Hj.
  destruct j as [|j]; [|lia]. destruct i as [|[|i]]; [| |lia]; eexists; reflexivity.
Defined.

(** X8.  On two sequences with frames and hashes of one length the DTW
    similarity does not depend on the order of the sequences and is at most
    1 (or minus infinity); a sequence is at similarity 1 from itself. *)
Theorem calculateSequenceSimilarityDTW_symmetric k seq1 seq2 :
  (0 < k)%nat -> seq1 <> [] -> seq2 <> [] ->
  Forall (fun f => length (hash f) = (8 * k)%nat) seq1 ->
  Forall (fun f => length (hash f) = (8 * k)%nat) seq2 ->
  exists w12 w21 w11,
    calculateSequenceSimilarityDTW seq1 seq2 = Value w12 /\
    calculateSequenceSimilarityDTW seq2 seq1 = Value w21 /\
    Num.equiv w12 w21 /\ atMostOne w12 /\
    calculateSequenceSimilarityDTW seq1 seq1 = Value w11 /\ Num.equiv w11 (Fin 1).
Proof.
  intros Hk Hne1 Hne2 H1 H2.
  destruct (window_score_atMostOne k seq1 seq2 Hk Hne2 H1 H2) as (w12 & R12 & Hw12).
  destruct (window_score_atMostOne k seq2 seq1 Hk Hne1 H2 H1) as (w21 & R21 & _).
  destruct (window_score_self k seq1 Hk Hne1 H1) as (w11 & R11 & Hw11).
  exists w12, w21, w11. repeat split; try done.
  by apply (window_score_comm k seq1 seq2).
Qed.

Lemma calculateSequenceSimilarityDTW_symmetric_witness :
  exists w12 w21 w11,
    calculateSequenceSimilarityDTW (frames clipC) (frames clipA) = Value w12 /\
    calculateSequenceSimilarityDTW (frames clipA) (frames clipC) = Value w21 /\
    Num.equiv w12 w21 /\ atMostOne w12 /\
    calculateSequenceSimilarityDTW (frames clipC) (frames clipC) = Value w11 /\
    Num.equiv w11 (Fin 1).
Proof.
  apply (calculateSequenceSimilarityDTW_symmetric 1 (frames clipC) (frames clipA)).
  - lia.
  - discriminate.
  - discriminate.
  - repeat constructor.
  - repeat constructor.
Defined.

(** ** A step of zero *)

Lemma max_absorbs a w : Num.max (Num.max a w) w = Num.max a w.
Proof.
  destruct a as [x| | |], w as [y| | |]; simpl; try reflexivity;
    try (by destruct (Qle_bool y y)).
  destruct (Qle_bool x y) eqn:E; simpl.
  - by destruct (Qle_bool y y).
  - by rewrite E.
Qed.

Lemma getFramesInTimeRange_start media t e :
  (t == 0)%Q ->
  getFramesInTimeRange media (Fin t) (Num.add (Fin t) (Fin e)) =
  getFramesInTimeRange media (Num.of_Z 0) (Num.add (Num.of_Z 0) (Fin e)).
Proof.
  intros Ht. unfold getFramesInTimeRange. apply filter_ext. intros f.
  unfold Num.ge, Num.le, Num.add, Num.of_Z. change (inject_Z 0) with 0%Q.
  assert (Qle_bool t (timestamp f) = Qle_bool 0 (timestamp f)) as ->.
  { destruct (Qle_bool t _) eqn:E1, (Qle_bool 0 _) eqn:E2; try done; q_bools; lra. }
  assert (Qle_bool (timestamp f) (t + e) = Qle_bool (timestamp f) (0 + e)) as ->; [|done].
  destruct (Qle_bool _ (t + e)) eqn:E1, (Qle_bool _ (0 + e)) eqn:E2; try done;
    q_bools; lra.
Qed.

(** X9.  With a step of zero the window never moves: when the first window
    of the longer video scores below the video threshold, the loop of
    [calculateVideoSimilarity] never ends. *)
Theorem calculateVideoSimilarity_zero_step_diverges cfg shorter longer s w :
  stepSize cfg = Fin s -> (s == 0)%Q ->
  (duration shorter <= duration longer)%Q ->
  calculateSequenceSimilarityDTW
    (getFramesInTimeRange longer (Num.of_Z 0)
       (Num.add (Num.of_Z 0) (Fin (duration shorter))))
    (frames shorter) = Value w ->
  Num.ge (Num.max (Num.of_Z 0) w) (videoSimilarityThreshold cfg) = false ->
  forall fuel, calculateVideoSimilarity cfg fuel shorter longer = OutOfFuel.
Proof.
  intros Hstep Hs Hdur Hw Hthr fuel. unfold calculateVideoSimilarity.
  assert (Qle_bool (duration shorter) (duration longer) = true) as ->
    by (by apply Qle_bool_iff).
  assert (Hloop : forall fuel t best, (t == 0)%Q ->
            best = Num.of_Z 0 \/ best = Num.max (Num.of_Z 0) w ->
            videoLoop cfg fuel shorter longer (Fin t) best = OutOfFuel).
  { clear fuel. induction fuel as [|fuel IH]; intros t best Ht Hbest; [done|].
    simpl. assert (Qle_bool t (duration longer - duration shorter) = true) as ->.
    { apply Qle_bool_iff. lra. }
    change (Fin (t + duration shorter)) with (Num.add (Fin t) (Fin (duration shorter))).
    rewrite getFramesInTimeRange_start by done. rewrite Hw, bind_Value.
    assert (Num.max best w = Num.max (Num.of_Z 0) w) as ->.
    { destruct Hbest as [->| ->]; [done|apply max_absorbs]. }
    rewrite Hthr, Hstep. apply IH; [simpl; lra|by right]. }
  apply Hloop; [reflexivity|by left].
Qed.

Lemma calculateVideoSimilarity_zero_step_diverges_witness :
  calculateVideoSimilarity
    {| imageSimilarityThreshold := Fin 0.99; imageVideoSimilarityThreshold := Fin 0.93;
       videoSimilarityThreshold := Fin 0.93; stepSize := Fin 0 |}
    1000 clipA clipD = OutOfFuel.
Proof.
  eapply (calculateVideoSimilarity_zero_step_diverges _ clipA clipD 0).
  - reflexivity.
  - reflexivity.
  - by compute.
  - reflexivity.
  - reflexivity.
Defined.

(** ** The search radius *)

(** X10.  With finite thresholds, the threshold picked for a pair does not
    depend on the order of the pair and is never below the least of the
    three; so a neighbour that passes the check of [getValidNeighbors] lies
    within the radius [eps] the tree is searched with. *)
Theorem eps_covers_adaptive_threshold cfg a b c media1 media2 d :
  imageSimilarityThreshold cfg = Fin a ->
  imageVideoSimilarityThreshold cfg = Fin b ->
  videoSimilarityThreshold cfg = Fin c ->
  getAdaptiveThreshold cfg media1 media2 = getAdaptiveThreshold cfg media2 media1 /\
  Num.le (minThreshold cfg) (getAdaptiveThreshold cfg media1 media2) = true /\
  (Num.ge (Num.sub (Num.of_Z 1) d) (getAdaptiveThreshold cfg media1 media2) = true ->
   Num.le d (eps cfg) = true).
Proof.
  intros Ha Hb Hc.
  unfold eps, minThreshold, getAdaptiveThreshold, Num.min3, Num.min, Num.ge, Num.le,
    Num.sub, Num.of_Z.
  rewrite Ha, Hb, Hc. change (inject_Z 1) with 1%Q.
  destruct (isImage media1), (isImage media2); simpl;
    destruct d as [x| | |]; simpl;
    repeat split; q_bools; simpl; try done; q_bools; try done; try lra.
Qed.

Lemma eps_covers_adaptive_threshold_witness :
  getAdaptiveThreshold sampleConfig stillZero clipA
    = getAdaptiveThreshold sampleConfig clipA stillZero /\
  Num.le (minThreshold sampleConfig) (getAdaptiveThreshold sampleConfig stillZero clipA)
    = true /\
  (Num.ge (Num.sub (Num.of_Z 1) (Fin 0.05))
     (getAdaptiveThreshold sampleConfig stillZero clipA) = true ->
   Num.le (Fin 0.05) (eps sampleConfig) = true).
Proof.
  apply (eps_covers_adaptive_threshold sampleConfig 0.99 0.93 0.93 stillZero clipA
           (Fin 0.05)); reflexivity.
Defined.

(** ** More on the merge *)

Lemma merge_loop_invariant clusters k :
  Forall (fun c => NoDup c /\ c <> []) clusters -> (k <= length clusters)%nat ->
  mergeInvariant clusters k
    (foldl mergeStep {| heap := clusters; merged := []; elementToClusterMap := ∅ |}
       (seq 0 k)).
Proof.
  intros Hsets. induction k as [|k IH]; intros Hk.
  - simpl. split; [exists []; simpl; by rewrite app_nil_r|]. simpl.
    split; [constructor|].
    split; [intros r Hr; by apply elem_of_nil in Hr|].
    split; [intros e r Hm; by rewrite lookup_empty in Hm|].
    split; [intros r e Hr; by apply elem_of_nil in Hr|].
    split; [|intros r Hr; by apply elem_of_nil in Hr].
    intros e. split.
    + intros (r & Hr & _). by apply elem_of_nil in Hr.
    + intros (i & c & Hi & _). lia.
  - rewrite seq_S, foldl_app. simpl.
    apply mergeStep_invariant; [done|lia|apply IH; lia].
Qed.

Lemma mergeStep_together clusters k st :
  Forall (fun c => NoDup c /\ c <> []) clusters ->
  (k < length clusters)%nat ->
  mergeInvariant clusters k st -> keptTogether clusters k st ->
  keptTogether clusters (S k) (mergeStep st k).
Proof.
  intros Hsets Hk ([extra Hheap] & Hnd & Href & Hmap & Hown & Hcov & Hset) Htog.
  destruct (lookup_lt_is_Some_2 clusters k Hk) as [cluster Hcluster].
  assert (Hderef : deref (heap st) k = cluster).
  { unfold deref. rewrite Hheap, lookup_app_l, Hcluster by done. done. }
  unfold mergeStep. rewrite Hderef.
  destruct (relatedClustersOf_spec (elementToClusterMap st) cluster) as [Hrnd Hrel].
  case_bool_decide as Hnone.
  - intros i c Hi Hc. simpl. destruct (decide (i = k)) as [->|Hne].
    + exists k. split; [apply elem_of_app; right; by left|].
      rewrite Hderef. intros e He. congruence.
    + destruct (Htog i c ltac:(lia) Hc) as (r & Hr & Hsub).
      exists r. split; [apply elem_of_app; by left|done].
  - assert (Hsub : forall r, r ∈ relatedClustersOf (elementToClusterMap st) cluster ->
                             r ∈ merged st).
    { intros r Hr. apply Hrel in Hr as (e & _ & Hm). by apply (Hmap e r). }
    pose proof (merge_related_fold (heap st)
                  (relatedClustersOf (elementToClusterMap st) cluster)
                  (set_from cluster) (merged st) Hrnd Hnd Hsub) as Hfold.
    destruct (foldl _ _ (relatedClustersOf _ _)) as [mergedCluster merged0].
    destruct Hfold as (He & Hndc & Hndm & Hm0).
    intros i c Hi Hc. simpl. destruct (decide (i = k)) as [->|Hne].
    + exists (length (heap st)). split; [apply elem_of_app; right; by left|].
      rewrite deref_app_new. intros e Hec. apply He. left.
      apply elem_of_set_from. congruence.
    + destruct (Htog i c ltac:(lia) Hc) as (r & Hr & Hin).
      destruct (decide (r ∈ relatedClustersOf (elementToClusterMap st) cluster))
        as [Hrelated|Hother].
      * exists (length (heap st)). split; [apply elem_of_app; right; by left|].
        rewrite deref_app_new. intros e Hec. apply He. right. exists r. auto.
      * exists r. split; [apply elem_of_app; left; by apply Hm0|].
        intros e Hec. rewrite deref_app_l; [by apply Hin|]. by apply Href.
Qed.

Lemma merge_loop_together clusters k :
  Forall (fun c => NoDup c /\ c <> []) clusters -> (k <= length clusters)%nat ->
  keptTogether clusters k
    (foldl mergeStep {| heap := clusters; merged := []; elementToClusterMap := ∅ |}
       (seq 0 k)).
Proof.
  intros Hsets. induction k as [|k IH]; intros Hk.
  - intros i c Hi. lia.
  - rewrite seq_S, foldl_app. simpl.
    apply mergeStep_together; [done|lia|apply merge_loop_invariant; [done|lia]|apply IH; lia].
Qed.

(** X11.  The merge of clusters that are non-empty sets returns non-empty
    sets that share no path and hold the same paths overall; every cluster of
    the input lies within one cluster of the output, so two clusters that
    share a path end up in the same one. *)
Theorem mergeAndDeduplicate_merges_overlaps clusters :
  Forall (fun c => NoDup c /\ c <> []) clusters ->
  pairwiseDisjoint (mergeAndDeduplicate clusters) /\
  Forall (fun c => NoDup c /\ c <> []) (mergeAndDeduplicate clusters) /\
  (forall e, (exists c, c ∈ mergeAndDeduplicate clusters /\ e ∈ c) <->
             (exists c, c ∈ clusters /\ e ∈ c)) /\
  (forall c, c ∈ clusters ->
     exists c', c' ∈ mergeAndDeduplicate clusters /\ forall e, e ∈ c -> e ∈ c') /\
  (forall c1 c2 e, c1 ∈ clusters -> c2 ∈ clusters -> e ∈ c1 -> e ∈ c2 ->
     exists c', c' ∈ mergeAndDeduplicate clusters /\
       (forall x, x ∈ c1 -> x ∈ c') /\ (forall x, x ∈ c2 -> x ∈ c')).
Proof.
  intros Hsets.
  destruct (mergeAndDeduplicate_spec clusters Hsets) as (Hdisj & Hout & Hcover).
  assert (Hin : forall c, c ∈ clusters ->
     exists c', c' ∈ mergeAndDeduplicate clusters /\ forall e, e ∈ c -> e ∈ c').
  { intros c Hc. apply list_elem_of_lookup in Hc as [i Hi].
    pose proof (merge_loop_together clusters (length clusters) Hsets ltac:(lia)) as Htog.
    destruct (Htog i c) as (r & Hr & Hsub); [by eapply lookup_lt_Some|done|].
    unfold mergeAndDeduplicate. eexists. split; [|exact Hsub].
    apply list_elem_of_fmap. by exists r. }
  split; [done|]. split; [done|]. split; [done|]. split; [done|].
  intros c1 c2 e Hc1 Hc2 He1 He2.
  destruct (Hin c1 Hc1) as (c1' & Hc1' & Hsub1).
  destruct (Hin c2 Hc2) as (c2' & Hc2' & Hsub2).
  exists c1'. split; [done|]. split; [done|].
  apply list_elem_of_lookup in Hc1' as [i Hi]. apply list_elem_of_lookup in Hc2' as [j Hj].
  destruct (decide (i = j)) as [->|Hne].
  - assert (c1' = c2') as -> by congruence. done.
  - exfalso. by apply (Hdisj i j c1' c2' e Hi Hj Hne); [apply Hsub1|apply Hsub2].
Qed.

Lemma mergeAndDeduplicate_merges_overlaps_witness :
  mergeAndDeduplicate [["a"; "b"]; ["c"]; ["b"; "d"]]%string
    = [["c"]; ["b"; "d"; "a"]]%string /\
  pairwiseDisjoint (mergeAndDeduplicate [["a"; "b"]; ["c"]; ["b"; "d"]]%string).
Proof.
  split; [reflexivity|].
  apply (mergeAndDeduplicate_merges_overlaps [["a"; "b"]; ["c"]; ["b"; "d"]]%string).
  repeat constructor; try discriminate;
    rewrite ?list_elem_of_In; simpl; intuition discriminate.
Defined.

Lemma relatedClustersOf_nil (m : gmap string nat) cluster :
  (forall e, e ∈ cluster -> m !! e = None) -> relatedClustersOf m cluster = [].
Proof.
  intros Hnone. destruct (relatedClustersOf_spec m cluster) as [_ Hrel].
  destruct (relatedClustersOf m cluster) as [|r l]; [done|]. exfalso.
  destruct (proj1 (Hrel r)) as (e & He & Hm); [by left|].
  rewrite (Hnone e He) in Hm. done.
Qed.

Lemma merge_loop_disjoint clusters k :
  Forall (fun c => NoDup c /\ c <> []) clusters -> pairwiseDisjoint clusters ->
  (k <= length clusters)%nat ->
  let st := foldl mergeStep {| heap := clusters; merged := []; elementToClusterMap := ∅ |}
              (seq 0 k) in
  heap st = clusters /\ merged st = seq 0 k.
Proof.
  intros Hsets Hdisj. induction k as [|k IH]; intros Hk; [done|].
  cbv zeta in *. rewrite seq_S, foldl_app. simpl.
  pose proof (merge_loop_invariant clusters k Hsets ltac:(lia)) as Hinv.
  destruct (IH ltac:(lia)) as [Hheap Hmerged].
  set (st := foldl mergeStep _ (seq 0 k)) in *.
  destruct Hinv as (_ & _ & _ & Hmap & _).
  destruct (lookup_lt_is_Some_2 clusters k ltac:(lia)) as [cluster Hcluster].
  unfold mergeStep.
  rewrite relatedClustersOf_nil.
  - simpl. by rewrite Hheap, Hmerged.
  - intros e He. destruct (elementToClusterMap st !! e) as [r|] eqn:Hm; [|done].
    exfalso. destruct (Hmap e r Hm) as [Hr Her].
    rewrite Hmerged in Hr. apply elem_of_seq in Hr.
    rewrite Hheap in He, Her. unfold deref in He, Her. rewrite Hcluster in He.
    destruct (clusters !! r) as [c|] eqn:Hc; [|by apply elem_of_nil in Her].
    simpl in *. apply (Hdisj r k c cluster e); [done|done|lia|done|done].
Qed.

(** X12.  Clusters that share no path are returned as they are, in the same
    order; hence merging the result of a merge again changes nothing. *)
Theorem mergeAndDeduplicate_disjoint_identity clusters :
  Forall (fun c => NoDup c /\ c <> []) clusters ->
  (pairwiseDisjoint clusters -> mergeAndDeduplicate clusters = clusters) /\
  mergeAndDeduplicate (mergeAndDeduplicate clusters) = mergeAndDeduplicate clusters.
Proof.
  assert (Hid : forall cs, Forall (fun c => NoDup c /\ c <> []) cs ->
            pairwiseDisjoint cs -> mergeAndDeduplicate cs = cs).
  { intros cs Hsets Hdisj. unfold mergeAndDeduplicate.
    destruct (merge_loop_disjoint cs (length cs) Hsets Hdisj ltac:(lia)) as [-> ->].
    apply list_eq. intros i. rewrite list_lookup_fmap.
    destruct (cs !! i) as [c|] eqn:Hc.
    - rewrite lookup_seq_lt by (by eapply lookup_lt_Some). simpl.
      unfold deref. by rewrite Hc.
    - rewrite lookup_seq_ge; [done|]. by apply lookup_ge_None. }
  intros Hsets. split; [by apply Hid|].
  destruct (mergeAndDeduplicate_spec clusters Hsets) as (Hdisj & Hout & _).
  by apply Hid.
Qed.

Lemma mergeAndDeduplicate_disjoint_identity_witness :
  mergeAndDeduplicate (mergeAndDeduplicate [["a"; "b"]; ["c"]; ["b"; "d"]]%string)
    = mergeAndDeduplicate [["a"; "b"]; ["c"]; ["b"; "d"]]%string.
Proof.
  apply (mergeAndDeduplicate_disjoint_identity [["a"; "b"]; ["c"]; ["b"; "d"]]%string).
  repeat constructor; try discriminate;
    rewrite ?list_elem_of_In; simpl; intuition discriminate.
Defined.

(** ** Batches *)

Lemma concat_slices {A} (s n : nat) : forall l : list A,
  (length l <= n * s)%nat ->
  concat ((fun k => slice l (k * s) (k * s + s)) <$> seq 0 n) = l.
Proof.
  induction n as [|n IH]; intros l Hl.
  - destruct l; [done|simpl in Hl; lia].
  - cbn [seq fmap list_fmap concat]. rewrite <- fmap_S_seq, <- list_fmap_compose.
    unfold slice at 1. simpl. replace (s - 0)%nat with s by lia.
    transitivity (take s l ++ drop s l); [|apply take_drop]. f_equal.
    rewrite <- (IH (drop s l)) by (rewrite length_drop; lia).
    f_equal. apply list_fmap_ext. intros _ k _. unfold slice, compose.
    replace (S k * s + s - S k * s)%nat with (k * s + s - k * s)%nat by lia.
    f_equal. rewrite drop_drop. f_equal; lia.
Qed.

(** X13.  The batches handed to the workers are the file list cut in its
    order into runs of at most 2048 files, none of them empty: joined
    together they are the file list again. *)
Theorem batches_cut_the_file_list files :
  concat (batches files) = files /\
  Forall (fun batch => (0 < length batch <= batchSize)%nat) (batches files) /\
  length (batches files) = Nat.div (length files + batchSize - 1) batchSize.
Proof.
  unfold batches. pose proof batchSize_pos as Hpos.
  set (n := Nat.div (length files + batchSize - 1) batchSize).
  assert (Hn : (length files <= n * batchSize /\
                forall k, k < n -> k * batchSize < length files)%nat).
  { subst n. pose proof (Nat.div_mod_eq (length files + batchSize - 1) batchSize).
    pose proof (Nat.mod_upper_bound (length files + batchSize - 1) batchSize).
    split; [nia|]. intros k Hk. nia. }
  destruct Hn as [Hcover Hfull].
  split; [by apply concat_slices|]. split; [|by rewrite length_fmap, length_seq].
  apply Forall_fmap, Forall_forall. intros k Hk. apply elem_of_seq in Hk.
  simpl. unfold slice. rewrite length_take, length_drop.
  specialize (Hfull k ltac:(lia)). lia.
Qed.

(** ** Clusters are density-connected *)

(** X14.  Every cluster [workerDBSCAN] returns is grown from a point of the
    chunk, its seed: a cluster of more than its seed has a seed with at
    least two validated neighbours, and each of its other members is a
    validated neighbour of a member with at least two. *)
Theorem workerDBSCAN_clusters_density_connected cfg processFile vpTree universe
  chunk fuel :
  treeWithin vpTree universe -> (forall p, p ∈ chunk -> p ∈ universe) ->
  (dbscanFuel cfg processFile vpTree universe <= fuel)%nat ->
  exists clusters,
    workerDBSCAN cfg processFile fuel chunk vpTree = Value clusters /\
    Forall (fun c => exists seed, seed ∈ chunk /\
              densityConnected
                (fun p => getValidNeighbors cfg processFile p vpTree (eps cfg)) c seed)
      clusters.
Proof.
  intros Htree Hchunk Hfuel.
  destruct (workerDBSCAN_spec cfg processFile vpTree universe Htree fuel chunk
              Hchunk Hfuel) as (clusters & Hrun & _).
  exists clusters. split; [done|].
  unfold workerDBSCAN in Hrun.
  destruct (for_each chunk _ _) as [st| |] eqn:Hloop; try done.
  rewrite bind_Value in Hrun. injection Hrun as <-.
  apply (for_each_prefix_partial
    (fun _ st => Forall (fun c => exists seed, seed ∈ chunk /\
              densityConnected
                (fun p => getValidNeighbors cfg processFile p vpTree (eps cfg)) c seed)
              (fst st))
    chunk (scanPoint cfg processFile fuel vpTree) ([], []) st);
    [constructor| |exact Hloop].
  intros pre p s s' Hs Hp Hstep.
  by apply (scanPoint_connected cfg processFile vpTree fuel chunk s s' p).
Qed.

Lemma workerDBSCAN_clusters_density_connected_witness :
  exists clusters,
    workerDBSCAN sampleConfig sampleFile 20 ["a"; "d"; "c"]%string sampleTree
      = Value clusters /\
    Forall (fun c => exists seed, seed ∈ ["a"; "d"; "c"]%string /\
              densityConnected
                (fun p => getValidNeighbors sampleConfig sampleFile p sampleTree
                            (eps sampleConfig)) c seed)
      clusters.
Proof.
  apply (workerDBSCAN_clusters_density_connected sampleConfig sampleFile sampleTree
           sampleUniverse ["a"; "d"; "c"]%string 20).
  - apply sampleTree_within.
  - intros p Hp. apply list_elem_of_In in Hp. apply list_elem_of_In. simpl in *. tauto.
  - vm_compute. lia.
Defined.

(** ** Counting the files of a result *)

Lemma NoDup_concat_disjoint {A} (ls : list (list A)) :
  Forall NoDup ls ->
  (forall i j li lj x, ls !! i = Some li -> ls !! j = Some lj -> i <> j ->
     x ∈ li -> x ∉ lj) ->
  NoDup (concat ls).
Proof.
  induction 1 as [|l ls Hl _ IH]; intros Hdis; simpl; [constructor|].
  apply NoDup_app. split; [done|]. split.
  - intros x Hx Hx'. apply elem_of_concat in Hx' as (l' & Hl' & Hxl').
    apply list_elem_of_lookup in Hl' as [j Hj].
    by apply (Hdis 0%nat (S j) l l' x).
  - apply IH. intros i j li lj x Hi Hj Hne. apply (Hdis (S i) (S j)); [done|done|lia].
Qed.

Lemma partitionsFiles_count r files :
  partitionsFiles r files -> NoDup files ->
  (length (uniqueFiles r) +
   sum_list ((fun ds => length (representatives ds) + length (duplicates ds))
             <$> duplicateSets r) = length files)%nat.
Proof.
  intros (Hmem & Huniq & Hsets & Hrd & Hnd & Hnds) Hfiles.
  set (parts := (fun ds => representatives ds ++ duplicates ds) <$> duplicateSets r).
  assert (Hperm : uniqueFiles r ++ concat parts ≡ₚ files).
  { apply NoDup_Permutation; [|done|].
    - apply NoDup_app. split; [done|]. split.
      + intros x Hx Hx'. apply elem_of_concat in Hx' as (l & Hl & Hxl).
        apply list_elem_of_fmap in Hl as (ds & -> & Hds).
        destruct (Huniq x ds Hx Hds) as [H1 H2].
        apply elem_of_app in Hxl as [?|?]; done.
      + apply NoDup_concat_disjoint.
        * apply Forall_fmap. rewrite Forall_forall in Hnds. apply Forall_forall.
          intros ds Hds. destruct (Hnds ds Hds) as [H1 H2]. simpl.
          apply NoDup_app. split; [done|]. split; [|done].
          intros x Hx. by apply (Hrd ds).
        * intros i j li lj x Hi Hj Hne Hx Hx'. unfold parts in Hi, Hj.
          rewrite list_lookup_fmap in Hi, Hj.
          destruct (duplicateSets r !! i) as [dsi|] eqn:Hdi; [|done].
          destruct (duplicateSets r !! j) as [dsj|] eqn:Hdj; [|done].
          injection Hi as <-. injection Hj as <-.
          apply elem_of_app in Hx. apply elem_of_app in Hx'.
          destruct (Hsets i j dsi dsj x Hdi Hdj Hne Hx) as [H1 H2].
          destruct Hx'; done.
    - intros x. rewrite Hmem, elem_of_app, elem_of_concat. split.
      + intros [Hx|(l & Hl & Hxl)]; [by left|]. right.
        apply list_elem_of_fmap in Hl as (ds & -> & Hds).
        exists ds. split; [done|]. by apply elem_of_app.
      + intros [Hx|(ds & Hds & Hx)]; [by left|]. right.
        exists (representatives ds ++ duplicates ds). split; [|by apply elem_of_app].
        apply list_elem_of_fmap. by exists ds. }
  rewrite <- Hperm, length_app.
  assert (Hsum : length (concat parts) =
            sum_list ((fun ds => length (representatives ds) + length (duplicates ds))%nat
                      <$> duplicateSets r)).
  { subst parts. clear. induction (duplicateSets r) as [|ds l IH]; [done|].
    csimpl. rewrite !length_app. rewrite IH. lia. }
  lia.
Qed.

(** X15.  On a list of distinct files, the sizes of the sets of the result
    add up to the number of files: the unique files, and in every duplicate
    set the representatives and the duplicates. *)
Theorem deduplicateFiles_counts_every_file cfg processFile selector VPTree_build
  Math_log Math_sqrt files fuel :
  (forall fs, treeWithin (VPTree_build fs) fs) ->
  NoDup files ->
  (dedupFuel cfg processFile VPTree_build files <= fuel)%nat ->
  exists r,
    deduplicateFiles cfg processFile selector VPTree_build Math_log Math_sqrt
      fuel files = Value r /\
    (length (uniqueFiles r) +
     sum_list ((fun ds => length (representatives ds) + length (duplicates ds))
               <$> duplicateSets r) = length files)%nat.
Proof.
  intros Hbuild Hnd Hfuel.
  destruct (deduplicateFiles_spec cfg processFile selector VPTree_build Math_log
              Math_sqrt Hbuild fuel files Hfuel) as (r & Hrun & Hpart).
  exists r. split; [done|]. by apply partitionsFiles_count.
Qed.

Lemma deduplicateFiles_counts_every_file_witness :
  exists fuel r,
    deduplicateFiles sampleConfig sampleFile sampleFile sampleBuild
      (fun x => x) (fun x => x) fuel sampleUniverse = Value r /\
    (length (uniqueFiles r) +
     sum_list ((fun ds => length (representatives ds) + length (duplicates ds))
               <$> duplicateSets r) = 4)%nat.
Proof.
  exists (dedupFuel sampleConfig sampleFile sampleBuild sampleUniverse).
  apply (deduplicateFiles_counts_every_file sampleConfig sampleFile sampleFile
           sampleBuild (fun x => x) (fun x => x) sampleUniverse).
  - apply sampleBuild_within.
  - repeat constructor; rewrite ?list_elem_of_In; simpl; intuition discriminate.
  - lia.
Defined.

(** ** The order of the scored entries *)

Section SortedScores.
Context {A : Type} (score : A -> number).

Let cmp (a b : A) : number := Num.sub (score b) (score a).
Let above (a b : A) : Prop := Num.ge (score a) (score b) = true.

Lemma sort_insert_sorted x l :
  score x <> NaN -> (forall y, y ∈ l -> score y <> NaN) ->
  StronglySorted above l -> StronglySorted above (sort_insert cmp x l).
Proof.
  intros Hx Hl Hsorted. unfold cmp.
  induction Hsorted as [|y l Hs IH Hy]; cbn [sort_insert].
  - repeat constructor.
  - assert (Hyn : score y <> NaN) by (apply Hl; by left).
    pose proof (descending_comparator (score x) (score y) Hx Hyn) as Hcmp.
    destruct (Num.gt (Num.sub (score y) (score x)) (Num.of_Z 0)).
    + constructor; [apply IH; intros z Hz; apply Hl; by right|].
      apply Forall_forall. intros z Hz.
      rewrite sort_insert_perm in Hz. apply elem_of_cons in Hz as [->|Hz]; [done|].
      rewrite Forall_forall in Hy. by apply Hy.
    + constructor; [by constructor|]. constructor; [done|].
      apply Forall_forall. intros z Hz. rewrite Forall_forall in Hy.
      unfold above, Num.ge. eapply num_le_trans; [apply (Hy z Hz)|done].
Qed.

Lemma array_sort_sorted l :
  (forall y, y ∈ l -> score y <> NaN) -> StronglySorted above (array_sort cmp l).
Proof.
  induction l as [|x l IH]; intros Hl; [constructor|].
  unfold array_sort, cmp in *. cbn [foldr]. apply sort_insert_sorted.
  - apply Hl. by left.
  - intros y Hy. apply Hl. right.
    by rewrite <- (array_sort_perm score l).
  - apply IH. intros y Hy. apply Hl. by right.
Qed.

End SortedScores.

(** X16.  When no score is NaN, [scoreEntries] returns the entries
    reordered so that every entry scores at least as much as each entry
    after it. *)
Theorem scoreEntries_sorted_by_score selector Math_log Math_sqrt entries :
  (forall e, e ∈ entries -> calculateEntryScore Math_log Math_sqrt (selector e) <> NaN) ->
  scoreEntries selector Math_log Math_sqrt entries ≡ₚ entries /\
  StronglySorted
    (fun a b => Num.ge (calculateEntryScore Math_log Math_sqrt (selector a))
                       (calculateEntryScore Math_log Math_sqrt (selector b)) = true)
    (scoreEntries selector Math_log Math_sqrt entries).
Proof.
  intros Hnan. split; [apply scoreEntries_perm|].
  unfold scoreEntries.
  pose (score := fun e => calculateEntryScore Math_log Math_sqrt (selector e)).
  remember ((fun entry => (entry, calculateEntryScore Math_log Math_sqrt (selector entry)))
            <$> entries) as pairs eqn:Epairs.
  assert (Hpairs : forall p, p ∈ pairs -> snd p = score (fst p) /\ fst p ∈ entries).
  { intros p Hp. subst pairs. apply list_elem_of_fmap in Hp as (e & -> & He). done. }
  pose proof (array_sort_sorted (A := string * number) snd pairs) as Hsorted.
  pose proof (array_sort_perm (A := string * number) snd pairs) as Hperm.
  cbv zeta in Hsorted.
  remember (array_sort (fun a b : string * number => Num.sub (snd b) (snd a)) pairs)
    as l eqn:El.
  assert (Hall : forall p, p ∈ l -> snd p = score (fst p)).
  { intros p Hp. rewrite Hperm in Hp. by apply Hpairs. }
  specialize (Hsorted ltac:(intros p Hp; destruct (Hpairs p Hp) as [-> Hin];
                            by apply Hnan)).
  clear El Hperm. induction Hsorted as [|p l Hs IH Hp]; [constructor|].
  csimpl. constructor.
  - apply IH. intros q Hq. apply Hall. by right.
  - apply Forall_fmap, Forall_forall. intros q Hq. simpl.
    rewrite Forall_forall in Hp. specialize (Hp q Hq).
    rewrite (Hall p ltac:(by left)), (Hall q ltac:(by right)) in Hp. done.
Qed.

Lemma scoreEntries_sorted_by_score_witness :
  StronglySorted
    (fun a b => Num.ge (calculateEntryScore (fun x => x) (fun x => x) (sampleFile a))
                       (calculateEntryScore (fun x => x) (fun x => x) (sampleFile b)) = true)
    (scoreEntries sampleFile (fun x => x) (fun x => x) ["a"; "b"; "c"]%string).
Proof.
  apply (scoreEntries_sorted_by_score sampleFile (fun x => x) (fun x => x)
           ["a"; "b"; "c"]%string).
  intros e _. by compute.
Defined.

(** ** The representatives of a cluster *)

(** X17.  For a cluster of two or more distinct files, run with the nested
    [deduplicateFiles] of the pipeline: the first representative is a file
    of the cluster; when it is an image it is the only representative; and
    every further representative is another file of the cluster, an image
    whose quality is at least that of the first, dated if the first is
    dated.  No representative is listed twice. *)
Theorem selectRepresentatives_beside_the_best cfg processFile selector VPTree_build
  Math_log Math_sqrt cluster fuel :
  (forall fs, treeWithin (VPTree_build fs) fs) ->
  (2 <= length cluster)%nat -> NoDup cluster ->
  (dedupFuel cfg processFile VPTree_build cluster <= S fuel)%nat ->
  exists best rest,
    selectRepresentatives selector Math_log Math_sqrt
      (deduplicateFiles cfg processFile selector VPTree_build Math_log Math_sqrt fuel)
      cluster = Value (best :: rest) /\
    best ∈ cluster /\
    (isImage (media (selector best)) = true -> rest = []) /\
    (forall x, x ∈ rest ->
       x ∈ cluster /\ x <> best /\
       isImage (media (selector x)) = true /\
       Num.ge (getQuality (selector x)) (getQuality (selector best)) = true /\
       (truthy_object (imageDate (metadata (selector best))) = true ->
        truthy_object (imageDate (metadata (selector x))) = true)) /\
    NoDup (best :: rest).
Proof.
  intros Hbuild Hlen Hnd Hfuel. unfold selectRepresentatives.
  rewrite bool_decide_eq_false_2 by lia.
  pose proof (scoreEntries_perm selector Math_log Math_sqrt cluster) as Hperm.
  destruct (scoreEntries selector Math_log Math_sqrt cluster) as [|best sorted] eqn:Hs.
  { apply Permutation_nil in Hperm. subst. simpl in Hlen. lia. }
  assert (Hbest : best ∈ cluster) by (rewrite <- Hperm; by left).
  destruct (isImage (media (selector best))) eqn:Himg.
  { exists best, []. split; [done|]. split; [done|]. split; [done|].
    split; [intros x Hx; by apply elem_of_nil in Hx|]. apply NoDup_singleton. }
  unfold handleMultiFrameBest.
  set (caps := List.filter (isPotentialCapture selector (selector best)) (best :: sorted)).
  assert (Hcap : forall x, x ∈ caps ->
            x ∈ cluster /\ x <> best /\
            isImage (media (selector x)) = true /\
            Num.ge (getQuality (selector x)) (getQuality (selector best)) = true /\
            (truthy_object (imageDate (metadata (selector best))) = true ->
             truthy_object (imageDate (metadata (selector x))) = true)).
  { intros x Hx. apply elem_of_List_filter in Hx as [Hx Hp].
    unfold isPotentialCapture in Hp.
    apply andb_true_iff in Hp as [[Hi Hq]%andb_true_iff Hd].
    split; [by rewrite <- Hperm|]. split; [intros ->; congruence|].
    split; [done|]. split; [done|].
    intros Hdate. rewrite Hdate in Hd. by simpl in Hd. }
  case_bool_decide as Hcaps.
  - destruct (deduplicateFiles_images cfg processFile selector VPTree_build
                Math_log Math_sqrt Hbuild fuel caps) as (r & Hr & Hpart).
    + intros f Hf. by apply Hcap.
    + unfold dedupFuel in Hfuel.
      assert (Hle : (dbscanFuel cfg processFile (VPTree_build caps) caps
                     <= max_list ((fun caps => dbscanFuel cfg processFile
                                                 (VPTree_build caps) caps)
                                  <$> listsUpTo (length cluster) cluster))%nat).
      { apply max_list_elem_of_le, list_elem_of_fmap. exists caps. split; [done|].
        apply elem_of_listsUpTo.
        - apply submseteq_length, NoDup_submseteq.
          + apply NoDup_List_filter. by rewrite Hperm.
          + intros x Hx. by apply Hcap.
        - intros x Hx. by apply Hcap. }
      lia.
    + rewrite Hr, bind_Value. destruct Hpart as (Hmem & _ & _ & _ & Hndu & _).
      exists best, (uniqueFiles r). split; [done|]. split; [done|].
      split; [intros E; congruence|].
      assert (Hrest : forall x, x ∈ uniqueFiles r -> x ∈ caps).
      { intros x Hx. apply Hmem. by left. }
      split; [intros x Hx; by apply Hcap, Hrest|].
      constructor; [|done]. intros Hin. by destruct (Hcap best (Hrest best Hin)) as (_ & ? & _).
  - exists best, []. split; [done|]. split; [done|]. split; [done|].
    split; [intros x Hx; by apply elem_of_nil in Hx|]. apply NoDup_singleton.
Qed.

Lemma selectRepresentatives_beside_the_best_witness :
  exists best rest,
    selectRepresentatives sampleFile (fun x => x) (fun x => x)
      (deduplicateFiles sampleConfig sampleFile sampleFile sampleBuild
         (fun x => x) (fun x => x)
         (dedupFuel sampleConfig sampleFile sampleBuild ["a"; "b"; "c"]%string))
      ["a"; "b"; "c"]%string = Value (best :: rest) /\
    best ∈ ["a"; "b"; "c"]%string /\
    (isImage (media (sampleFile best)) = true -> rest = []).
Proof.
  destruct (selectRepresentatives_beside_the_best sampleConfig sampleFile sampleFile
              sampleBuild (fun x => x) (fun x => x) ["a"; "b"; "c"]%string
              (dedupFuel sampleConfig sampleFile sampleBuild ["a"; "b"; "c"]%string))
    as (best & rest & H1 & H2 & H3 & _).
  - apply sampleBuild_within.
  - simpl. lia.
  - repeat constructor; rewrite ?list_elem_of_In; simpl; intuition discriminate.
  - lia.
  - by exists best, rest.
Defined.

(** ** The score of a plain file *)

(** X18.  With a logarithm that is finite on positive numbers and minus
    infinity at zero, and a square root that is finite on numbers that are
    not negative: the score of a plain file is minus infinity when the file
    is empty and a finite number otherwise.  It is never NaN, so the scores
    of plain files are comparable. *)
Theorem calculateEntryScore_finite_unless_empty Math_log Math_sqrt fileInfo :
  (forall q, (0 < q)%Q -> exists r, Math_log (Fin q) = Fin r) ->
  (forall q, (q == 0)%Q -> Math_log (Fin q) = NInf) ->
  (forall q, (0 <= q)%Q -> exists r, Math_sqrt (Fin q) = Fin r) ->
  plainFile fileInfo ->
  if Num.eqb (fileSize (fileStats fileInfo)) (Num.of_Z 0)
  then calculateEntryScore Math_log Math_sqrt fileInfo = NInf
  else exists q, calculateEntryScore Math_log Math_sqrt fileInfo = Fin q.
Proof.
  intros Hlog_pos Hlog_zero Hsqrt (Hd & (s & Hs & Hs0) & Hw & Hh).
  unfold calculateEntryScore.
  destruct (Hlog_pos (duration (media fileInfo) + 1)%Q) as [l Hl]; [lra|].
  rewrite Hl, Hs.
  assert (Hquality : truthy_number (width (metadata fileInfo)) &&
                     truthy_number (height (metadata fileInfo)) = true ->
                     exists r, Math_sqrt (getQuality fileInfo) = Fin r).
  { unfold getQuality, plainDimension, numeric in *.
    destruct (width (metadata fileInfo)) as [[w| | |]|];
      destruct (height (metadata fileInfo)) as [[h| | |]|]; simpl in *;
      try done; try (by rewrite andb_false_r).
    intros _. apply Hsqrt. by apply Qmult_le_0_compat. }
  assert (Hfin : exists a,
    (let score := Num.of_Z 0 in
     let score := if Qlt_le_dec 0 (duration (media fileInfo))
                  then Num.add score (Num.of_Z 10000) else score in
     let score := Num.add score (Num.mul (Fin l) (Num.of_Z 100)) in
     let score := if truthy_object (imageDate (metadata fileInfo))
                  then Num.add score (Num.of_Z 2000) else score in
     let score := if truthy_number (gpsLatitude (metadata fileInfo)) &&
                     truthy_number (gpsLongitude (metadata fileInfo))
                  then Num.add score (Num.of_Z 300) else score in
     let score := if truthy_string (cameraModel (metadata fileInfo))
                  then Num.add score (Num.of_Z 200) else score in
     if truthy_number (width (metadata fileInfo)) &&
        truthy_number (height (metadata fileInfo))
     then Num.add score (Math_sqrt (getQuality fileInfo)) else score) = Fin a).
  { cbv zeta.
    destruct (truthy_number (width (metadata fileInfo)) &&
              truthy_number (height (metadata fileInfo))) eqn:E.
    - destruct (Hquality eq_refl) as [r ->].
      destruct (Qlt_le_dec 0 (duration (media fileInfo)));
        destruct (truthy_object (imageDate (metadata fileInfo)));
        destruct (truthy_number (gpsLatitude (metadata fileInfo)) &&
                  truthy_number (gpsLongitude (metadata fileInfo)));
        destruct (truthy_string (cameraModel (metadata fileInfo)));
        simpl; eauto.
    - destruct (Qlt_le_dec 0 (duration (media fileInfo)));
        destruct (truthy_object (imageDate (metadata fileInfo)));
        destruct (truthy_number (gpsLatitude (metadata fileInfo)) &&
                  truthy_number (gpsLongitude (metadata fileInfo)));
        destruct (truthy_string (cameraModel (metadata fileInfo)));
        simpl; eauto. }
  cbv zeta in Hfin |- *. destruct Hfin as [a ->].
  unfold Num.eqb, Num.of_Z. change (inject_Z 0) with 0%Q.
  destruct (Qeq_bool s 0) eqn:E0.
  - apply Qeq_bool_iff in E0. rewrite (Hlog_zero s E0). by compute.
  - apply Qeq_bool_false in E0. destruct (Hlog_pos s) as [r ->]; [lra|]. simpl. eauto.
Qed.

Lemma calculateEntryScore_finite_unless_empty_witness :
  exists q,
    calculateEntryScore
      (fun v => match v with
                | Fin q => if Qle_bool q 0 then NInf else Fin (q - 1)
                | _ => v
                end)
      (fun v => v) (sampleFile "a") = Fin q.
Proof.
  apply (calculateEntryScore_finite_unless_empty
           (fun v => match v with
                     | Fin q => if Qle_bool q 0 then NInf else Fin (q - 1)
                     | _ => v
                     end)
           (fun v => v) (sampleFile "a")).
  - intros q Hq. exists (q - 1)%Q.
    destruct (Qle_bool q 0) eqn:E; [|done]. apply Qle_bool_iff in E. lra.
  - intros q Hq. destruct (Qle_bool q 0) eqn:E; [done|].
    apply Qle_bool_false in E. lra.
  - intros q _. by exists q.
  - repeat split; try (by compute). exists 100%Q. split; [done|by compute].
Defined.

(** ** More on the cache *)

(** X19.  [process] on one path leaves the cached result and the cached
    config of every other path as they were, and runs [processFile] on no
    path but its own, at most once. *)
Theorem process_leaves_other_paths {TConfig TResult : Type}
  (JSON_stringify : TConfig -> string) (truthy : TResult -> bool)
  (processFile : string -> TResult) config filePath st other :
  other <> filePath ->
  let st' := snd (process JSON_stringify truthy processFile config filePath st) in
  db st' !! other = db st !! other /\
  configDb st' !! other = configDb st !! other /\
  (computed st' = computed st \/ computed st' = computed st ++ [filePath]).
Proof.
  intros Hne. unfold process, recompute, getHashKey.
  destruct (isConfigValid JSON_stringify config (configDb st !! filePath)); simpl.
  - destruct (db st !! filePath) as [cachedResult|]; simpl.
    + destruct (truthy cachedResult); simpl.
      * by repeat split; [..|left].
      * rewrite !lookup_insert_ne by done. by repeat split; [..|right].
    + rewrite !lookup_insert_ne by done. by repeat split; [..|right].
  - rewrite !lookup_insert_ne by done. by repeat split; [..|right].
Qed.

Lemma process_leaves_other_paths_witness :
  let st0 : @JobState string nat :=
    {| db := {["b.jpg"%string := 7%nat]}; configDb := {["b.jpg"%string := "c"%string]};
       computed := [] |} in
  let st' := snd (process (fun c : string => c) (fun _ : nat => true) String.length
                    "c"%string "a.jpg"%string st0) in
  db st' !! "b.jpg"%string = db st0 !! "b.jpg"%string /\
  configDb st' !! "b.jpg"%string = configDb st0 !! "b.jpg"%string /\
  (computed st' = computed st0 \/ computed st' = computed st0 ++ ["a.jpg"%string]).
Proof.
  intros st0.
  apply (process_leaves_other_paths (fun c : string => c) (fun _ : nat => true)
           String.length "c"%string "a.jpg"%string st0 "b.jpg"%string).
  discriminate.
Defined.

(** X20.  A cached result that is falsy is never served, whatever config is
    stored with it: [process] runs [processFile] again and stores its
    result; and when that result is falsy too, so does the next call. *)
Theorem process_falsy_result_recomputed {TConfig TResult : Type}
  (JSON_stringify : TConfig -> string) (truthy : TResult -> bool)
  (processFile : string -> TResult) config filePath st cachedResult :
  db st !! filePath = Some cachedResult -> truthy cachedResult = false ->
  let run := process JSON_stringify truthy processFile config filePath st in
  fst run = processFile filePath /\
  db (snd run) !! filePath = Some (processFile filePath) /\
  configDb (snd run) !! filePath = Some config /\
  computed (snd run) = computed st ++ [filePath] /\
  (truthy (processFile filePath) = false ->
   computed (snd (process JSON_stringify truthy processFile config filePath (snd run)))
   = computed st ++ [filePath; filePath]).
Proof.
  intros Hdb Hfalsy.
  assert (Hmiss : forall st0 r, db st0 !! filePath = Some r -> truthy r = false ->
            process JSON_stringify truthy processFile config filePath st0
            = recompute processFile config filePath st0).
  { intros st0 r H0 Hr. unfold process, getHashKey. rewrite H0, Hr.
    by destruct (isConfigValid _ _ _). }
  cbv zeta. rewrite (Hmiss st cachedResult Hdb Hfalsy).
  unfold recompute, getHashKey. simpl. rewrite !lookup_insert_eq.
  repeat split. intros Hfalsy'.
  rewrite (Hmiss _ (processFile filePath)); [|simpl; by rewrite lookup_insert_eq|done].
  simpl. by rewrite <- app_assoc.
Qed.

Lemma process_falsy_result_recomputed_witness :
  let st0 : @JobState string nat :=
    {| db := {["a.jpg"%string := 0%nat]}; configDb := {["a.jpg"%string := "c"%string]};
       computed := [] |} in
  let run := process (fun c : string => c) (fun n : nat => negb (Nat.eqb n 0))
               (fun _ => 0%nat) "c"%string "a.jpg"%string st0 in
  fst run = 0%nat /\
  db (snd run) !! "a.jpg"%string = Some 0%nat /\
  configDb (snd run) !! "a.jpg"%string = Some "c"%string /\
  computed (snd run) = ["a.jpg"%string] /\
  (negb (Nat.eqb 0 0) = false ->
   computed (snd (process (fun c : string => c) (fun n : nat => negb (Nat.eqb n 0))
                    (fun _ => 0%nat) "c"%string "a.jpg"%string (snd run)))
   = ["a.jpg"; "a.jpg"]%string).
Proof.
  intros st0.
  apply (process_falsy_result_recomputed (fun c : string => c)
           (fun n : nat => negb (Nat.eqb n 0)) (fun _ => 0%nat) "c"%string
           "a.jpg"%string st0 0%nat); reflexivity.
Defined.

(** ** The file hash *)

Section FileHash.
Context (maxChunkSize : number).
Context (stat : string -> outcome FileStatsJob.Stats).
Context (createReadStream : string -> number -> option number -> outcome (list byte)).
Context (md5 : list byte -> buffer).

Lemma hashFile_whole path content :
  holdsFile stat createReadStream path content ->
  Num.gt (Num.of_nat (length content)) maxChunkSize = false \/
  Num.equiv maxChunkSize (Fin 0) ->
  FileStatsJob.hashFile maxChunkSize createReadStream md5 path
    (Num.of_nat (length content)) = Value (md5 content).
Proof.
  intros (_ & Hopen & Hrange) Hcase. unfold FileStatsJob.hashFile.
  assert (Hall : FileStatsJob.hashFilePart createReadStream path [] (Num.of_Z 0) None
                 = Value content).
  { unfold FileStatsJob.hashFilePart, Num.of_Z. cbn [truthy_number].
    by rewrite (Hopen (inject_Z 0) 0%nat). }
  destruct (Num.gt (Num.of_nat (length content)) maxChunkSize) eqn:Hgt.
  - destruct Hcase as [?|Hzero]; [done|].
    destruct maxChunkSize as [m| | |]; try done. simpl in Hzero.
    unfold Num.of_nat, Num.of_Z, Num.div.
    assert (Htwo : Qeq_bool (inject_Z 2) 0 = false) by done. rewrite Htwo.
    assert (Hfalsy : truthy_number (Some (Fin (m / inject_Z 2))) = false).
    { simpl. apply negb_false_iff, Qeq_bool_iff. rewrite Hzero. reflexivity. }
    unfold FileStatsJob.hashFilePart. rewrite Hfalsy.
    rewrite (Hopen (inject_Z 0) 0%nat) by done.
    rewrite bind_Value. cbn [Num.sub Num.add Num.neg].
    rewrite (Hopen _ (length content)).
    + rewrite drop_all. simpl. by rewrite app_nil_r.
    + rewrite Hzero. unfold Qdiv. ring.
  - by rewrite Hall.
Qed.

Lemma hashFile_ends path content m (c : nat) :
  holdsFile stat createReadStream path content ->
  maxChunkSize = Fin m -> (m == inject_Z (Z.of_nat (2 * c)))%Q ->
  (0 < c)%nat -> (2 * c < length content)%nat ->
  FileStatsJob.hashFile maxChunkSize createReadStream md5 path
    (Num.of_nat (length content))
  = Value (md5 (take c content ++ drop (length content - c) content)).
Proof.
  intros (_ & Hopen & Hrange) -> Hm Hc Hlen. unfold FileStatsJob.hashFile.
  assert (Hgt : Num.gt (Num.of_nat (length content)) (Fin m) = true).
  { unfold Num.gt, Num.lt, Num.of_nat, Num.of_Z. apply negb_true_iff, Qle_bool_false.
    rewrite Hm, <- Zlt_Qlt. lia. }
  rewrite Hgt. unfold Num.of_nat, Num.of_Z, Num.div.
  assert (Htwo : Qeq_bool (inject_Z 2) 0 = false) by done. rewrite Htwo.
  assert (Hhalf : (m / inject_Z 2 == inject_Z (Z.of_nat c))%Q).
  { rewrite Hm. rewrite Nat2Z.inj_mul, inject_Z_mult. simpl (Z.of_nat 2).
    field. }
  assert (Htruthy : truthy_number (Some (Fin (m / inject_Z 2))) = true).
  { simpl. apply negb_true_iff, Qeq_bool_false. rewrite Hhalf.
    change 0%Q with (inject_Z 0). rewrite inject_Z_injective. lia. }
  unfold FileStatsJob.hashFilePart. rewrite Htruthy. unfold Num.of_Z.
  cbn [numeric default from_option id Num.sub Num.add Num.neg].
  rewrite (Hrange (inject_Z 0) (inject_Z 0 + m / inject_Z 2 + - inject_Z 1)%Q
             0%nat (c - 1)%nat); [|reflexivity| |lia].
  2:{ rewrite Hhalf. rewrite <- !inject_Z_opp, <- !inject_Z_plus.
      apply inject_Z_injective. lia. }
  rewrite bind_Value. simpl drop.
  rewrite (Hrange _ _ (length content - c)%nat (length content - 1)%nat); [| | |lia].
  2:{ rewrite Hhalf. rewrite <- inject_Z_opp, <- inject_Z_plus.
      apply inject_Z_injective. lia. }
  2:{ rewrite Hhalf. rewrite <- !inject_Z_opp, <- !inject_Z_plus.
      apply inject_Z_injective. lia. }
  rewrite !bind_Value. simpl drop. simpl app.
  assert (E1 : (S (c - 1) = c)%nat) by lia.
  assert (E2 : (S (length content - 1) - (length content - c) = c)%nat) by lia.
  rewrite E1, E2.
  assert (E3 : take c (drop (length content - c) content)
               = drop (length content - c) content).
  { apply take_ge. rewrite length_drop. lia. }
  by rewrite E3.
Qed.

End FileHash.

(** X21.  A file no larger than [maxChunkSize] is hashed whole, and so is
    every file when [maxChunkSize] is 0 (a chunk size of 0 leaves the end of
    the first read undefined): the hash of the result is the digest of the
    content, and its size is the length of the content. *)
Theorem processFile_hashes_small_file_whole maxChunkSize stat createReadStream md5
  path content :
  holdsFile stat createReadStream path content ->
  Num.gt (Num.of_nat (length content)) maxChunkSize = false \/
  Num.equiv maxChunkSize (Fin 0) ->
  exists r,
    FileStatsJob.processFile maxChunkSize stat createReadStream md5 path = Value r /\
    FileStatsJob.hash r = md5 content /\
    FileStatsJob.size r = Num.of_nat (length content).
Proof.
  intros Hfile Hcase. pose proof Hfile as ((stats & Hstat & Hsize) & _).
  unfold FileStatsJob.processFile. rewrite Hstat, bind_Value, Hsize.
  rewrite (hashFile_whole maxChunkSize stat createReadStream md5 path content Hfile Hcase).
  rewrite bind_Value. eexists. split; [reflexivity|]. done.
Qed.

(** X22.  A file larger than an even [maxChunkSize = 2c] is hashed by its
    two ends only: the digest is taken of its first [c] bytes followed by
    its last [c] bytes. *)
Theorem processFile_hashes_both_ends_of_large_file maxChunkSize stat createReadStream
  md5 path content m (c : nat) :
  holdsFile stat createReadStream path content ->
  maxChunkSize = Fin m -> (m == inject_Z (Z.of_nat (2 * c)))%Q ->
  (0 < c)%nat -> (2 * c < length content)%nat ->
  exists r,
    FileStatsJob.processFile maxChunkSize stat createReadStream md5 path = Value r /\
    FileStatsJob.hash r = md5 (take c content ++ drop (length content - c) content) /\
    length (take c content ++ drop (length content - c) content) = (2 * c)%nat /\
    FileStatsJob.size r = Num.of_nat (length content).
Proof.
  intros Hfile Hmax Hm Hc Hlen. pose proof Hfile as ((stats & Hstat & Hsize) & _).
  unfold FileStatsJob.processFile. rewrite Hstat, bind_Value, Hsize.
  rewrite (hashFile_ends maxChunkSize stat createReadStream md5 path content m c)
    by done.
  rewrite bind_Value. eexists. split; [reflexivity|]. simpl.
  split; [done|]. split; [|done].
  rewrite length_app, length_take, length_drop. lia.
Qed.

(** X23.  Two files larger than an even [maxChunkSize = 2c] that agree on
    their first [c] and on their last [c] bytes get the same hash, whatever
    lies between. *)
Theorem processFile_ignores_the_middle maxChunkSize stat createReadStream md5
  path1 content1 path2 content2 m (c : nat) :
  holdsFile stat createReadStream path1 content1 ->
  holdsFile stat createReadStream path2 content2 ->
  maxChunkSize = Fin m -> (m == inject_Z (Z.of_nat (2 * c)))%Q -> (0 < c)%nat ->
  (2 * c < length content1)%nat -> (2 * c < length content2)%nat ->
  take c content1 = take c content2 ->
  drop (length content1 - c) content1 = drop (length content2 - c) content2 ->
  exists r1 r2,
    FileStatsJob.processFile maxChunkSize stat createReadStream md5 path1 = Value r1 /\
    FileStatsJob.processFile maxChunkSize stat createReadStream md5 path2 = Value r2 /\
    FileStatsJob.hash r1 = FileStatsJob.hash r2.
Proof.
  intros Hf1 Hf2 Hmax Hm Hc Hl1 Hl2 Hhead Htail.
  pose proof Hf1 as ((stats1 & Hstat1 & Hsize1) & _).
  pose proof Hf2 as ((stats2 & Hstat2 & Hsize2) & _).
  unfold FileStatsJob.processFile.
  rewrite Hstat1, Hstat2, !bind_Value, Hsize1, Hsize2.
  rewrite (hashFile_ends maxChunkSize stat createReadStream md5 path1 content1 m c),
    (hashFile_ends maxChunkSize stat createReadStream md5 path2 content2 m c) by done.
  rewrite !bind_Value. do 2 eexists. split; [reflexivity|]. split; [reflexivity|].
  simpl. by rewrite Hhead, Htail.
Qed.

Lemma sampleDisk_holdsFile path : holdsFile sampleStat sampleStream path (sampleDisk path).
Proof.
  assert (Hfloor : forall (s : Q) (n : nat),
            (s == inject_Z (Z.of_nat n))%Q -> Z.to_nat (Qfloor s) = n).
  { intros s n Hs. rewrite Hs, Qfloor_Z. apply Nat2Z.id. }
  split; [|split].
  - eexists. split; reflexivity.
  - intros s start Hs. simpl. by rewrite (Hfloor s start).
  - intros s e start end_ Hs He _. simpl.
    by rewrite (Hfloor s start), (Hfloor e end_).
Qed.

Lemma processFile_hashes_small_file_whole_witness :
  exists r,
    FileStatsJob.processFile (Fin 8) sampleStat sampleStream (fun bytes => bytes)
      "a.bin"%string = Value r /\
    FileStatsJob.hash r = sampleDisk "a.bin"%string /\
    FileStatsJob.size r = Num.of_nat (length (sampleDisk "a.bin"%string)).
Proof.
  apply (processFile_hashes_small_file_whole (Fin 8) sampleStat sampleStream
           (fun bytes => bytes) "a.bin"%string (sampleDisk "a.bin"%string)).
  - apply sampleDisk_holdsFile.
  - left. reflexivity.
Defined.

Lemma processFile_hashes_both_ends_of_large_file_witness :
  exists r,
    FileStatsJob.processFile (Fin 4) sampleStat sampleStream (fun bytes => bytes)
      "b.bin"%string = Value r /\
    FileStatsJob.hash r = [x01; x02; x05; x06] /\
    length [x01; x02; x05; x06] = 4%nat /\
    FileStatsJob.size r = Num.of_nat 7.
Proof.
  apply (processFile_hashes_both_ends_of_large_file (Fin 4) sampleStat sampleStream
           (fun bytes => bytes) "b.bin"%string (sampleDisk "b.bin"%string) 4 2).
  - apply sampleDisk_holdsFile.
  - reflexivity.
  - reflexivity.
  - lia.
  - simpl. lia.
Defined.

Lemma processFile_ignores_the_middle_witness :
  exists r1 r2,
    FileStatsJob.processFile (Fin 4) sampleStat sampleStream (fun bytes => bytes)
      "a.bin"%string = Value r1 /\
    FileStatsJob.processFile (Fin 4) sampleStat sampleStream (fun bytes => bytes)
      "b.bin"%string = Value r2 /\
    FileStatsJob.hash r1 = FileStatsJob.hash r2.
Proof.
  apply (processFile_ignores_the_middle (Fin 4) sampleStat sampleStream
           (fun bytes => bytes) "a.bin"%string (sampleDisk "a.bin"%string)
           "b.bin"%string (sampleDisk "b.bin"%string) 4 2).
  - apply sampleDisk_holdsFile.
  - apply sampleDisk_holdsFile.
  - reflexivity.
  - reflexivity.
  - lia.
  - simpl. lia.
  - simpl. lia.
  - reflexivity.
  - reflexivity.
Defined.

(** ** The single-file script *)

Lemma chars_length s : length (String.list_ascii_of_string s) = String.length s.
Proof. induction s as [|a s IH]; simpl; [done|by rewrite IH]. Qed.

Lemma chars_get s i : String.get i s = String.list_ascii_of_string s !! i.
Proof.
  revert i. induction s as [|a s IH]; intros [|i]; simpl; rewrite ?IH; done.
Qed.

Lemma chars_substring n m s :
  String.list_ascii_of_string (String.substring n m s)
  = take m (drop n (String.list_ascii_of_string s)).
Proof.
  revert n m. induction s as [|a s IH]; intros [|n] [|m]; simpl;
    rewrite ?IH; done.
Qed.

Lemma chars_inj s1 s2 :
  String.list_ascii_of_string s1 = String.list_ascii_of_string s2 -> s1 = s2.
Proof.
  intros H. rewrite <- (String.string_of_list_ascii_of_string s1),
    <- (String.string_of_list_ascii_of_string s2). by rewrite H.
Qed.

Lemma differences_nonneg l1 l2 : 0 <= differences l1 l2.
Proof.
  revert l2. induction l1 as [|x l1 IH]; intros [|y l2]; simpl; try lia.
  specialize (IH l2). case_bool_decide; lia.
Qed.

Lemma differences_comm l1 l2 : differences l1 l2 = differences l2 l1.
Proof.
  revert l2. induction l1 as [|x l1 IH]; intros [|y l2]; simpl; try done.
  rewrite IH. repeat case_bool_decide; congruence.
Qed.

Lemma differences_zero l1 l2 :
  length l1 = length l2 -> differences l1 l2 = 0 -> l1 = l2.
Proof.
  revert l2. induction l1 as [|x l1 IH]; intros [|y l2] Hlen Hd; simpl in *; try done.
  pose proof (differences_nonneg l1 l2).
  case_bool_decide; [|lia]. subst. f_equal. apply IH; lia.
Qed.

Lemma differences_self l : differences l l = 0.
Proof. induction l as [|x l IH]; simpl; [done|]. rewrite IH. by case_bool_decide. Qed.

Lemma differences_split k l1 l2 :
  length l1 = length l2 ->
  differences l1 l2
  = differences (take k l1) (take k l2) + differences (drop k l1) (drop k l2).
Proof.
  revert l1 l2. induction k as [|k IH]; intros [|x l1] [|y l2] Hlen; simpl in *; try done.
  rewrite (IH l1 l2) by lia. lia.
Qed.

Lemma countDifferent_differences chars str2 i count :
  length chars = length (drop i (String.list_ascii_of_string str2)) ->
  Legacy.countDifferent chars str2 i count
  = count + differences chars (drop i (String.list_ascii_of_string str2)).
Proof.
  revert i count. induction chars as [|c chars IH]; intros i count Hlen; simpl.
  - lia.
  - rewrite chars_get.
    destruct (drop i (String.list_ascii_of_string str2)) as [|y rest] eqn:E;
      [done|].
    assert (Hy : String.list_ascii_of_string str2 !! i = Some y).
    { pose proof (lookup_drop (String.list_ascii_of_string str2) i 0) as H.
      rewrite E, Nat.add_0_r in H. by rewrite <- H. }
    assert (Hrest : drop (S i) (String.list_ascii_of_string str2) = rest).
    { pose proof (drop_drop (String.list_ascii_of_string str2) 1 i) as H.
      rewrite E in H. simpl in H. rewrite drop_0 in H.
      by rewrite <- Nat.add_1_r. }
    rewrite IH by (rewrite Hrest; simpl in Hlen; lia).
    rewrite Hrest, Hy. simpl.
    repeat case_bool_decide; try lia; congruence.
Qed.

(** The distance the script computes, read on the characters. *)
Lemma hammingDistance_differences str1 str2 threshold :
  String.length str1 = String.length str2 ->
  Legacy.hammingDistance str1 str2 threshold
  = Legacy.Returned
      (Num.le (Num.of_Z (differences (String.list_ascii_of_string str1)
                                     (String.list_ascii_of_string str2)))
              threshold).
Proof.
  intros Hlen. unfold Legacy.hammingDistance.
  rewrite bool_decide_eq_false_2 by (intros H; by apply H).
  rewrite countDifferent_differences; [done|].
  rewrite drop_0, !chars_length. done.
Qed.

(** X24. The string distance of the single-file script does not depend on
    the order of its two strings (the same answer, or the same error), and
    with threshold 0 it accepts two strings exactly when they are the same
    string. *)
Theorem legacy_hammingDistance_symmetric_zero_iff_equal
  (str1 str2 : string) (threshold : number) :
  Legacy.hammingDistance str1 str2 threshold
  = Legacy.hammingDistance str2 str1 threshold /\
  (Legacy.hammingDistance str1 str2 (Num.of_Z 0) = Legacy.Returned true
   <-> str1 = str2).
Proof.
  split.
  - destruct (decide (String.length str1 = String.length str2)) as [Hlen|Hlen].
    + rewrite !hammingDistance_differences by done.
      by rewrite differences_comm.
    + unfold Legacy.hammingDistance.
      rewrite !bool_decide_eq_true_2; [done|congruence|done].
  - split.
    + intros H.
      destruct (decide (String.length str1 = String.length str2)) as [Hlen|Hlen].
      * rewrite hammingDistance_differences in H by done.
        injection H as H. unfold Num.le, Num.of_Z in H.
        apply Qle_bool_iff in H. rewrite <- Zle_Qle in H.
        apply chars_inj, differences_zero.
        -- by rewrite !chars_length.
        -- pose proof (differences_nonneg (String.list_ascii_of_string str1)
                         (String.list_ascii_of_string str2)). lia.
      * unfold Legacy.hammingDistance in H.
        rewrite bool_decide_eq_true_2 in H by done. discriminate.
    + intros ->. rewrite hammingDistance_differences by done.
      by rewrite differences_self.
Qed.

Lemma lt_of_nat i n : Num.lt (Num.of_nat i) (Num.of_nat n) = bool_decide (i < n)%nat.
Proof.
  unfold Num.lt, Num.of_nat, Num.of_Z.
  destruct (Qle_bool (inject_Z (Z.of_nat n)) (inject_Z (Z.of_nat i))) eqn:E; simpl.
  - apply Qle_bool_iff in E. rewrite <- Zle_Qle in E.
    symmetry. apply bool_decide_eq_false_2. lia.
  - symmetry. apply bool_decide_eq_true_2.
    destruct (decide (i < n)%nat) as [|Hn]; [done|].
    assert (Qle_bool (inject_Z (Z.of_nat n)) (inject_Z (Z.of_nat i)) = true)
      by (apply Qle_bool_iff; rewrite <- Zle_Qle; lia).
    congruence.
Qed.

(** Over a natural number of bands the loop visits the bands in order. *)
Lemma forBands_for_each {St} fuel n i (body : St -> nat -> outcome St) s :
  (n - i < fuel)%nat ->
  Legacy.forBands fuel (Num.of_nat n) i body s = for_each (seq i (n - i)) body s.
Proof.
  revert i s. induction fuel as [|fuel IH]; intros i s Hf; [lia|].
  cbn [Legacy.forBands]. rewrite lt_of_nat. case_bool_decide.
  - replace (n - i)%nat with (S (n - S i)) by lia. cbn [seq for_each].
    destruct (body s i); simpl; try done. apply IH. lia.
  - replace (n - i)%nat with 0%nat by lia. done.
Qed.

(** A loop that rewrites band [i] in round [i] rewrites every band. *)
Lemma for_each_bands (f : nat -> gmap string StrSet -> gmap string StrSet)
  (seen todo : list (gmap string StrSet)) :
  for_each (seq (length seen) (length todo))
    (fun bs i => match bs !! i with
                 | None => Throws TypeError
                 | Some band => Value (<[i := f i band]> bs)
                 end)
    (seen ++ todo)
  = Value (seen ++ imap (fun j => f (length seen + j)%nat) todo).
Proof.
  revert seen. induction todo as [|band todo IH]; intros seen; simpl.
  - done.
  - rewrite lookup_app_r by lia. rewrite Nat.sub_diag. simpl.
    rewrite insert_app_r_alt by lia. rewrite Nat.sub_diag. simpl.
    specialize (IH (seen ++ [f (length seen) band])).
    rewrite length_app in IH. simpl in IH. rewrite Nat.add_1_r in IH.
    rewrite <- app_assoc in IH. simpl in IH. rewrite IH.
    rewrite <- app_assoc. simpl. rewrite Nat.add_0_r. do 3 f_equal.
    apply imap_ext. intros. simpl. f_equal. lia.
Qed.

Lemma addBand_eq bs h id bands0 i :
  Legacy.addBand bs h id bands0 i
  = match bands0 !! i with
    | None => Throws TypeError
    | Some band => Value (<[i := addedTo (Legacy.bandHash bs h i) id band]> bands0)
    end.
Proof.
  unfold Legacy.addBand, addedTo. destruct (bands0 !! i) as [band|]; [|done].
  case_bool_decide as Hk.
  - destruct Hk as [ids Hk]. rewrite Hk. done.
  - assert (band !! Legacy.bandHash bs h i = None) as ->.
    { destruct (band !! Legacy.bandHash bs h i) eqn:E; [|done].
      exfalso. apply Hk. eauto. }
    rewrite lookup_insert_eq, insert_insert_eq. done.
Qed.

Lemma removeBand_eq bs h id bands0 i :
  Legacy.removeBand bs h id bands0 i
  = match bands0 !! i with
    | None => Throws TypeError
    | Some band => Value (<[i := removedFrom (Legacy.bandHash bs h i) id band]> bands0)
    end.
Proof.
  unfold Legacy.removeBand, removedFrom. destruct (bands0 !! i) as [band|] eqn:Ei; [|done].
  destruct (band !! Legacy.bandHash bs h i) as [ids|].
  - destruct (length (Legacy.set_delete id ids) =? 0)%nat; [|done].
    by rewrite delete_insert_eq.
  - by rewrite list_insert_id.
Qed.

Lemma add_bands n fuel lsh h id :
  Legacy.numBands lsh = Num.of_nat n -> length (Legacy.bands lsh) = n ->
  (n < fuel)%nat ->
  Legacy.add fuel lsh h id
  = Value {| Legacy.bands :=
               imap (fun i => addedTo (Legacy.bandHash (Legacy.bandSize lsh) h i) id)
                    (Legacy.bands lsh);
             Legacy.bandSize := Legacy.bandSize lsh;
             Legacy.numBands := Legacy.numBands lsh |}.
Proof.
  intros Hn Hlen Hfuel. unfold Legacy.add.
  rewrite Hn at 1. rewrite forBands_for_each by lia. rewrite Nat.sub_0_r.
  erewrite for_each_ext by (intros; apply addBand_eq).
  pose proof (for_each_bands
    (fun i => addedTo (Legacy.bandHash (Legacy.bandSize lsh) h i) id)
    [] (Legacy.bands lsh)) as H.
  simpl in H. rewrite Hlen in H. rewrite H. done.
Qed.

Lemma remove_bands n fuel lsh h id :
  Legacy.numBands lsh = Num.of_nat n -> length (Legacy.bands lsh) = n ->
  (n < fuel)%nat ->
  Legacy.remove fuel lsh h id
  = Value {| Legacy.bands :=
               imap (fun i => removedFrom (Legacy.bandHash (Legacy.bandSize lsh) h i) id)
                    (Legacy.bands lsh);
             Legacy.bandSize := Legacy.bandSize lsh;
             Legacy.numBands := Legacy.numBands lsh |}.
Proof.
  intros Hn Hlen Hfuel. unfold Legacy.remove.
  rewrite Hn at 1. rewrite forBands_for_each by lia. rewrite Nat.sub_0_r.
  erewrite for_each_ext by (intros; apply removeBand_eq).
  pose proof (for_each_bands
    (fun i => removedFrom (Legacy.bandHash (Legacy.bandSize lsh) h i) id)
    [] (Legacy.bands lsh)) as H.
  simpl in H. rewrite Hlen in H. rewrite H. done.
Qed.

Lemma truncate_integer q z : (q == inject_Z z)%Q -> Legacy.truncate q = z.
Proof.
  unfold Qeq, Legacy.truncate. simpl. intros H.
  replace (Qnum q) with (z * Z.pos (Qden q)) by lia.
  apply Z.quot_mul. lia.
Qed.

Lemma sliceIndex_natural len q k :
  (q == inject_Z (Z.of_nat k))%Q -> Legacy.sliceIndex len (Fin q) = Nat.min k len.
Proof.
  intros H. unfold Legacy.sliceIndex. rewrite (truncate_integer q _ H).
  destruct (Z.ltb_spec (Z.of_nat k) 0); lia.
Qed.

Lemma take_drop_clipped {A} (l : list A) (i b : nat) :
  take (Nat.min ((i + 1) * b) (length l) - Nat.min (i * b) (length l))
       (drop (Nat.min (i * b) (length l)) l)
  = take b (drop (i * b) l).
Proof.
  destruct (le_lt_dec (length l) (i * b)) as [Hge|Hlt].
  - rewrite (drop_ge l (i * b)) by lia.
    rewrite (drop_ge l (Nat.min _ _)) by lia. by rewrite !take_nil.
  - rewrite (Nat.min_l (i * b)) by lia.
    destruct (le_lt_dec ((i + 1) * b) (length l)) as [Hle|Hgt].
    + rewrite Nat.min_l by lia. f_equal. lia.
    + rewrite Nat.min_r by lia.
      rewrite !take_ge; [done| |]; rewrite length_drop; lia.
Qed.

(** The slice of band [i], when bands are [b] characters wide. *)
Lemma bandHash_chars bs b h i :
  Num.equiv bs (Num.of_nat b) ->
  String.list_ascii_of_string (Legacy.bandHash bs h i)
  = take b (drop (i * b) (String.list_ascii_of_string h)).
Proof.
  intros Hbs. destruct bs as [q| | |]; try done.
  unfold Num.equiv, Num.of_nat, Num.of_Z in Hbs.
  unfold Legacy.bandHash, Legacy.string_slice.
  rewrite chars_substring.
  unfold Num.mul, Num.add, Num.of_nat, Num.of_Z.
  rewrite (sliceIndex_natural _ (inject_Z (Z.of_nat i) * q) (i * b)),
    (sliceIndex_natural _ ((inject_Z (Z.of_nat i) + inject_Z 1) * q) ((i + 1) * b)).
  - rewrite <- chars_length. apply take_drop_clipped.
  - rewrite Hbs, <- inject_Z_plus, <- inject_Z_mult. f_equiv. lia.
  - rewrite Hbs, <- inject_Z_mult. f_equiv. lia.
Qed.

(** Fewer differences than bands: some band is the same in both. *)
Lemma pigeonhole_bands b n (l1 l2 : list Ascii.ascii) :
  length l1 = length l2 -> differences l1 l2 < Z.of_nat n ->
  exists i, (i < n)%nat /\ take b (drop (i * b) l1) = take b (drop (i * b) l2).
Proof.
  revert l1 l2. induction n as [|n IH]; intros l1 l2 Hlen Hd.
  - pose proof (differences_nonneg l1 l2). lia.
  - destruct (decide (take b l1 = take b l2)) as [Heq|Hne].
    + exists 0%nat. split; [lia|]. simpl. by rewrite !drop_0.
    + rewrite (differences_split b) in Hd by done.
      assert (differences (take b l1) (take b l2) <> 0).
      { intros H0. apply Hne, differences_zero; [|done].
        rewrite !length_take. lia. }
      pose proof (differences_nonneg (take b l1) (take b l2)).
      destruct (IH (drop b l1) (drop b l2)) as (i & Hi & Hband).
      { rewrite !length_drop. lia. }
      { lia. }
      exists (S i). split; [lia|].
      rewrite !drop_drop in Hband.
      replace (S i * b)%nat with (b + i * b)%nat by lia. done.
Qed.

Lemma close_hashes_share_a_band bs n b h1 h2 t :
  Num.equiv bs (Num.of_nat b) ->
  Legacy.hammingDistance h1 h2 t = Legacy.Returned true ->
  Num.lt t (Num.of_nat n) = true ->
  exists i, (i < n)%nat /\ Legacy.bandHash bs h1 i = Legacy.bandHash bs h2 i.
Proof.
  intros Hbs Hd Ht.
  assert (Hlen : String.length h1 = String.length h2).
  { destruct (decide (String.length h1 = String.length h2)) as [|Hne]; [done|].
    unfold Legacy.hammingDistance in Hd.
    rewrite bool_decide_eq_true_2 in Hd by done. discriminate. }
  rewrite hammingDistance_differences in Hd by done. injection Hd as Hd.
  destruct (pigeonhole_bands b n (String.list_ascii_of_string h1)
              (String.list_ascii_of_string h2)) as (i & Hi & Hband).
  - by rewrite !chars_length.
  - destruct t as [q| | |]; try done.
    unfold Num.le, Num.lt, Num.of_nat, Num.of_Z in *.
    apply Qle_bool_iff in Hd. apply negb_true_iff in Ht.
    destruct (Z_lt_le_dec (differences (String.list_ascii_of_string h1)
                (String.list_ascii_of_string h2)) (Z.of_nat n)) as [|Hge]; [done|].
    exfalso. rewrite Zle_Qle in Hge.
    assert (Qle_bool (inject_Z (Z.of_nat n)) q = true)
      by (apply Qle_bool_iff; eapply Qle_trans; eassumption).
    congruence.
  - exists i. split; [done|]. apply chars_inj.
    by rewrite !(bandHash_chars bs b).
Qed.

(** The candidates of a hash are the identifiers stored under its slices. *)
Lemma getCandidates_stored n fuel lsh q :
  Legacy.numBands lsh = Num.of_nat n -> length (Legacy.bands lsh) = n ->
  (n < fuel)%nat ->
  exists c, Legacy.getCandidates fuel lsh q = Value c /\
    forall x, x ∈ c <-> exists i, (i < n)%nat /\ stored lsh q i x.
Proof.
  intros Hn Hlen Hfuel. unfold Legacy.getCandidates.
  rewrite Hn. rewrite forBands_for_each by lia. rewrite Nat.sub_0_r.
  destruct (for_each_prefix_invariant
    (fun (pre : list nat) (c : StrSet) =>
       forall x, x ∈ c <-> exists i, i ∈ pre /\ stored lsh q i x)
    (seq 0 n) (Legacy.candidatesOfBand lsh q) []) as (c & Hc & Hspec).
  - intros x. split.
    + by intros ?%elem_of_nil.
    + intros (i & ?%elem_of_nil & _). done.
  - intros pre i c Hpre Hi.
    apply elem_of_seq in Hi.
    destruct (lookup_lt_is_Some_2 (Legacy.bands lsh) i) as [band Hband]; [lia|].
    unfold Legacy.candidatesOfBand. rewrite Hband.
    destruct (band !! Legacy.bandHash (Legacy.bandSize lsh) q i) as [ids|] eqn:Hk.
    + eexists. split; [done|]. intros x.
      rewrite elem_of_fold_set_add, Hpre. split.
      * intros [(j & Hj & Hs)|Hx].
        -- exists j. split; [|done]. apply elem_of_app. by left.
        -- exists i. split; [apply elem_of_app; right; by left|].
           exists band, ids. done.
      * intros (j & Hj & Hs). apply elem_of_app in Hj as [Hj|Hj].
        -- left. eauto.
        -- apply list_elem_of_singleton in Hj as ->. right.
           destruct Hs as (band' & ids' & Hb' & Hk' & Hx). congruence.
    + eexists. split; [done|]. intros x. rewrite Hpre. split.
      * intros (j & Hj & Hs). exists j. split; [|done]. apply elem_of_app. by left.
      * intros (j & Hj & Hs). apply elem_of_app in Hj as [Hj|Hj].
        -- eauto.
        -- apply list_elem_of_singleton in Hj as ->.
           destruct Hs as (band' & ids' & Hb' & Hk' & Hx). congruence.
  - exists c. split; [done|]. intros x. rewrite Hspec. split.
    + intros (i & Hi & Hs). apply elem_of_seq in Hi. exists i. split; [lia|done].
    + intros (i & Hi & Hs). exists i. split; [apply elem_of_seq; lia|done].
Qed.

Lemma constructor_wellFormed (n b : nat) :
  (0 < n)%nat -> Z.of_nat n <= 2 ^ 32 - 1 ->
  exists lsh, Legacy.constructor (Num.of_nat (n * b)) (Num.of_nat n) = Value lsh /\
              wellFormed n b lsh.
Proof.
  intros Hpos Hmax. unfold Legacy.constructor.
  assert (Hlen : Legacy.toLength (Num.of_nat n) = Z.of_nat n).
  { unfold Legacy.toLength, Num.of_nat, Num.of_Z.
    rewrite (truncate_integer _ (Z.of_nat n)) by reflexivity.
    change (2 ^ 53 - 1) with 9007199254740991.
    change (2 ^ 32 - 1) with 4294967295 in Hmax. lia. }
  rewrite Hlen.
  destruct (Z.ltb_spec (2 ^ 32 - 1) (Z.of_nat n)) as [|_]; [lia|].
  eexists. split; [reflexivity|].
  unfold wellFormed. cbn [Legacy.numBands Legacy.bandSize Legacy.bands].
  split; [done|]. split; [|split].
  - unfold Num.div, Num.of_nat, Num.of_Z.
    destruct (Qeq_bool (inject_Z (Z.of_nat n)) 0) eqn:E.
    + apply Qeq_bool_iff in E. unfold Qeq in E. simpl in E. lia.
    + unfold Num.equiv. rewrite Nat2Z.inj_mul, inject_Z_mult.
      field. intros H. unfold Qeq in H. simpl in H. lia.
  - rewrite length_replicate. lia.
  - intros i band key ids Hband Hkey.
    apply lookup_replicate in Hband as [-> _].
    by rewrite lookup_empty in Hkey.
Qed.

Lemma add_wellFormed n b fuel lsh h id :
  wellFormed n b lsh -> (n < fuel)%nat ->
  exists lsh1, Legacy.add fuel lsh h id = Value lsh1 /\ wellFormed n b lsh1 /\
    Legacy.bandSize lsh1 = Legacy.bandSize lsh /\
    Legacy.bands lsh1
    = imap (fun i => addedTo (Legacy.bandHash (Legacy.bandSize lsh) h i) id)
           (Legacy.bands lsh).
Proof.
  intros (Hn & Hbs & Hlen & Hfull) Hfuel.
  rewrite (add_bands n) by done. eexists. split; [done|].
  split; [|done].
  unfold wellFormed. cbn [Legacy.numBands Legacy.bandSize Legacy.bands].
  split; [done|]. split; [done|]. split; [by rewrite length_imap|].
  intros i band key ids Hband Hkey.
  rewrite list_lookup_imap in Hband.
  destruct (Legacy.bands lsh !! i) as [band0|] eqn:E0; [|done].
  injection Hband as <-. unfold addedTo in Hkey.
  destruct (decide (Legacy.bandHash (Legacy.bandSize lsh) h i = key)) as [<-|Hne].
  - rewrite lookup_insert_eq in Hkey. injection Hkey as <-.
    intros Hnil.
    assert (Hin : id ∈ set_add id
                    (default [] (band0 !! Legacy.bandHash (Legacy.bandSize lsh) h i)))
      by (apply elem_of_set_add; by left).
    rewrite Hnil in Hin. by apply elem_of_nil in Hin.
  - rewrite lookup_insert_ne in Hkey by done. eauto.
Qed.

Lemma remove_wellFormed n b fuel lsh h id :
  wellFormed n b lsh -> (n < fuel)%nat ->
  exists lsh1, Legacy.remove fuel lsh h id = Value lsh1 /\ wellFormed n b lsh1 /\
    Legacy.bandSize lsh1 = Legacy.bandSize lsh /\
    Legacy.bands lsh1
    = imap (fun i => removedFrom (Legacy.bandHash (Legacy.bandSize lsh) h i) id)
           (Legacy.bands lsh).
Proof.
  intros (Hn & Hbs & Hlen & Hfull) Hfuel.
  rewrite (remove_bands n) by done. eexists. split; [done|].
  split; [|done].
  unfold wellFormed. cbn [Legacy.numBands Legacy.bandSize Legacy.bands].
  split; [done|]. split; [done|]. split; [by rewrite length_imap|].
  intros i band key ids Hband Hkey.
  rewrite list_lookup_imap in Hband.
  destruct (Legacy.bands lsh !! i) as [band0|] eqn:E0; [|done].
  injection Hband as <-. unfold removedFrom in Hkey.
  destruct (band0 !! Legacy.bandHash (Legacy.bandSize lsh) h i) as [ids0|] eqn:Ek;
    [|eauto].
  destruct (length (Legacy.set_delete id ids0) =? 0)%nat eqn:Elen.
  - apply lookup_delete_Some in Hkey as [_ Hkey]. eauto.
  - destruct (decide (Legacy.bandHash (Legacy.bandSize lsh) h i = key)) as [<-|Hne].
    + rewrite lookup_insert_eq in Hkey. injection Hkey as <-.
      intros Hnil. rewrite Hnil in Elen. done.
    + rewrite lookup_insert_ne in Hkey by done. eauto.
Qed.

Lemma stored_after_add lsh lsh1 h id i band0 :
  Legacy.bandSize lsh1 = Legacy.bandSize lsh ->
  Legacy.bands lsh1
  = imap (fun i => addedTo (Legacy.bandHash (Legacy.bandSize lsh) h i) id)
         (Legacy.bands lsh) ->
  Legacy.bands lsh !! i = Some band0 ->
  stored lsh1 h i id.
Proof.
  intros Hbs Hbands Hi. unfold stored. rewrite Hbs, Hbands, list_lookup_imap, Hi.
  eexists _, _. split; [done|]. unfold addedTo. rewrite lookup_insert_eq.
  split; [done|]. apply elem_of_set_add. by left.
Qed.

Lemma stored_kept_by_add lsh lsh1 h id q i x :
  Legacy.bandSize lsh1 = Legacy.bandSize lsh ->
  Legacy.bands lsh1
  = imap (fun i => addedTo (Legacy.bandHash (Legacy.bandSize lsh) h i) id)
         (Legacy.bands lsh) ->
  stored lsh q i x -> stored lsh1 q i x.
Proof.
  intros Hbs Hbands (band & ids & Hi & Hk & Hx).
  unfold stored. rewrite Hbs, Hbands, list_lookup_imap, Hi. simpl.
  unfold addedTo.
  destruct (decide (Legacy.bandHash (Legacy.bandSize lsh) h i
                    = Legacy.bandHash (Legacy.bandSize lsh) q i)) as [Heq|Hne].
  - eexists _, _. split; [done|]. rewrite Heq, lookup_insert_eq.
    split; [done|]. rewrite Hk. simpl. apply elem_of_set_add. by right.
  - eexists _, _. split; [done|]. rewrite lookup_insert_ne by done. done.
Qed.

Lemma elem_of_set_delete x y (ids : StrSet) :
  x ∈ Legacy.set_delete y ids <-> x ∈ ids /\ x <> y.
Proof. unfold Legacy.set_delete. rewrite list_elem_of_filter. tauto. Qed.

Lemma set_delete_absent x (ids : StrSet) : x ∉ ids -> Legacy.set_delete x ids = ids.
Proof.
  unfold Legacy.set_delete. induction ids as [|y ids IH]; intros Hx; [done|].
  apply not_elem_of_cons in Hx as [Hxy Hx].
  rewrite filter_cons_True by congruence. f_equal. by apply IH.
Qed.

Lemma stored_kept_by_remove lsh lsh1 h id q i x :
  Legacy.bandSize lsh1 = Legacy.bandSize lsh ->
  Legacy.bands lsh1
  = imap (fun i => removedFrom (Legacy.bandHash (Legacy.bandSize lsh) h i) id)
         (Legacy.bands lsh) ->
  x <> id ->
  stored lsh q i x -> stored lsh1 q i x.
Proof.
  intros Hbs Hbands Hne (band & ids & Hi & Hk & Hx).
  unfold stored. rewrite Hbs, Hbands, list_lookup_imap, Hi. simpl.
  unfold removedFrom.
  destruct (decide (Legacy.bandHash (Legacy.bandSize lsh) h i
                    = Legacy.bandHash (Legacy.bandSize lsh) q i)) as [Heq|Hneq].
  - rewrite Heq, Hk.
    assert (Hin : x ∈ Legacy.set_delete id ids) by (by apply elem_of_set_delete).
    destruct (length (Legacy.set_delete id ids) =? 0)%nat eqn:Elen.
    + apply Nat.eqb_eq in Elen. apply nil_length_inv in Elen.
      rewrite Elen in Hin. by apply elem_of_nil in Hin.
    + eexists _, _. split; [done|]. rewrite lookup_insert_eq. done.
  - destruct (band !! Legacy.bandHash (Legacy.bandSize lsh) h i) as [ids0|] eqn:Ek.
    + destruct (length (Legacy.set_delete id ids0) =? 0)%nat.
      * eexists _, _. split; [done|]. rewrite lookup_delete_ne by done. done.
      * eexists _, _. split; [done|]. rewrite lookup_insert_ne by done. done.
    + eexists _, _. done.
Qed.

Lemma not_stored_after_remove lsh lsh1 h id i :
  Legacy.bandSize lsh1 = Legacy.bandSize lsh ->
  Legacy.bands lsh1
  = imap (fun i => removedFrom (Legacy.bandHash (Legacy.bandSize lsh) h i) id)
         (Legacy.bands lsh) ->
  ~ stored lsh1 h i id.
Proof.
  intros Hbs Hbands (band & ids & Hi & Hk & Hx).
  rewrite Hbs in Hk. rewrite Hbands, list_lookup_imap in Hi.
  destruct (Legacy.bands lsh !! i) as [band0|]; [|done].
  injection Hi as <-. unfold removedFrom in Hk.
  destruct (band0 !! Legacy.bandHash (Legacy.bandSize lsh) h i) as [ids0|] eqn:Ek.
  - destruct (length (Legacy.set_delete id ids0) =? 0)%nat.
    + by rewrite lookup_delete_eq in Hk.
    + rewrite lookup_insert_eq in Hk. injection Hk as <-.
      apply elem_of_set_delete in Hx as [_ ?]. done.
  - congruence.
Qed.

Lemma removedFrom_addedTo key id (band : gmap string StrSet) :
  (forall ids, band !! key = Some ids -> ids <> [] /\ id ∉ ids) ->
  removedFrom key id (addedTo key id band) = band.
Proof.
  intros Hband. unfold removedFrom, addedTo. rewrite lookup_insert_eq.
  destruct (band !! key) as [ids|] eqn:Ek; simpl.
  - destruct (Hband ids eq_refl) as [Hne Hnot].
    assert (Hdel : Legacy.set_delete id (set_add id ids) = ids).
    { unfold set_add, set_has. rewrite bool_decide_eq_false_2 by done.
      unfold Legacy.set_delete. rewrite filter_app.
      fold (Legacy.set_delete id ids). rewrite set_delete_absent by done.
      rewrite filter_cons_False by (intros H; by apply H).
      by rewrite filter_nil, app_nil_r. }
    rewrite Hdel.
    destruct ids as [|y ids]; [done|]. simpl.
    rewrite insert_insert_eq. by apply insert_id.
  - unfold set_add, set_has. rewrite bool_decide_eq_false_2
      by (by intros ?%elem_of_nil).
    simpl. unfold Legacy.set_delete.
    rewrite filter_cons_False by (intros H; by apply H).
    rewrite filter_nil. simpl.
    rewrite delete_insert_eq. by apply delete_id.
Qed.

(** X25. An index built for a natural number of bands keeps its shape: the
    constructor makes one map per band, and [add] and [remove] return
    without throwing, leave one map per band and never leave a key with
    an empty set. *)
Theorem LSH_keeps_its_shape (n b fuel : nat) :
  (0 < n)%nat -> Z.of_nat n <= 2 ^ 32 - 1 -> (n < fuel)%nat ->
  (exists lsh,
     Legacy.constructor (Num.of_nat (n * b)) (Num.of_nat n) = Value lsh /\
     wellFormed n b lsh) /\
  (forall lsh hash identifier, wellFormed n b lsh ->
     (exists lsh1, Legacy.add fuel lsh hash identifier = Value lsh1 /\
                   wellFormed n b lsh1) /\
     (exists lsh1, Legacy.remove fuel lsh hash identifier = Value lsh1 /\
                   wellFormed n b lsh1)).
Proof.
  intros Hpos Hmax Hfuel. split.
  - by apply constructor_wellFormed.
  - intros lsh h id Hwf. split.
    + destruct (add_wellFormed n b fuel lsh h id Hwf Hfuel) as (lsh1 & ? & ? & _).
      eauto.
    + destruct (remove_wellFormed n b fuel lsh h id Hwf Hfuel) as (lsh1 & ? & ? & _).
      eauto.
Qed.

Lemma LSH_keeps_its_shape_witness :
  exists lsh lsh1,
    Legacy.constructor (Num.of_nat (8 * 8)) (Num.of_nat 8) = Value lsh /\
    wellFormed 8 8 lsh /\
    Legacy.add 9 lsh "0123456789abcdef" "a.jpg" = Value lsh1 /\
    wellFormed 8 8 lsh1.
Proof.
  destruct (LSH_keeps_its_shape 8 8 9) as [(lsh & Hnew & Hwf) Hops].
  - lia.
  - simpl. lia.
  - lia.
  - destruct (Hops lsh "0123456789abcdef"%string "a.jpg"%string Hwf)
      as [(lsh1 & Hadd & Hwf1) _].
    exists lsh, lsh1.
    split; [exact Hnew|]. split; [exact Hwf|]. split; [exact Hadd|exact Hwf1].
Defined.

(** X26. The index has no false negatives below its number of bands: once
    a hash is added under an identifier, every hash that the string
    distance accepts with a threshold below the number of bands has that
    identifier among its candidates. *)
Theorem LSH_finds_close_hashes (n b fuel : nat) (lsh : Legacy.LSH)
  (hash1 hash2 identifier : string) (threshold : number) :
  wellFormed n b lsh -> (n < fuel)%nat ->
  Legacy.hammingDistance hash1 hash2 threshold = Legacy.Returned true ->
  Num.lt threshold (Num.of_nat n) = true ->
  exists lsh1 candidates,
    Legacy.add fuel lsh hash1 identifier = Value lsh1 /\
    Legacy.getCandidates fuel lsh1 hash2 = Value candidates /\
    identifier ∈ candidates.
Proof.
  intros Hwf Hfuel Hd Ht.
  destruct (add_wellFormed n b fuel lsh hash1 identifier Hwf Hfuel)
    as (lsh1 & Hadd & Hwf1 & Hbs & Hbands).
  destruct Hwf as (_ & _ & Hlen & _).
  destruct Hwf1 as (Hn1 & Hbs1 & Hlen1 & _).
  destruct (close_hashes_share_a_band (Legacy.bandSize lsh1) n b hash1 hash2
              threshold Hbs1 Hd Ht) as (i & Hi & Hband).
  destruct (getCandidates_stored n fuel lsh1 hash2 Hn1 Hlen1 Hfuel)
    as (c & Hc & Hspec).
  exists lsh1, c. split; [done|]. split; [done|].
  apply Hspec. exists i. split; [done|].
  destruct (lookup_lt_is_Some_2 (Legacy.bands lsh) i) as [band0 Hband0]; [lia|].
  pose proof (stored_after_add lsh lsh1 hash1 identifier i band0 Hbs Hbands Hband0)
    as Hs.
  unfold stored in *. by rewrite <- Hband.
Qed.

Lemma sampleIndex_wellFormed :
  exists lsh, sampleIndex = Value lsh /\ wellFormed 2 2 lsh /\
              Legacy.getCandidates 3 lsh "0110" = Value ["a.jpg"%string].
Proof.
  unfold sampleIndex.
  destruct (constructor_wellFormed 2 2) as (lsh0 & Hnew & Hwf0); [lia|simpl; lia|].
  change (Num.of_nat (2 * 2)) with (Num.of_nat 4) in Hnew. rewrite Hnew. simpl.
  destruct (add_wellFormed 2 2 3 lsh0 "0110" "a.jpg" Hwf0) as (lsh & Hadd & Hwf & _);
    [lia|].
  exists lsh. split; [done|]. split; [done|].
  vm_compute in Hnew. injection Hnew as <-.
  vm_compute in Hadd. injection Hadd as <-.
  vm_compute. reflexivity.
Qed.

Lemma LSH_finds_close_hashes_witness :
  exists lsh lsh1 candidates,
    Legacy.constructor (Num.of_nat 4) (Num.of_nat 2) = Value lsh /\
    Legacy.add 3 lsh "0110" "a.jpg" = Value lsh1 /\
    Legacy.getCandidates 3 lsh1 "0111" = Value candidates /\
    "a.jpg"%string ∈ candidates.
Proof.
  destruct (constructor_wellFormed 2 2) as (lsh & Hnew & Hwf); [lia|simpl; lia|].
  destruct (LSH_finds_close_hashes 2 2 3 lsh "0110" "0111" "a.jpg" (Num.of_Z 1) Hwf)
    as (lsh1 & candidates & Hadd & Hc & Hin).
  - lia.
  - reflexivity.
  - reflexivity.
  - exists lsh, lsh1, candidates.
    split; [exact Hnew|]. split; [exact Hadd|]. split; [exact Hc|exact Hin].
Defined.

(** X27. A candidate stays a candidate: adding any hash keeps it, and so
    does removing any hash under another identifier. *)
Theorem LSH_candidates_survive (n b fuel : nat) (lsh : Legacy.LSH)
  (query hash identifier x : string) (candidates : StrSet) :
  wellFormed n b lsh -> (n < fuel)%nat ->
  Legacy.getCandidates fuel lsh query = Value candidates ->
  x ∈ candidates ->
  (exists lsh1 candidates1,
     Legacy.add fuel lsh hash identifier = Value lsh1 /\
     Legacy.getCandidates fuel lsh1 query = Value candidates1 /\
     x ∈ candidates1) /\
  (x <> identifier ->
   exists lsh1 candidates1,
     Legacy.remove fuel lsh hash identifier = Value lsh1 /\
     Legacy.getCandidates fuel lsh1 query = Value candidates1 /\
     x ∈ candidates1).
Proof.
  intros Hwf Hfuel Hc Hx.
  destruct (getCandidates_stored n fuel lsh query) as (c & Hc' & Hspec);
    [apply Hwf|apply Hwf|done|].
  rewrite Hc in Hc'. injection Hc' as <-.
  apply Hspec in Hx as (i & Hi & Hs).
  split.
  - destruct (add_wellFormed n b fuel lsh hash identifier Hwf Hfuel)
      as (lsh1 & Hadd & Hwf1 & Hbs & Hbands).
    destruct (getCandidates_stored n fuel lsh1 query) as (c1 & Hc1 & Hspec1);
      [apply Hwf1|apply Hwf1|done|].
    exists lsh1, c1. split; [done|]. split; [done|].
    apply Hspec1. exists i. split; [done|].
    by apply (stored_kept_by_add lsh lsh1 hash identifier).
  - intros Hne.
    destruct (remove_wellFormed n b fuel lsh hash identifier Hwf Hfuel)
      as (lsh1 & Hrem & Hwf1 & Hbs & Hbands).
    destruct (getCandidates_stored n fuel lsh1 query) as (c1 & Hc1 & Hspec1);
      [apply Hwf1|apply Hwf1|done|].
    exists lsh1, c1. split; [done|]. split; [done|].
    apply Hspec1. exists i. split; [done|].
    by apply (stored_kept_by_remove lsh lsh1 hash identifier).
Qed.

Lemma LSH_candidates_survive_witness :
  exists lsh lsh1 candidates1,
    sampleIndex = Value lsh /\
    Legacy.add 3 lsh "1111" "b.jpg" = Value lsh1 /\
    Legacy.getCandidates 3 lsh1 "0110" = Value candidates1 /\
    "a.jpg"%string ∈ candidates1.
Proof.
  destruct sampleIndex_wellFormed as (lsh & Hlsh & Hwf & Hc).
  destruct (LSH_candidates_survive 2 2 3 lsh "0110" "1111" "b.jpg" "a.jpg"
              ["a.jpg"%string] Hwf) as [(lsh1 & candidates1 & Hadd & Hc1 & Hin) _].
  - lia.
  - exact Hc.
  - by left.
  - exists lsh, lsh1, candidates1.
    split; [exact Hlsh|]. split; [exact Hadd|]. split; [exact Hc1|exact Hin].
Defined.

(** X28. [remove] undoes [add]: adding a hash under an identifier that is
    not yet among the candidates of that hash, then removing it, gives
    the index back as it was. *)
Theorem LSH_remove_undoes_add (n b fuel : nat) (lsh : Legacy.LSH)
  (hash identifier : string) (candidates : StrSet) :
  wellFormed n b lsh -> (n < fuel)%nat ->
  Legacy.getCandidates fuel lsh hash = Value candidates ->
  identifier ∉ candidates ->
  exists lsh1,
    Legacy.add fuel lsh hash identifier = Value lsh1 /\
    Legacy.remove fuel lsh1 hash identifier = Value lsh.
Proof.
  intros Hwf Hfuel Hc Hnot.
  destruct (getCandidates_stored n fuel lsh hash) as (c & Hc' & Hspec);
    [apply Hwf|apply Hwf|done|].
  rewrite Hc in Hc'. injection Hc' as <-.
  destruct (add_wellFormed n b fuel lsh hash identifier Hwf Hfuel)
    as (lsh1 & Hadd & Hwf1 & Hbs & Hbands).
  destruct (remove_wellFormed n b fuel lsh1 hash identifier Hwf1 Hfuel)
    as (lsh2 & Hrem & Hwf2 & Hbs2 & Hbands2).
  exists lsh1. split; [done|]. rewrite Hrem. f_equal.
  destruct Hwf as (Hn & _ & Hlen & Hfull). destruct Hwf2 as (Hn2 & _).
  assert (Hsame : Legacy.bands lsh2 = Legacy.bands lsh).
  { rewrite Hbands2, Hbands, Hbs. apply list_eq. intros i.
    rewrite !list_lookup_imap.
    destruct (Legacy.bands lsh !! i) as [band|] eqn:Ei; [|done]. simpl.
    f_equal. apply removedFrom_addedTo. intros ids Hk. split; [by eapply Hfull|].
    intros Hin. apply Hnot, Hspec. exists i. split.
    - apply lookup_lt_Some in Ei. lia.
    - exists band, ids. done. }
  destruct lsh, lsh2. simpl in *. congruence.
Qed.

Lemma LSH_remove_undoes_add_witness :
  exists lsh lsh1,
    sampleIndex = Value lsh /\
    Legacy.add 3 lsh "0110" "b.jpg" = Value lsh1 /\
    Legacy.remove 3 lsh1 "0110" "b.jpg" = Value lsh.
Proof.
  destruct sampleIndex_wellFormed as (lsh & Hlsh & Hwf & Hc).
  destruct (LSH_remove_undoes_add 2 2 3 lsh "0110" "b.jpg" ["a.jpg"%string] Hwf)
    as (lsh1 & Hadd & Hrem).
  - lia.
  - exact Hc.
  - intros H. apply list_elem_of_singleton in H. discriminate.
  - exists lsh, lsh1.
    split; [exact Hlsh|]. split; [exact Hadd|exact Hrem].
Defined.

(** X29. [remove] forgets: after a hash is removed under an identifier,
    that identifier is not among the candidates of that hash. *)
Theorem LSH_remove_forgets (n b fuel : nat) (lsh : Legacy.LSH)
  (hash identifier : string) :
  wellFormed n b lsh -> (n < fuel)%nat ->
  exists lsh1 candidates,
    Legacy.remove fuel lsh hash identifier = Value lsh1 /\
    Legacy.getCandidates fuel lsh1 hash = Value candidates /\
    identifier ∉ candidates.
Proof.
  intros Hwf Hfuel.
  destruct (remove_wellFormed n b fuel lsh hash identifier Hwf Hfuel)
    as (lsh1 & Hrem & Hwf1 & Hbs & Hbands).
  destruct (getCandidates_stored n fuel lsh1 hash) as (c1 & Hc1 & Hspec1);
    [apply Hwf1|apply Hwf1|done|].
  exists lsh1, c1. split; [done|]. split; [done|].
  intros Hin. apply Hspec1 in Hin as (i & _ & Hs).
  by apply (not_stored_after_remove lsh lsh1 hash identifier i).
Qed.

Lemma LSH_remove_forgets_witness :
  exists lsh lsh1 candidates,
    sampleIndex = Value lsh /\
    Legacy.remove 3 lsh "0110" "a.jpg" = Value lsh1 /\
    Legacy.getCandidates 3 lsh1 "0110" = Value candidates /\
    "a.jpg"%string ∉ candidates.
Proof.
  destruct sampleIndex_wellFormed as (lsh & Hlsh & Hwf & Hc).
  destruct (LSH_remove_forgets 2 2 3 lsh "0110" "a.jpg" Hwf)
    as (lsh1 & candidates & Hrem & Hc1 & Hnot).
  - lia.
  - exists lsh, lsh1, candidates.
    split; [exact Hlsh|]. split; [exact Hrem|]. split; [exact Hc1|exact Hnot].
Defined.

Lemma num_lt_le a b : Num.lt a b = true -> Num.le a b = true.
Proof. unfold Num.lt, Num.le. intros. num_crush. Qed.

Lemma num_not_lt_le a b :
  a <> NaN -> b <> NaN -> Num.lt a b = false -> Num.le b a = true.
Proof. unfold Num.lt, Num.le. intros. num_crush. Qed.

Lemma notBeatenBy_trans a b c :
  notBeatenBy a b -> notBeatenBy b c -> notBeatenBy a c.
Proof.
  intros [Hg1 Hm1] [Hg2 Hm2]. split.
  - auto.
  - intros Hg.
    assert (Legacy.hasGeolocation c = Legacy.hasGeolocation b).
    { revert Hg1 Hg2 Hg.
      destruct (Legacy.hasGeolocation a), (Legacy.hasGeolocation b),
        (Legacy.hasGeolocation c); intros Hg1 Hg2 Hg; try done.
      - symmetry. by apply Hg2.
      - by apply Hg1. }
    eapply num_le_trans; [apply Hm2; done|apply Hm1; congruence].
Qed.

Lemma better_choice best current :
  Legacy.metadataCount best <> NaN -> Legacy.metadataCount current <> NaN ->
  (Legacy.better best current = best \/ Legacy.better best current = current) /\
  notBeatenBy (Legacy.better best current) best /\
  notBeatenBy (Legacy.better best current) current.
Proof.
  intros Hb Hc.
  assert (Hrb : notBeatenBy best best).
  { split; [done|]. intros _. by apply num_le_refl. }
  assert (Hrc : notBeatenBy current current).
  { split; [done|]. intros _. by apply num_le_refl. }
  unfold Legacy.better.
  destruct (Legacy.hasGeolocation current) eqn:Gc,
    (Legacy.hasGeolocation best) eqn:Gb; cbn [andb negb].
  3: { split; [by left|]. split; [done|].
       split; [by rewrite Gb|]. rewrite Gc, Gb. done. }
  2: { split; [by right|]. split; [|done].
       split; [by rewrite Gc|]. rewrite Gc, Gb. done. }
  all: unfold Num.gt;
    destruct (Num.lt (Legacy.metadataCount best) (Legacy.metadataCount current)) eqn:L1;
    [ split; [by right|]; split; [|done];
      split; [by rewrite Gc, Gb|]; intros _; by apply num_lt_le
    | destruct (Num.lt (Legacy.metadataCount current) (Legacy.metadataCount best)) eqn:L2;
      [ split; [by left|]; split; [done|];
        split; [by rewrite Gc, Gb|]; intros _; by apply num_lt_le
      | assert (Hcb : notBeatenBy current best)
          by (split; [by rewrite Gc, Gb|]; intros _; by apply num_not_lt_le);
        assert (Hbc : notBeatenBy best current)
          by (split; [by rewrite Gc, Gb|]; intros _; by apply num_not_lt_le);
        repeat match goal with |- context [if ?c then _ else _] => destruct c end;
        (split; [first [by left|by right]|]); done ] ].
Qed.

Lemma reduce_better_choice rest : forall first,
  (forall f, f ∈ first :: rest -> Legacy.metadataCount f <> NaN) ->
  foldl Legacy.better first rest ∈ first :: rest /\
  forall f, f ∈ first :: rest -> notBeatenBy (foldl Legacy.better first rest) f.
Proof.
  induction rest as [|x rest IH]; intros first Hnan; simpl.
  - split; [by left|]. intros f ->%list_elem_of_singleton.
    split; [done|]. intros _. apply num_le_refl, Hnan. by left.
  - destruct (better_choice first x) as (Hsel & Hfirst & Hx).
    { apply Hnan. by left. }
    { apply Hnan. right. by left. }
    destruct (IH (Legacy.better first x)) as [Hin Hbest].
    { intros f [->|Hf]%elem_of_cons.
      - destruct Hsel as [->| ->]; apply Hnan; [by left|right; by left].
      - apply Hnan. right. by right. }
    split.
    + apply elem_of_cons in Hin as [Hin|Hin].
      * rewrite Hin. destruct Hsel as [->| ->]; [by left|right; by left].
      * right. by right.
    + intros f [->|[->|Hf]%elem_of_cons]%elem_of_cons.
      * eapply notBeatenBy_trans; [|exact Hfirst]. apply Hbest. by left.
      * eapply notBeatenBy_trans; [|exact Hx]. apply Hbest. by left.
      * apply Hbest. by right.
Qed.

(** X30. Of a non-empty array of copies whose metadata counts are numbers,
    [selectBestFile] returns one of the copies; it has geolocation if any
    copy has, and no copy with the same geolocation flag has a larger
    metadata count. *)
Theorem selectBestFile_prefers_geolocation_then_metadata
  (files : list Legacy.FileInfo) :
  files <> [] ->
  (forall f, f ∈ files -> Legacy.metadataCount f <> NaN) ->
  exists best,
    Legacy.selectBestFile files = Value best /\
    best ∈ files /\
    forall f, f ∈ files -> notBeatenBy best f.
Proof.
  intros Hne Hnan. destruct files as [|first rest]; [done|].
  exists (foldl Legacy.better first rest). split; [done|].
  by apply reduce_better_choice.
Qed.

Lemma selectBestFile_prefers_geolocation_then_metadata_witness :
  exists best,
    Legacy.selectBestFile sampleCopies = Value best /\
    best ∈ sampleCopies /\
    notBeatenBy best (sampleCopy "a.jpg" false 9) /\
    notBeatenBy best (sampleCopy "c.jpg" true 5).
Proof.
  destruct (selectBestFile_prefers_geolocation_then_metadata sampleCopies)
    as (best & Hbest & Hin & Hall).
  - discriminate.
  - intros f Hf. unfold sampleCopies in Hf.
    repeat (apply elem_of_cons in Hf as [->|Hf]); try discriminate.
    by apply elem_of_nil in Hf.
  - exists best. split; [exact Hbest|]. split; [exact Hin|].
    split; apply Hall; unfold sampleCopies.
    + by left.
    + right. right. by left.
Defined.
